(** * satellite-scout: the tracker package, embedded and verified

    A shallow embedding of the Go package [tracker] (TLE parser, SGP4
    propagator driver, ground-track generator, Celestrak client, TLE store
    and the topocentric transform), with the properties its specification
    states about them.

    Conventions of the embedding.
    - A Go [string] is a sequence of bytes: Rocq's [string] of 8-bit
      [ascii] characters.  [len], indexing and slicing count bytes.
    - Go's [int] and [int64] are 64-bit; they are [Z] with the wrap-around
      written where the source can reach it.
    - A Go [float64] is Rocq's primitive binary64 [float]; its arithmetic
      and comparisons are the IEEE 754 ones of the Go runtime.
    - [(T, error)] results are [result E T]; a [nil] pointer argument is
      [None].
    - Functions of the Go standard library and of go-satellite whose
      numerics are outside the repository ([strconv.ParseFloat],
      [math.Pow], [math.Sin], [strings.ToLower], the SGP4 kernel, ...) are
      the methods of type classes, so that every theorem holds for any
      behaviour of theirs; small ones ([strings.TrimSpace],
      [strconv.Atoi], [math.Max]) are written out.

    The file has three parts: the embedding of the source, the vocabulary
    of the specification with the data of the examples, and the
    theorems. *)

From Stdlib Require Import ZArith QArith List String Ascii Lia Bool Sorted.
From Stdlib Require Import Floats.PrimFloat Floats.SpecFloat Floats.FloatOps.
From Stdlib Require Import Reals Lra Psatz.
From stdpp Require Import base gmap strings list.

Set Warnings "-inexact-float".

Open Scope string_scope.
Open Scope Z_scope.

(** ** Results and errors *)

Inductive result (E A : Type) : Type :=
| Ok (a : A)
| Err (e : E).
Arguments Ok {E A} a.
Arguments Err {E A} e.

Definition rbind {E A B} (r : result E A) (k : A -> result E B) : result E B :=
  match r with
  | Ok a => k a
  | Err e => Err e
  end.

Notation "'let*' x := r 'in' k" := (rbind r (fun x => k))
  (at level 10, x name, r at level 200, k at level 200).

Definition isOk {E A} (r : result E A) : bool :=
  match r with Ok _ => true | Err _ => false end.

(** ** Go runtime pieces used by the package *)

Module Go.

Definition minInt64 : Z := - 2 ^ 63.
Definition maxInt64 : Z := 2 ^ 63 - 1.
Definition maxUint64 : Z := 2 ^ 64 - 1.

(** Two's-complement wrap-around of an [int64] result. *)
Definition wrap64 (z : Z) : Z := (z + 2 ^ 63) mod 2 ^ 64 - 2 ^ 63.

(** The numeric value of a byte. *)
Definition code (c : ascii) : Z := Z.of_N (N_of_ascii c).

(** [a - b] on two bytes, as Go computes it (modulo 256). *)
Definition byteSub (a b : ascii) : Z := (code a - code b) mod 256.

Definition bytes (s : string) : list ascii := list_ascii_of_string s.
Definition ofBytes (l : list ascii) : string := string_of_list_ascii l.

Definition len (s : string) : Z := Z.of_nat (String.length s).

(** [s[i]]; every use in the package is guarded by a length test, the
    default byte stands for the unreachable out-of-range read. *)
Definition at_ (s : string) (i : nat) : ascii :=
  match String.get i s with
  | Some c => c
  | None => Ascii.zero
  end.

(** [s[lo:hi]]. *)
Definition slice (s : string) (lo hi : nat) : string :=
  String.substring lo (hi - lo) s.

(** [s[lo:]]. *)
Definition sliceFrom (s : string) (lo : nat) : string :=
  String.substring lo (String.length s - lo) s.

Definition isDigit (c : ascii) : bool :=
  (code "0"%char <=? code c) && (code c <=? code "9"%char).

(** *** strings.TrimSpace

    White space is what [unicode.IsSpace] accepts: the ASCII bytes
    HT, LF, VT, FF, CR and space, and the UTF-8 encodings of U+0085,
    U+00A0, U+1680, U+2000..U+200A, U+2028, U+2029, U+202F, U+205F and
    U+3000. [spacePrefix l] is the byte length of a white-space rune at
    the head of [l] (0 when there is none). *)
Definition isAsciiSpace (c : ascii) : bool :=
  let n := code c in
  (n =? 9) || (n =? 10) || (n =? 11) || (n =? 12) || (n =? 13) || (n =? 32).

Definition spacePrefix (l : list ascii) : nat :=
  match l with
  | [] => 0%nat
  | c :: r =>
      if isAsciiSpace c then 1%nat
      else
        match List.map code (c :: firstn 2 r) with
        | 194 :: b :: _ =>
            if (b =? 133) || (b =? 160) then 2%nat else 0%nat
        | 225 :: 154 :: 128 :: _ => 3%nat
        | 226 :: 128 :: b :: _ =>
            if ((128 <=? b) && (b <=? 138)) || (b =? 168) || (b =? 169)
               || (b =? 175)
            then 3%nat else 0%nat
        | 226 :: 129 :: 159 :: _ => 3%nat
        | 227 :: 128 :: 128 :: _ => 3%nat
        | _ => 0%nat
        end
  end.

(** The same test on the reversed string, for the trailing side. *)
Definition spaceSuffix (rl : list ascii) : nat :=
  match rl with
  | [] => 0%nat
  | c :: _ =>
      if isAsciiSpace c then 1%nat
      else
        match List.map code (firstn 3 rl) with
        | b :: 194 :: _ =>
            if (b =? 133) || (b =? 160) then 2%nat else 0%nat
        | 128 :: 154 :: 225 :: _ => 3%nat
        | b :: 128 :: 226 :: _ =>
            if ((128 <=? b) && (b <=? 138)) || (b =? 168) || (b =? 169)
               || (b =? 175)
            then 3%nat else 0%nat
        | 159 :: 129 :: 226 :: _ => 3%nat
        | 128 :: 128 :: 227 :: _ => 3%nat
        | _ => 0%nat
        end
  end.

Fixpoint dropWhileSpace (sp : list ascii -> nat) (fuel : nat)
         (l : list ascii) : list ascii :=
  match fuel with
  | O => l
  | S fuel' =>
      match sp l with
      | O => l
      | n => dropWhileSpace sp fuel' (skipn n l)
      end
  end.

Definition TrimSpace (s : string) : string :=
  let l := bytes s in
  let l1 := dropWhileSpace spacePrefix (List.length l) l in
  let r1 := dropWhileSpace spaceSuffix (List.length l1) (rev l1) in
  ofBytes (rev r1).

(** *** strings.Split(s, "\n") *)
Definition newline : ascii := ascii_of_nat 10.

Fixpoint splitBytes (cur : list ascii) (l : list ascii) : list string :=
  match l with
  | [] => [ofBytes (rev cur)]
  | c :: r =>
      if Ascii.eqb c newline
      then ofBytes (rev cur) :: splitBytes [] r
      else splitBytes (c :: cur) r
  end.

Definition SplitLines (s : string) : list string := splitBytes [] (bytes s).

(** *** strconv.Atoi

    Optional sign, then one or more decimal digits; Go returns the value
    together with the error, and the value that comes with an error (0
    for bad syntax, the nearest bound for a range error) is used by
    callers that drop the error. *)
Inductive NumError : Type := ErrSyntax | ErrRange.

Fixpoint parseUint (n : Z) (l : list ascii) : Z * option NumError :=
  match l with
  | [] => (n, None)
  | c :: r =>
      if isDigit c then
        let n1 := n * 10 + (code c - code "0"%char) in
        if maxUint64 <? n1 then (maxUint64, Some ErrRange)
        else parseUint n1 r
      else (0, Some ErrSyntax)
  end.

Definition Atoi (s : string) : Z * option NumError :=
  let l := bytes s in
  let '(neg, body) :=
    match l with
    | c :: r =>
        if Ascii.eqb c "-"%char then (true, r)
        else if Ascii.eqb c "+"%char then (false, r)
        else (false, l)
    | [] => (false, l)
    end in
  match body with
  | [] => (0, Some ErrSyntax)
  | _ =>
      match parseUint 0 body with
      | (_, Some ErrSyntax) => (0, Some ErrSyntax)
      | (un, e) =>
          if negb neg && (2 ^ 63 <=? un) then (maxInt64, Some ErrRange)
          else if neg && (2 ^ 63 <? un) then (minInt64, Some ErrRange)
          else (if neg then - un else un, e)
      end
  end.

(** *** make

    [make([]T, 0, cap)] panics with "makeslice: cap out of range" when
    [cap] is negative or [cap] elements of [elemSize] bytes are more than
    the runtime can address; [maxAlloc] is that bound on linux/amd64 and
    the other 64-bit platforms with 48 bits of address. *)
Definition maxAlloc : Z := 2 ^ 48.

Definition makeslicePanics (elemSize cap : Z) : bool :=
  (cap <? 0) || (maxAlloc <? elemSize * cap).

(** *** time.Time

    An instant is its count of nanoseconds since the Unix epoch, read in
    UTC; [time.Duration] is a count of nanoseconds. *)
Definition Time : Type := Z.
Definition Duration : Type := Z.

Definition Nanosecond : Duration := 1.
Definition Millisecond : Duration := 1000000.
Definition Second : Duration := 1000000000.
Definition Minute : Duration := 60 * Second.
Definition Hour : Duration := 60 * Minute.

Definition timeAdd (t : Time) (d : Duration) : Time := t + d.
Definition timeAfter (t u : Time) : bool := u <? t.
Definition timeBefore (t u : Time) : bool := t <? u.
Definition timeEqual (t u : Time) : bool := t =? u.

(** [t.Sub(u)]: the difference when a [Duration] holds it, the largest or
    the smallest [Duration] otherwise. *)
Definition timeSub (t u : Time) : Duration :=
  if maxInt64 <? t - u then maxInt64
  else if t - u <? minInt64 then minInt64
  else t - u.
Definition UnixMilli (t : Time) : Z := t / Millisecond.

(** Days since 1970-01-01 of a proleptic Gregorian date. *)
Definition daysFromCivil (y m d : Z) : Z :=
  let y' := if m <=? 2 then y - 1 else y in
  let era := y' / 400 in
  let yoe := y' - era * 400 in
  let mp := if 2 <? m then m - 3 else m + 9 in
  let doy := (153 * mp + 2) / 5 + d - 1 in
  let doe := yoe * 365 + yoe / 4 - yoe / 100 + doy in
  era * 146097 + doe - 719468.

(** The date of a count of days since 1970-01-01. *)
Definition civilFromDays (days : Z) : Z * Z * Z :=
  let z := days + 719468 in
  let era := z / 146097 in
  let doe := z - era * 146097 in
  let yoe := (doe - doe / 1460 + doe / 36524 - doe / 146096) / 365 in
  let doy := doe - (365 * yoe + yoe / 4 - yoe / 100) in
  let mp := (5 * doy + 2) / 153 in
  let d := doy - (153 * mp + 2) / 5 + 1 in
  let m := if mp <? 10 then mp + 3 else mp - 9 in
  ((if m <=? 2 then yoe + era * 400 + 1 else yoe + era * 400), m, d).

(** [time.Date(y, m, d, hh, mm, ss, 0, time.UTC)]. *)
Definition Date (y m d hh mm ss : Z) : Time :=
  (daysFromCivil y m d * 86400 + hh * 3600 + mm * 60 + ss) * Second.

(** [t.Date()] and [t.Clock()]. *)
Definition dateOf (t : Time) : Z * Z * Z := civilFromDays (t / Second / 86400).
Definition clockOf (t : Time) : Z * Z * Z :=
  let s := (t / Second) mod 86400 in
  (s / 3600, (s mod 3600) / 60, s mod 60).

(** *** float64 conversions and the small math functions *)

(** [float64(z)] for an integer [z]: the nearest binary64. *)
Definition floatOfInt (z : Z) : float :=
  SF2Prim (binary_normalize prec emax z 0 false).

(** The integer part of a finite float. *)
Definition truncFloat (f : float) : option Z :=
  match Prim2SF f with
  | S754_zero _ => Some 0
  | S754_finite s m e =>
      let v := if 0 <=? e then Zpos m * 2 ^ e else Zpos m / 2 ^ (- e) in
      Some (if s then - v else v)
  | _ => None
  end.

(** [int64(f)]: truncation toward zero.  For NaN, the infinities and
    values outside the int64 range the Go specification leaves the
    result to the implementation; this is what amd64 returns. *)
Definition int64OfFloat (f : float) : Z :=
  match truncFloat f with
  | Some z => if (minInt64 <=? z) && (z <=? maxInt64) then z else minInt64
  | None => minInt64
  end.

(** The binary64 nearest to the rational [n / d] (ties to even), [d > 0]:
    the quotient is taken with 66 or more significant bits and a sticky
    last bit, then rounded once. *)
Definition roundRat (n d : Z) : spec_float :=
  if n =? 0 then S754_zero false
  else
    let m := Z.abs n in
    let s := Z.max 0 (Z.log2 d + 66 - Z.log2 m) in
    let q := 2 * ((m * 2 ^ s) / d) + (if (m * 2 ^ s) mod d =? 0 then 0 else 1) in
    binary_normalize prec emax (Z.sgn n * q) (- (s + 1)) false.

(** An untyped numeric constant of the source, exact until it is used
    as a float64. *)
Definition constFloat (q : Q) : float :=
  SF2Prim (roundRat (Qnum q) (Zpos (Qden q))).

(** math.Pi, with the digits of its declaration. *)
Definition mathPi : Q :=
  314159265358979323846264338327950288419716939937510582097494459
    # (10 ^ 62).

Definition signbit (f : float) : bool :=
  match Prim2SF f with
  | S754_zero s | S754_infinity s | S754_finite s _ _ => s
  | S754_nan => false
  end.

(** math.Max and math.Min with their special cases. *)
Definition Max (x y : float) : float :=
  if PrimFloat.eqb x infinity || PrimFloat.eqb y infinity then infinity
  else if is_nan x || is_nan y then nan
  else if PrimFloat.eqb x 0 && PrimFloat.eqb x y then
    (if signbit x then y else x)
  else if PrimFloat.ltb y x then x else y.

Definition Min (x y : float) : float :=
  if PrimFloat.eqb x neg_infinity || PrimFloat.eqb y neg_infinity
  then neg_infinity
  else if is_nan x || is_nan y then nan
  else if PrimFloat.eqb x 0 && PrimFloat.eqb x y then
    (if signbit x then x else y)
  else if PrimFloat.ltb x y then x else y.

(** The part of the numeric libraries the package calls and this
    development does not fix.  [ParseFloat s] is
    [strconv.ParseFloat(s, 64)], value and error as Go returns them
    (0 with a syntax error, an infinity with a range error); [Pow] is
    math.Pow. *)
Class NumLib : Type := {
  ParseFloat : string -> float * option NumError;
  Pow : float -> float -> float
}.

(** math.Sin, math.Cos, math.Asin and math.Atan2. *)
Class TrigLib : Type := {
  Sin : float -> float;
  Cos : float -> float;
  Asin : float -> float;
  Atan2 : float -> float -> float
}.

End Go.


(** ** tle.go: the TLE parser *)

(** The errors of the package.  A wrapped error ([fmt.Errorf] with %w) is
    represented by the error at the root of its chain, which is what
    [errors.Is] tests; errors without a sentinel keep a constructor of
    their own. *)
Inductive TLEError : Type :=
| ErrInvalidTLEFormat
| ErrInvalidChecksum
| ErrInvalidLineNumber
| ErrLineTooShort
| ErrNoradIDMismatch
| ErrInvalidAlpha5
| ErrEpochTooShort
| ErrStrconv (e : Go.NumError).

(** alpha5Map: the letter prefixes of the Alpha-5 format; I and O are not
    keys. *)
Definition alpha5Map : list (ascii * Z) :=
  [("A"%char, 10); ("B"%char, 11); ("C"%char, 12); ("D"%char, 13);
   ("E"%char, 14); ("F"%char, 15); ("G"%char, 16); ("H"%char, 17);
   ("J"%char, 18); ("K"%char, 19); ("L"%char, 20); ("M"%char, 21);
   ("N"%char, 22);
   ("P"%char, 23); ("Q"%char, 24); ("R"%char, 25); ("S"%char, 26);
   ("T"%char, 27); ("U"%char, 28); ("V"%char, 29); ("W"%char, 30);
   ("X"%char, 31); ("Y"%char, 32); ("Z"%char, 33)].

Fixpoint mapLookup (m : list (ascii * Z)) (c : ascii) : option Z :=
  match m with
  | [] => None
  | (k, v) :: r => if Ascii.eqb k c then Some v else mapLookup r c
  end.

Record TLE : Type := mkTLE {
  Name : string;
  NoradID : Z;
  Classification : string;
  IntlDesignator : string;
  Epoch : Go.Time;
  MeanMotionDot : float;
  MeanMotionDot2 : float;
  Bstar : float;
  EphemerisType : Z;
  ElementSetNo : Z;
  Inclination : float;
  RAAN : float;
  Eccentricity : float;
  ArgOfPerigee : float;
  MeanAnomaly : float;
  MeanMotion : float;
  RevNumber : Z;
  Line1 : string;
  Line2 : string
}.

(** The zero value of the struct with the three fields [parseTLELines]
    sets at allocation. *)
Definition newTLE (name line1 line2 : string) : TLE :=
  {| Name := name; NoradID := 0; Classification := ""; IntlDesignator := "";
     Epoch := 0; MeanMotionDot := 0; MeanMotionDot2 := 0; Bstar := 0;
     EphemerisType := 0; ElementSetNo := 0; Inclination := 0; RAAN := 0;
     Eccentricity := 0; ArgOfPerigee := 0; MeanAnomaly := 0; MeanMotion := 0;
     RevNumber := 0; Line1 := line1; Line2 := line2 |}.

Definition TLELineLength : nat := 69.

(** calculateChecksum: the loop over the bytes of [line], then [sum % 10]. *)
Definition checksumStep (sum : Z) (c : ascii) : Z :=
  if (Go.code "0"%char <=? Go.code c) && (Go.code c <=? Go.code "9"%char)
  then sum + Go.byteSub c "0"%char
  else if Ascii.eqb c "-"%char then sum + 1
  else sum.

Definition calculateChecksum (line : string) : Z :=
  Z.rem (fold_left checksumStep (Go.bytes line) 0) 10.

Definition validateChecksum (line : string) : bool :=
  if (String.length line <? TLELineLength)%nat then false
  else
    let checksumIdx := (TLELineLength - 1)%nat in
    let calculated := calculateChecksum (Go.slice line 0 checksumIdx) in
    let expected := Go.byteSub (Go.at_ line checksumIdx) "0"%char in
    calculated =? expected.

Definition parseNoradID (s : string) : result TLEError Z :=
  if (String.length s =? 0)%nat then Err ErrInvalidAlpha5
  else
    let firstChar := Go.at_ s 0 in
    if (Go.code "A"%char <=? Go.code firstChar)
       && (Go.code firstChar <=? Go.code "Z"%char)
    then
      match mapLookup alpha5Map firstChar with
      | None => Err ErrInvalidAlpha5
      | Some prefix =>
          if (String.length s <? 5)%nat then Err ErrInvalidAlpha5
          else
            match Go.Atoi (Go.slice s 1 5) with
            | (_, Some _) => Err ErrInvalidAlpha5
            | (rest, None) => Ok (prefix * 10000 + rest)
            end
      end
    else
      match Go.Atoi s with
      | (_, Some e) => Err (ErrStrconv e)
      | (id, None) => Ok id
      end.

Section Parser.
Context `{lib : Go.NumLib}.

(** Position of the last '+' or '-' of [s], scanning from the end. *)
Fixpoint lastSignPos (l : list ascii) (i : nat) : option nat :=
  match l with
  | [] => None
  | c :: r =>
      match lastSignPos r (S i) with
      | Some p => Some p
      | None =>
          if Ascii.eqb c "+"%char || Ascii.eqb c "-"%char
          then Some i else None
      end
  end.

Definition parseExponent (s0 : string) : float :=
  let s := Go.TrimSpace s0 in
  if String.eqb s "" || String.eqb s "00000-0" || String.eqb s "00000+0"
  then 0%float
  else
    let '(sign, s) :=
      if Ascii.eqb (Go.at_ s 0) "-"%char then ((-1)%float, Go.sliceFrom s 1)
      else if Ascii.eqb (Go.at_ s 0) "+"%char then (1%float, Go.sliceFrom s 1)
      else (1%float, s) in
    match lastSignPos (Go.bytes s) 0 with
    | None =>
        let val := fst (Go.ParseFloat ("0." ++ s)) in
        (sign * val)%float
    | Some expPos =>
        let mantissaStr := Go.slice s 0 expPos in
        let expStr := Go.sliceFrom s expPos in
        let mantissa := fst (Go.ParseFloat ("0." ++ mantissaStr)) in
        let exp := fst (Go.Atoi expStr) in
        (sign * mantissa * Go.Pow 10 (Go.floatOfInt exp))%float
    end.

Definition parseEpoch (epochStr : string) : result TLEError Go.Time :=
  if (String.length epochStr <? 7)%nat then Err ErrEpochTooShort
  else
    let yearStr := Go.slice epochStr 0 2 in
    match Go.Atoi yearStr with
    | (_, Some e) => Err (ErrStrconv e)
    | (year, None) =>
        let year := if 57 <=? year then year + 1900 else year + 2000 in
        let dayStr := Go.sliceFrom epochStr 2 in
        match Go.ParseFloat dayStr with
        | (_, Some e) => Err (ErrStrconv e)
        | (dayOfYear, None) =>
            let baseTime := Go.Date year 1 1 0 0 0 in
            let duration :=
              Go.int64OfFloat
                ((dayOfYear - 1) * 24 * Go.floatOfInt Go.Hour)%float in
            Ok (Go.timeAdd baseTime duration)
        end
    end.

(** [strconv.ParseFloat] followed by the error test of the caller. *)
Definition parseFloatField (s : string) : result TLEError float :=
  match Go.ParseFloat s with
  | (_, Some e) => Err (ErrStrconv e)
  | (v, None) => Ok v
  end.

Definition parseLine1 (tle : TLE) (line : string) : result TLEError TLE :=
  let noradStr := Go.TrimSpace (Go.slice line 2 7) in
  let* noradID := parseNoradID noradStr in
  let classification := String (Go.at_ line 7) "" in
  let intlDesignator := Go.TrimSpace (Go.slice line 9 17) in
  let epochStr := Go.TrimSpace (Go.slice line 18 32) in
  let* epoch := parseEpoch epochStr in
  let meanMotionDotStr := Go.TrimSpace (Go.slice line 33 43) in
  let* meanMotionDot := parseFloatField meanMotionDotStr in
  let meanMotionDot2Str := Go.TrimSpace (Go.slice line 44 52) in
  let meanMotionDot2 := parseExponent meanMotionDot2Str in
  let bstarStr := Go.TrimSpace (Go.slice line 53 61) in
  let bstar := parseExponent bstarStr in
  let ephTypeStr := Go.TrimSpace (Go.slice line 62 63) in
  let ephemerisType :=
    if negb (String.eqb ephTypeStr "") && negb (String.eqb ephTypeStr " ")
    then fst (Go.Atoi ephTypeStr) else EphemerisType tle in
  let elemSetStr := Go.TrimSpace (Go.slice line 64 68) in
  let elementSetNo :=
    if negb (String.eqb elemSetStr "")
    then fst (Go.Atoi elemSetStr) else ElementSetNo tle in
  Ok {| Name := Name tle; NoradID := noradID;
        Classification := classification;
        IntlDesignator := intlDesignator; Epoch := epoch;
        MeanMotionDot := meanMotionDot; MeanMotionDot2 := meanMotionDot2;
        Bstar := bstar; EphemerisType := ephemerisType;
        ElementSetNo := elementSetNo; Inclination := Inclination tle;
        RAAN := RAAN tle; Eccentricity := Eccentricity tle;
        ArgOfPerigee := ArgOfPerigee tle; MeanAnomaly := MeanAnomaly tle;
        MeanMotion := MeanMotion tle; RevNumber := RevNumber tle;
        Line1 := Line1 tle; Line2 := Line2 tle |}.

Definition parseLine2 (tle : TLE) (line : string) : result TLEError TLE :=
  let inclStr := Go.TrimSpace (Go.slice line 8 16) in
  let* inclination := parseFloatField inclStr in
  let raanStr := Go.TrimSpace (Go.slice line 17 25) in
  let* raan := parseFloatField raanStr in
  let eccStr := Go.TrimSpace (Go.slice line 26 33) in
  let* eccInt := parseFloatField ("0." ++ eccStr) in
  let argPeriStr := Go.TrimSpace (Go.slice line 34 42) in
  let* argOfPerigee := parseFloatField argPeriStr in
  let meanAnomStr := Go.TrimSpace (Go.slice line 43 51) in
  let* meanAnomaly := parseFloatField meanAnomStr in
  let meanMotionStr := Go.TrimSpace (Go.slice line 52 63) in
  let* meanMotion := parseFloatField meanMotionStr in
  let revNumStr := Go.TrimSpace (Go.slice line 63 68) in
  let revNumber :=
    if negb (String.eqb revNumStr "")
    then fst (Go.Atoi revNumStr) else RevNumber tle in
  Ok {| Name := Name tle; NoradID := NoradID tle;
        Classification := Classification tle;
        IntlDesignator := IntlDesignator tle; Epoch := Epoch tle;
        MeanMotionDot := MeanMotionDot tle;
        MeanMotionDot2 := MeanMotionDot2 tle;
        Bstar := Bstar tle; EphemerisType := EphemerisType tle;
        ElementSetNo := ElementSetNo tle; Inclination := inclination;
        RAAN := raan; Eccentricity := eccInt;
        ArgOfPerigee := argOfPerigee; MeanAnomaly := meanAnomaly;
        MeanMotion := meanMotion; RevNumber := revNumber;
        Line1 := Line1 tle; Line2 := Line2 tle |}.

Definition parseTLELines (name line1 line2 : string) : result TLEError TLE :=
  if (String.length line1 <? TLELineLength)%nat then Err ErrLineTooShort
  else if (String.length line2 <? TLELineLength)%nat then Err ErrLineTooShort
  else if negb (Ascii.eqb (Go.at_ line1 0) "1"%char)
  then Err ErrInvalidLineNumber
  else if negb (Ascii.eqb (Go.at_ line2 0) "2"%char)
  then Err ErrInvalidLineNumber
  else if negb (validateChecksum line1) then Err ErrInvalidChecksum
  else if negb (validateChecksum line2) then Err ErrInvalidChecksum
  else
    let tle := newTLE name line1 line2 in
    let* tle := parseLine1 tle line1 in
    let* tle := parseLine2 tle line2 in
    let* noradID2 := parseNoradID (Go.TrimSpace (Go.slice line2 2 7)) in
    if negb (NoradID tle =? noradID2) then Err ErrNoradIDMismatch
    else Ok tle.

(** ParseTLE: two lines (Line1, Line2) or three (Name, Line1, Line2). *)
Definition ParseTLE (lines : list string) : result TLEError TLE :=
  if (List.length lines <? 2)%nat then Err ErrInvalidTLEFormat
  else
    let firstLine := Go.TrimSpace (nth 0 lines "") in
    if (String.length firstLine =? 0)%nat then Err ErrInvalidTLEFormat
    else if Ascii.eqb (Go.at_ firstLine 0) "1"%char then
      parseTLELines "" firstLine (Go.TrimSpace (nth 1 lines ""))
    else if Ascii.eqb (Go.at_ firstLine 0) "2"%char then
      Err ErrInvalidTLEFormat
    else if (List.length lines <? 3)%nat then Err ErrInvalidTLEFormat
    else
      parseTLELines firstLine (Go.TrimSpace (nth 1 lines ""))
                    (Go.TrimSpace (nth 2 lines "")).

(** tryParseTLE: whether the accumulated lines have the shape of a
    record (not whether they parse). *)
Definition tryParseTLE (lines : list string) : option (list string) :=
  let n := List.length lines in
  if (n <? 2)%nat then None
  else if (n =? 2)%nat then
    if Ascii.eqb (Go.at_ (nth 0 lines "") 0) "1"%char
       && Ascii.eqb (Go.at_ (nth 1 lines "") 0) "2"%char
    then Some lines else None
  else if (n =? 3)%nat then
    if negb (Ascii.eqb (Go.at_ (nth 0 lines "") 0) "1"%char)
       && negb (Ascii.eqb (Go.at_ (nth 0 lines "") 0) "2"%char)
    then Some lines else None
  else None.

(** The loop of ParseTLEBatch over the lines of the input, with its two
    accumulators; any failing ParseTLE returns at once. *)
Fixpoint batchLoop (lines : list string) (tles : list TLE)
         (currentLines : list string) : result TLEError (list TLE) :=
  match lines with
  | [] =>
      if (2 <=? List.length currentLines)%nat then
        let* tle := ParseTLE currentLines in
        Ok (tles ++ [tle])%list
      else Ok tles
  | line :: rest =>
      let trimmed := Go.TrimSpace line in
      if String.eqb trimmed "" then
        if (2 <=? List.length currentLines)%nat then
          let* tle := ParseTLE currentLines in
          batchLoop rest (tles ++ [tle])%list []
        else batchLoop rest tles currentLines
      else
        let currentLines := (currentLines ++ [trimmed])%list in
        match tryParseTLE currentLines with
        | Some _ =>
            let* parsed := ParseTLE currentLines in
            batchLoop rest (tles ++ [parsed])%list []
        | None => batchLoop rest tles currentLines
        end
  end.

Definition ParseTLEBatch (data : string) : result TLEError (list TLE) :=
  batchLoop (Go.SplitLines data) [] [].

End Parser.

(** ** A numeric library for running the parser

    Decimal floating-point literals (sign, digits, point, exponent) read
    with correct rounding to binary64, as strconv.ParseFloat reads them;
    the other spellings ParseFloat accepts (hexadecimal literals, digit
    separators, Inf and NaN) are not part of this instance and count as
    syntax errors.  [Pow] is defined on the calls the package makes: base
    10 and an integral exponent, rounded correctly. *)
Module Decimal.

Fixpoint readDigits (l : list ascii) (acc : Z) (n : Z)
  : Z * Z * list ascii :=
  match l with
  | c :: r =>
      if Go.isDigit c
      then readDigits r (acc * 10 + (Go.code c - Go.code "0"%char)) (n + 1)
      else (acc, n, l)
  | [] => (acc, n, l)
  end.

Fixpoint readExponent (l : list ascii) (e : Z) : Z * list ascii :=
  match l with
  | c :: r =>
      if Go.isDigit c
      then readExponent r
             (if e <? 10000 then e * 10 + (Go.code c - Go.code "0"%char)
              else e)
      else (e, l)
  | [] => (e, l)
  end.

(** sign, mantissa digits as an integer, decimal exponent *)
Definition readFloat (s : string) : option (bool * Z * Z) :=
  let l := Go.bytes s in
  let '(neg, l) :=
    match l with
    | c :: r =>
        if Ascii.eqb c "-"%char then (true, r)
        else if Ascii.eqb c "+"%char then (false, r)
        else (false, l)
    | [] => (false, l)
    end in
  let '(m1, n1, l) := readDigits l 0 0 in
  let '(m, nfrac, n, l) :=
    match l with
    | c :: r =>
        if Ascii.eqb c "."%char
        then let '(m2, n2, l2) := readDigits r m1 0 in (m2, n2, n1 + n2, l2)
        else (m1, 0, n1, l)
    | [] => (m1, 0, n1, l)
    end in
  if n =? 0 then None
  else
    match l with
    | [] => Some (neg, m, - nfrac)
    | c :: r =>
        if Ascii.eqb c "e"%char || Ascii.eqb c "E"%char then
          let '(eneg, r) :=
            match r with
            | c' :: r' =>
                if Ascii.eqb c' "-"%char then (true, r')
                else if Ascii.eqb c' "+"%char then (false, r')
                else (false, r)
            | [] => (false, r)
            end in
          match r with
          | d :: _ =>
              if Go.isDigit d then
                match readExponent r 0 with
                | (e, []) => Some (neg, m, (if eneg then - e else e) - nfrac)
                | _ => None
                end
              else None
          | [] => None
          end
        else None
    end.

(** The binary64 nearest to [(-1)^neg * m * 10^e10] (ties to even). *)
Definition roundDecimal (neg : bool) (m e10 : Z) : spec_float :=
  if m =? 0 then S754_zero neg
  else
    let sgn := if neg then -1 else 1 in
    if 0 <=? e10 then Go.roundRat (sgn * m * 10 ^ e10) 1
    else Go.roundRat (sgn * m) (10 ^ (- e10)).

Definition ParseFloat (s : string) : float * option Go.NumError :=
  match readFloat s with
  | None => (0%float, Some Go.ErrSyntax)
  | Some (neg, m, e10) =>
      match roundDecimal neg m e10 with
      | S754_infinity sg => (SF2Prim (S754_infinity sg), Some Go.ErrRange)
      | sf => (SF2Prim sf, None)
      end
  end.

Definition Pow (x y : float) : float :=
  if PrimFloat.eqb x 10 then
    match Go.truncFloat y with
    | Some n =>
        if PrimFloat.eqb (Go.floatOfInt n) y then
          if 400 <? n then infinity
          else if n <? -400 then 0%float
          else SF2Prim (roundDecimal false 1 n)
        else nan
    | None => nan
    end
  else nan.

End Decimal.


Definition decimalLib : Go.NumLib :=
  {| Go.ParseFloat := Decimal.ParseFloat; Go.Pow := Decimal.Pow |}.

(** ** sgp4.go: the propagator driver *)

Inductive PropError : Type :=
| ErrInvalidTLEForPropagation
| ErrPropagationFailed
| ErrNilTLE
| ErrInvalidStep.

(** [type GravityModel int]. *)
Definition GravityModel : Type := Z.
Definition GravityWGS72 : GravityModel := 0.
Definition GravityWGS84 : GravityModel := 1.

Record ECIPosition : Type := mkECI {
  eciX : float; eciY : float; eciZ : float;
  eciVx : float; eciVy : float; eciVz : float;
  eciTime : Go.Time
}.

(** The go-satellite library: its gravity constants, its vector type and
    the functions the driver calls.  The SGP4 numerics are not part of
    the repository and stay abstract. *)
Module satellite.

Inductive Gravity : Type := GravityWGS72 | GravityWGS84.

(** Go's [int]. *)
Definition int : Type := BinNums.Z.

Record Vector3 : Type := mkVector3 { X : float; Y : float; Z : float }.

Class Kernel : Type := {
  Satellite : Type;
  TLEToSat : string -> string -> Gravity -> Satellite;
  Propagate : Satellite -> int -> int -> int -> int -> int -> int
              -> Vector3 * Vector3;
  GSTimeFromDate : int -> int -> int -> int -> int -> int -> float;
  JDay : int -> int -> int -> int -> int -> int -> float
}.

End satellite.

(** isNaN: [f != f]. *)
Definition isNaN (f : float) : bool := negb (PrimFloat.eqb f f).

Section Propagator.
Context `{kernel : satellite.Kernel}.

Record Propagator : Type := mkPropagator {
  propTLE : TLE;
  propSatellite : satellite.Satellite;
  propGravity : GravityModel
}.

Definition NewPropagatorWithGravity (tle : option TLE) (gravity : GravityModel)
  : result PropError Propagator :=
  match tle with
  | None => Err ErrNilTLE
  | Some tle =>
      if String.eqb (Line1 tle) "" || String.eqb (Line2 tle) ""
      then Err ErrInvalidTLEForPropagation
      else
        let gravConst :=
          if gravity =? GravityWGS72 then satellite.GravityWGS72
          else if gravity =? GravityWGS84 then satellite.GravityWGS84
          else satellite.GravityWGS84 in
        let sat := satellite.TLEToSat (Line1 tle) (Line2 tle) gravConst in
        Ok {| propTLE := tle; propSatellite := sat; propGravity := gravity |}
  end.

Definition NewPropagator (tle : option TLE) : result PropError Propagator :=
  NewPropagatorWithGravity tle GravityWGS84.

(** The call of the SGP4 kernel made by Propagate at instant [t]. *)
Definition kernelAt (p : Propagator) (t : Go.Time)
  : satellite.Vector3 * satellite.Vector3 :=
  let '(year, month, day) := Go.dateOf t in
  let '(hour, minute, sec) := Go.clockOf t in
  satellite.Propagate (propSatellite p) year month day hour minute sec.

Definition Propagate (p : option Propagator) (t : Go.Time)
  : result PropError ECIPosition :=
  match p with
  | None => Err ErrNilTLE
  | Some p =>
      let '(position, velocity) := kernelAt p t in
      if isNaN (satellite.X position) || isNaN (satellite.Y position)
         || isNaN (satellite.Z position)
      then Err ErrPropagationFailed
      else
        Ok {| eciX := satellite.X position; eciY := satellite.Y position;
              eciZ := satellite.Z position;
              eciVx := satellite.X velocity; eciVy := satellite.Y velocity;
              eciVz := satellite.Z velocity; eciTime := t |}
  end.

(** GMST: the sidereal angle go-satellite computes for the date and
    clock of [t]. *)
Definition GMST (t : Go.Time) : float :=
  let '(year, month, day) := Go.dateOf t in
  let '(hour, minute, sec) := Go.clockOf t in
  satellite.GSTimeFromDate year month day hour minute sec.

End Propagator.


(** ** coordinates.go: frames and transforms *)

(** WGS84 constants; untyped constants of the source are exact rationals
    until they enter a float64 expression. *)
Definition WGS84A : Q := 6378137 # 1000.
Definition WGS84F : Q := 1 / (298257223563 # 1000000000).
Definition WGS84B : Q := WGS84A * (1 - WGS84F).
Definition WGS84E2 : Q := 2 * WGS84F - WGS84F * WGS84F.
Definition WGS84EP2 : Q := WGS84E2 / (1 - WGS84E2).
Definition OmegaEarth : Q := 7292115 # 100000000000.
Definition Deg2Rad : Q := Go.mathPi / 180.
Definition Rad2Deg : Q := 180 / Go.mathPi.

Record ECEFPosition (F : Type) : Type := mkECEF {
  ecefX : F; ecefY : F; ecefZ : F; ecefTime : Go.Time
}.
Arguments mkECEF {F}.
Arguments ecefX {F}.
Arguments ecefY {F}.
Arguments ecefZ {F}.
Arguments ecefTime {F}.

Record LLA (F : Type) : Type := mkLLA { Lat : F; Lon : F; Alt : F }.
Arguments mkLLA {F}.
Arguments Lat {F}.
Arguments Lon {F}.
Arguments Alt {F}.

Record AER (F : Type) : Type := mkAER { Az : F; El : F; Range : F }.
Arguments mkAER {F}.
Arguments Az {F}.
Arguments El {F}.
Arguments Range {F}.

(** The arithmetic ECEFToAER is written in.  It has two readings: the
    float64 one of the running program ([floatArith]) and the exact one
    over the reals ([realArith]), in which the specification states the
    ranges of azimuth, elevation and range. *)
Class Arith (F : Type) : Type := {
  fadd : F -> F -> F;
  fsub : F -> F -> F;
  fmul : F -> F -> F;
  fdiv : F -> F -> F;
  fneg : F -> F;
  fsqrt : F -> F;
  fsin : F -> F;
  fcos : F -> F;
  fasin : F -> F;
  fatan2 : F -> F -> F;
  fltb : F -> F -> bool;
  fconst : Q -> F;
  fpi : F
}.

Declare Scope arith_scope.
Delimit Scope arith_scope with ar.
Infix "+" := fadd : arith_scope.
Infix "-" := fsub : arith_scope.
Infix "*" := fmul : arith_scope.
Infix "/" := fdiv : arith_scope.
Notation "- x" := (fneg x) : arith_scope.

Section AER.
Context {F : Type} `{ar : Arith F}.

Definition ECEFToAER (satECEF obsECEF : option (ECEFPosition F))
           (obsLLA : option (LLA F)) : option (AER F) :=
  match satECEF, obsECEF, obsLLA with
  | Some satECEF, Some obsECEF, Some obsLLA =>
      let dx := (ecefX satECEF - ecefX obsECEF)%ar in
      let dy := (ecefY satECEF - ecefY obsECEF)%ar in
      let dz := (ecefZ satECEF - ecefZ obsECEF)%ar in
      let rng := fsqrt (dx * dx + dy * dy + dz * dz)%ar in
      let sinLat := fsin (Lat obsLLA) in
      let cosLat := fcos (Lat obsLLA) in
      let sinLon := fsin (Lon obsLLA) in
      let cosLon := fcos (Lon obsLLA) in
      let e := (- sinLon * dx + cosLon * dy)%ar in
      let n := (- sinLat * cosLon * dx - sinLat * sinLon * dy
                + cosLat * dz)%ar in
      let u := (cosLat * cosLon * dx + cosLat * sinLon * dy
                + sinLat * dz)%ar in
      let el := fasin (u / rng)%ar in
      let az := fatan2 e n in
      let az := if fltb az (fconst 0) then (az + fconst 2 * fpi)%ar else az in
      Some {| Az := az; El := el; Range := rng |}
  | _, _, _ => None
  end.

End AER.

(** The float64 reading. *)
#[global] Instance floatArith `{trig : Go.TrigLib} : Arith float :=
  {| fadd := PrimFloat.add; fsub := PrimFloat.sub; fmul := PrimFloat.mul;
     fdiv := PrimFloat.div; fneg := PrimFloat.opp; fsqrt := PrimFloat.sqrt;
     fsin := Go.Sin; fcos := Go.Cos; fasin := Go.Asin; fatan2 := Go.Atan2;
     fltb := PrimFloat.ltb; fconst := Go.constFloat;
     fpi := Go.constFloat Go.mathPi |}.

(** The exact reading: real arithmetic, with math.Atan2 as Go defines it
    from the arc tangent. *)
Definition Ratan2 (y x : R) : R :=
  if Rlt_dec 0 x then atan (y / x)
  else if Rlt_dec x 0 then
    (if Rle_dec (atan (y / x)) 0 then atan (y / x) + PI else atan (y / x) - PI)
  else if Rlt_dec 0 y then PI / 2
  else if Rlt_dec y 0 then - (PI / 2)
  else 0%R.

#[global] Instance realArith : Arith R :=
  {| fadd := Rplus; fsub := Rminus; fmul := Rmult; fdiv := Rdiv;
     fneg := Ropp; fsqrt := sqrt; fsin := sin; fcos := cos; fasin := asin;
     fatan2 := Ratan2;
     fltb := fun x y => if Rlt_dec x y then true else false;
     fconst := Q2R; fpi := PI |}.

Section Coordinates.
Context `{trig : Go.TrigLib} `{kernel : satellite.Kernel}.

(** ECIToECEF on a non-nil position: rotation about Z by GMST. *)
Definition eciToECEF (eci : ECIPosition) : ECEFPosition float :=
  let gmst := GMST (eciTime eci) in
  let cosGMST := Go.Cos gmst in
  let sinGMST := Go.Sin gmst in
  {| ecefX := (eciX eci * cosGMST + eciY eci * sinGMST)%float;
     ecefY := (- eciX eci * sinGMST + eciY eci * cosGMST)%float;
     ecefZ := eciZ eci;
     ecefTime := eciTime eci |}.

Definition ECIToECEF (eci : option ECIPosition) : option (ECEFPosition float) :=
  match eci with
  | None => None
  | Some eci => Some (eciToECEF eci)
  end.

Definition radiusOfCurvature (sinLat : float) : float :=
  (Go.constFloat WGS84A
   / PrimFloat.sqrt (1 - Go.constFloat WGS84E2 * sinLat * sinLat))%float.

(** The Bowring loop: at most [n] more iterations, leaving at the first
    step smaller than the tolerance. *)
Fixpoint bowring (n : nat) (z p lat : float) : float :=
  match n with
  | O => lat
  | S n' =>
      let sinLat := Go.Sin lat in
      let radiusN := radiusOfCurvature sinLat in
      let latNew :=
        Go.Atan2 (z + Go.constFloat WGS84E2 * radiusN * sinLat)%float p in
      if (PrimFloat.abs (latNew - lat) <? Go.constFloat (1 # 10 ^ 12))%float
      then latNew
      else bowring n' z p latNew
  end.

Definition ecefToLLA (ecef : ECEFPosition float) : LLA float :=
  let x := ecefX ecef in
  let y := ecefY ecef in
  let z := ecefZ ecef in
  let lon := Go.Atan2 y x in
  let p := PrimFloat.sqrt (x * x + y * y)%float in
  let lat := Go.Atan2 z (p * Go.constFloat (1 - WGS84E2))%float in
  let lat := bowring 10 z p lat in
  let sinLat := Go.Sin lat in
  let cosLat := Go.Cos lat in
  let radiusN := radiusOfCurvature sinLat in
  let alt :=
    if (Go.constFloat (1 # 10 ^ 10) <? PrimFloat.abs cosLat)%float
    then (p / cosLat - radiusN)%float
    else (PrimFloat.abs z / PrimFloat.abs sinLat
          - radiusN * Go.constFloat (1 - WGS84E2))%float in
  {| Lat := lat; Lon := lon; Alt := alt |}.

Definition ECEFToLLA (ecef : option (ECEFPosition float)) : option (LLA float) :=
  match ecef with
  | None => None
  | Some ecef => Some (ecefToLLA ecef)
  end.

Definition LatDeg (lla : LLA float) : float :=
  (Lat lla * Go.constFloat Rad2Deg)%float.

Definition LonDeg (lla : LLA float) : float :=
  (Lon lla * Go.constFloat Rad2Deg)%float.

End Coordinates.

(** ** ground_track.go *)

Inductive TrackError : Type :=
| ErrNilTLEForTrack
| ErrInvalidStepTrack
| ErrInvalidRange
| ErrCreatingPropagator (e : PropError)
| ErrPropagationAt (t : Go.Time) (e : PropError).

Definition geoMeanMotionThreshold : Q := 1 # 10.
Definition antimeridianThreshold : Q := 270.

Record TrackPoint : Type := mkTrackPoint {
  tpLon : float;
  tpLat : float;
  TS : Z
}.

(** [unsafe.Sizeof(TrackPoint{})]: two float64 and an int64. *)
Definition trackPointSize : Z := 24.

Record GroundTrack : Type := mkGroundTrack {
  Past : list (list TrackPoint);
  Future : list (list TrackPoint);
  gtNoradID : Z
}.

Definition IsGeostationary (tle : option TLE) : bool :=
  match tle with
  | None => false
  | Some tle =>
      (PrimFloat.abs (MeanMotion tle - 1) <?
       Go.constFloat geoMeanMotionThreshold)%float
  end.

(** interpolateAntimeridian: the two points on the +-180 boundary between
    [p1] and [p2]. *)
Definition interpolateAntimeridian (p1 p2 : TrackPoint)
  : TrackPoint * TrackPoint :=
  let '(boundaryLon1, boundaryLon2) :=
    if (0 <? tpLon p1)%float then (180%float, (-180)%float)
    else ((-180)%float, 180%float) in
  let p2LonUnwrapped :=
    if (0 <? tpLon p1)%float then (tpLon p2 + 360)%float
    else (tpLon p2 - 360)%float in
  let dLon := (p2LonUnwrapped - tpLon p1)%float in
  let t :=
    if (Go.constFloat (1 # 10 ^ 10) <? PrimFloat.abs dLon)%float
    then ((boundaryLon1 - tpLon p1) / dLon)%float
    else 0.5%float in
  let t := Go.Max 0 (Go.Min 1 t) in
  let interpLat := (tpLat p1 + (tpLat p2 - tpLat p1) * t)%float in
  let interpTS :=
    Go.wrap64
      (TS p1
       + Go.int64OfFloat (Go.floatOfInt (Go.wrap64 (TS p2 - TS p1)) * t)%float) in
  ({| tpLon := boundaryLon1; tpLat := interpLat; TS := interpTS |},
   {| tpLon := boundaryLon2; tpLat := interpLat; TS := interpTS |}).

(** Whether the step from longitude [prevLon] to [currLon] crosses the
    antimeridian: a jump of more than 270 degrees. *)
Definition crossesAntimeridian (prevLon currLon : float) : bool :=
  (Go.constFloat antimeridianThreshold <? PrimFloat.abs (currLon - prevLon))%float.

(** The loop of splitAtAntimeridian from index [i] on: [prev] is
    [points[i-1]], [rest] is [points[i:]]. *)
Fixpoint splitLoop (prev : TrackPoint) (rest : list TrackPoint)
         (segments : list (list TrackPoint)) (currentSeg : list TrackPoint)
  : list (list TrackPoint) :=
  match rest with
  | [] =>
      if (0 <? List.length currentSeg)%nat
      then (segments ++ [currentSeg])%list else segments
  | curr :: rest' =>
      if crossesAntimeridian (tpLon prev) (tpLon curr) then
        let '(boundaryPrev, boundaryNext) := interpolateAntimeridian prev curr in
        let currentSeg := (currentSeg ++ [boundaryPrev])%list in
        let segments := (segments ++ [currentSeg])%list in
        splitLoop curr rest' segments [boundaryNext; curr]
      else splitLoop curr rest' segments (currentSeg ++ [curr])%list
  end.

Definition splitAtAntimeridian (points : list TrackPoint)
  : list (list TrackPoint) :=
  match points with
  | [] => []
  | p0 :: rest => splitLoop p0 rest [] [p0]
  end.

(** The index of the first point of [seg] with [TS >= nowMs], -1 when
    there is none. *)
Fixpoint findSplitIdx (seg : list TrackPoint) (nowMs : Z) (i : Z) : Z :=
  match seg with
  | [] => -1
  | p :: r => if nowMs <=? TS p then i else findSplitIdx r nowMs (i + 1)
  end.

Definition lastTS (seg : list TrackPoint) : Z :=
  TS (List.last seg {| tpLon := 0; tpLat := 0; TS := 0 |}).

Definition firstTS (seg : list TrackPoint) : Z :=
  TS (List.hd {| tpLon := 0; tpLat := 0; TS := 0 |} seg).

(** One iteration of the loop of splitPastFuture. *)
Definition splitSegment (seg : list TrackPoint) (nowMs : Z)
           (acc : list (list TrackPoint) * list (list TrackPoint))
  : list (list TrackPoint) * list (list TrackPoint) :=
  let '(past, future) := acc in
  if (List.length seg =? 0)%nat then (past, future)
  else if lastTS seg <? nowMs then ((past ++ [seg])%list, future)
  else if nowMs <=? firstTS seg then (past, (future ++ [seg])%list)
  else
    let splitIdx := findSplitIdx seg nowMs 0 in
    if splitIdx <=? 0 then (past, (future ++ [seg])%list)
    else
      let pastPart := firstn (Z.to_nat splitIdx) seg in
      let past :=
        if (0 <? List.length pastPart)%nat
        then (past ++ [pastPart])%list else past in
      let futurePart := skipn (Z.to_nat splitIdx) seg in
      let future :=
        if (0 <? List.length futurePart)%nat
        then (future ++ [futurePart])%list else future in
      (past, future).

Definition splitPastFuture (segments : list (list TrackPoint)) (nowMs : Z)
  : list (list TrackPoint) * list (list TrackPoint) :=
  fold_left (fun acc seg => splitSegment seg nowMs acc) segments ([], []).

Section GroundTrack.
Context `{trig : Go.TrigLib} `{kernel : satellite.Kernel}.

(** The point recorded for a propagated position. *)
Definition trackPointOf (eci : ECIPosition) (t : Go.Time) : TrackPoint :=
  let ecef := eciToECEF eci in
  let lla := ecefToLLA ecef in
  {| tpLon := LonDeg lla; tpLat := LatDeg lla; TS := Go.UnixMilli t |}.

(** The loop of generateTrackPoints from instant [t] on.  [fuel] bounds
    the iterations; [None] is the loop still running when the fuel is
    spent. *)
Fixpoint trackLoop (fuel : nat) (prop : Propagator) (t end_ : Go.Time)
         (step : Go.Duration) (points : list TrackPoint)
  : option (result TrackError (list TrackPoint)) :=
  match fuel with
  | O => None
  | S fuel' =>
      if Go.timeAfter t end_ then Some (Ok points)
      else
        match Propagate (Some prop) t with
        | Err err =>
            if (0 <? List.length points)%nat then Some (Ok points)
            else Some (Err (ErrPropagationAt t err))
        | Ok eci =>
            trackLoop fuel' prop (Go.timeAdd t step) end_ step
                      (points ++ [trackPointOf eci t])%list
        end
  end.

(** Iterations that exhaust the interval when [step > 0]: one per
    sample and one for the exit test. *)
Definition trackFuel (start end_ : Go.Time) (step : Go.Duration) : nat :=
  Z.to_nat ((end_ - start) / step + 2).

(** [int(end.Sub(start)/step) + 1], the capacity generateTrackPoints
    asks of make. *)
Definition estimatedPoints (start end_ : Go.Time) (step : Go.Duration) : Z :=
  Go.wrap64 (Z.quot (Go.timeSub end_ start) step + 1).

(** generateTrackPoints.  [None] is a call that returns nothing: the
    division by a zero step or make panics, or the loop is still running
    when the fuel is spent. *)
Definition generateTrackPoints (prop : Propagator) (start end_ : Go.Time)
           (step : Go.Duration)
  : option (result TrackError (list TrackPoint)) :=
  if step =? 0 then None
  else if Go.makeslicePanics trackPointSize (estimatedPoints start end_ step)
  then None
  else trackLoop (trackFuel start end_ step) prop start end_ step [].

Definition GenerateGroundTrack (tle : option TLE) (start end_ now : Go.Time)
           (step : Go.Duration)
  : option (result TrackError GroundTrack) :=
  match tle with
  | None => Some (Err ErrNilTLEForTrack)
  | Some tle_ =>
      if step <=? 0 then Some (Err ErrInvalidStepTrack)
      else if Go.timeEqual start end_ then Some (Err ErrInvalidRange)
      else
        let '(start, end_) :=
          if Go.timeBefore end_ start then (end_, start) else (start, end_) in
        match NewPropagator tle with
        | Err err => Some (Err (ErrCreatingPropagator err))
        | Ok prop =>
            match generateTrackPoints prop start end_ step with
            | None => None
            | Some (Err err) => Some (Err err)
            | Some (Ok allPoints) =>
                if (List.length allPoints =? 0)%nat then
                  Some (Ok {| Past := []; Future := [];
                              gtNoradID := NoradID tle_ |})
                else
                  let segments := splitAtAntimeridian allPoints in
                  let nowMs := Go.UnixMilli now in
                  let '(past, future) := splitPastFuture segments nowMs in
                  Some (Ok {| Past := past; Future := future;
                              gtNoradID := NoradID tle_ |})
            end
        end
  end.

End GroundTrack.

(** ** celestrak.go: the upstream client *)

(** What doRequest can fail with. *)
Inductive RequestError : Type :=
| ErrCelestrakNotFound
| ErrCelestrakRateLimit
| ErrCelestrakServerError (status : Z)
| ErrUnexpectedStatus (status : Z)
| ErrCreatingRequest
| ErrExecutingRequest
| ErrReadingResponse.

(** What a fetch can fail with: an error of doRequest returned as it is,
    the error of the context, the last error once the retries are used up
    ([None] when no request was made), or a batch that does not parse. *)
Inductive FetchError : Type :=
| ErrRequest (e : RequestError)
| ErrContext
| ErrAfterRetries (maxRetries : Z) (lastErr : option RequestError)
| ErrParsingTLE (e : TLEError).

Definition DefaultMaxRetries : Z := 3.

(** What one HTTP exchange can come to: the request cannot be built, the
    transport fails (network error, timeout, cancelled context), or a
    response arrives with a status and a body ([None] when reading the
    body fails). *)
Inductive Exchange : Type :=
| BadRequest
| TransportFailure
| Response (status : Z) (body : option string).

(** The environment of one fetch: the outcome of its k-th request
    (k = 0, 1, ...) and whether the context is done before the timer of
    the backoff that precedes request k. *)
Record Upstream : Type := mkUpstream {
  exchange : Z -> Exchange;
  ctxDone : Z -> bool
}.

(** What a fetch does, in order. *)
Inductive Event : Type :=
| EvRateLimitWait
| EvSleep (d : Go.Duration)
| EvRequest (attempt : Z).

Record CelestrakClient : Type := mkClient {
  maxRetries : Z
}.

Definition StatusOK : Z := 200.
Definition StatusNotFound : Z := 404.
Definition StatusTooManyRequests : Z := 429.

(** doRequest, on the outcome of the exchange it performs. *)
Definition doRequest (x : Exchange) : result RequestError string :=
  match x with
  | BadRequest => Err ErrCreatingRequest
  | TransportFailure => Err ErrExecutingRequest
  | Response status body =>
      if status =? StatusOK then
        match body with
        | None => Err ErrReadingResponse
        | Some body =>
            if String.eqb body "No GP data found" then Err ErrCelestrakNotFound
            else Ok body
        end
      else if status =? StatusNotFound then Err ErrCelestrakNotFound
      else if status =? StatusTooManyRequests then Err ErrCelestrakRateLimit
      else if 500 <=? status then Err (ErrCelestrakServerError status)
      else Err (ErrUnexpectedStatus status)
  end.

(** [1 << k] on an int64, [k >= 0]. *)
Definition shl1 (k : Z) : Z := if k <? 64 then Go.wrap64 (2 ^ k) else 0.

(** [time.Duration(1<<uint(attempt-1)) * time.Second]. *)
Definition backoff (attempt : Z) : Go.Duration :=
  Go.wrap64 (shl1 (attempt - 1) * Go.Second).

Definition isNotFound (e : RequestError) : bool :=
  match e with ErrCelestrakNotFound => true | _ => false end.

(** The retry loop of fetch with [remaining] iterations left, i.e.
    [remaining = maxRetries - attempt + 1] while [attempt <= maxRetries]. *)
Fixpoint fetchLoop (c : CelestrakClient) (up : Upstream) (remaining : nat)
         (attempt : Z) (lastErr : option RequestError)
  : result FetchError string * list Event :=
  match remaining with
  | O => (Err (ErrAfterRetries (maxRetries c) lastErr), [])
  | S remaining' =>
      if (0 <? attempt) && ctxDone up attempt then (Err ErrContext, [])
      else
        let slept := if 0 <? attempt then [EvSleep (backoff attempt)] else [] in
        match doRequest (exchange up attempt) with
        | Ok data => (Ok data, (slept ++ [EvRequest attempt])%list)
        | Err err =>
            if isNotFound err
            then (Err (ErrRequest err), (slept ++ [EvRequest attempt])%list)
            else
              let '(r, evs) :=
                fetchLoop c up remaining' (attempt + 1) (Some err) in
              (r, (slept ++ EvRequest attempt :: evs)%list)
        end
  end.

Definition fetch (c : CelestrakClient) (up : Upstream)
  : result FetchError string * list Event :=
  let '(r, evs) := fetchLoop c up (Z.to_nat (maxRetries c + 1)) 0 None in
  (r, EvRateLimitWait :: evs).

(** The number of HTTP attempts in a run. *)
Definition requests (evs : list Event) : nat :=
  List.length (List.filter (fun e => match e with EvRequest _ => true | _ => false end) evs).

Section FetchGroup.
Context `{lib : Go.NumLib}.

Definition FetchGroup (c : CelestrakClient) (up : Upstream)
  : result FetchError (list TLE) * list Event :=
  match fetch c up with
  | (Err err, evs) => (Err err, evs)
  | (Ok data, evs) =>
      match ParseTLEBatch data with
      | Err err => (Err (ErrParsingTLE err), evs)
      | Ok tles => (Ok tles, evs)
      end
  end.

End FetchGroup.

(** ** tle_store.go: the catalog *)

Module Unicode.
(** strings.ToLower; it maps by Unicode case tables, which are not part
    of this development. *)
Class Case : Type := { ToLower : string -> string }.

(** Its restriction to ASCII letters, exact on ASCII strings. *)
Definition asciiLower (c : ascii) : ascii :=
  if (Go.code "A"%char <=? Go.code c) && (Go.code c <=? Go.code "Z"%char)
  then ascii_of_N (N_of_ascii c + 32) else c.

Definition asciiToLower (s : string) : string :=
  Go.ofBytes (List.map asciiLower (Go.bytes s)).
End Unicode.

Definition asciiCase : Unicode.Case :=
  {| Unicode.ToLower := Unicode.asciiToLower |}.

Inductive StoreError : Type :=
| ErrLoadGroupFailed.

Record TLEStoreConfig : Type := mkConfig {
  Groups : list string;
  UpdateInterval : Go.Duration;
  CacheDir : string;
  MaxTLEAgeDays : float;
  EnableMetadata : bool
}.

Record TLEStore : Type := mkStore {
  catalog : gmap Z TLE;
  byGroup : gmap string (list Z);
  byName : gmap string (list Z)
}.

Definition NewTLEStore : TLEStore :=
  {| catalog := ∅; byGroup := ∅; byName := ∅ |}.

Record CacheGroupMeta : Type := mkGroupMeta {
  UpdatedAt : Go.Time;
  metaCount : Z
}.

(** The file cache: the files of the cache directory by path, and the
    decoded content of cache_meta.json. *)
Record Cache : Type := mkCache {
  files : gmap string string;
  cacheMeta : gmap string CacheGroupMeta
}.

Inductive Level : Type := Debug | Info | Warn.

Definition LogRecord : Type := (Level * string)%type.

Definition cacheMetaFilename : string := "cache_meta.json".
Definition tleCacheExtension : string := ".tle".

(** slices.Contains *)
Fixpoint Contains (ids : list Z) (id : Z) : bool :=
  match ids with
  | [] => false
  | x :: r => (x =? id) || Contains r id
  end.

(** addToIndex: append unless the ID is there already. *)
Definition addToIndex (index : gmap string (list Z)) (key : string) (id : Z)
  : gmap string (list Z) :=
  let ids := default [] (index !! key) in
  if Contains ids id then index
  else <[key := (ids ++ [id])%list]> index.

(** [String()] of a record: the 3-line text, or 2 lines without a name. *)
Definition TLEString (tle : TLE) : string :=
  if negb (String.eqb (Name tle) "")
  then Name tle ++ String Go.newline (Line1 tle ++ String Go.newline (Line2 tle))
  else Line1 tle ++ String Go.newline (Line2 tle).

Section Store.
Context `{lib : Go.NumLib} `{uc : Unicode.Case}.

Definition addInternal (s : TLEStore) (tle : option TLE) (group : string)
  : TLEStore :=
  match tle with
  | None => s
  | Some tle =>
      let catalog := <[NoradID tle := tle]> (catalog s) in
      let byGroup :=
        if negb (String.eqb group "")
        then addToIndex (byGroup s) (Unicode.ToLower group) (NoradID tle)
        else byGroup s in
      let byName :=
        if negb (String.eqb (Name tle) "")
        then addToIndex (byName s) (Unicode.ToLower (Name tle)) (NoradID tle)
        else byName s in
      {| catalog := catalog; byGroup := byGroup; byName := byName |}
  end.

Definition Add (s : TLEStore) (tle : option TLE) : TLEStore :=
  addInternal s tle "".

Definition AddWithGroup (s : TLEStore) (tle : option TLE) (group : string)
  : TLEStore :=
  addInternal s tle group.

Definition Get (s : TLEStore) (noradID : Z) : option TLE :=
  catalog s !! noradID.

Definition Count (s : TLEStore) : nat := size (catalog s).

Definition GroupCount (s : TLEStore) (group : string) : nat :=
  List.length (default [] (byGroup s !! Unicode.ToLower group)).

Definition GetByGroup (s : TLEStore) (group : string) : list TLE :=
  match byGroup s !! Unicode.ToLower group with
  | None => []
  | Some ids => omap (fun id => catalog s !! id) ids
  end.

(** filepath.Join(CacheDir, lower(group) + ".tle") *)
Definition cachePath (cfg : TLEStoreConfig) (group : string) : string :=
  CacheDir cfg ++ "/" ++ Unicode.ToLower group ++ tleCacheExtension.

Definition loadGroupFromCache (cfg : TLEStoreConfig) (cache : Cache)
           (group : string) : result (option TLEError) (list TLE) :=
  match files cache !! cachePath cfg group with
  | None => Err None
  | Some data =>
      match ParseTLEBatch data with
      | Err err => Err (Some err)
      | Ok tles => Ok tles
      end
  end.

Definition saveGroupToCache (cfg : TLEStoreConfig) (cache : Cache)
           (now : Go.Time) (group : string) (tles : list TLE) : Cache :=
  let content :=
    fold_left (fun b tle => b ++ TLEString tle ++ String Go.newline "")
              tles "" in
  {| files := <[cachePath cfg group := content]> (files cache);
     cacheMeta :=
       <[Unicode.ToLower group :=
           {| UpdatedAt := now; metaCount := Z.of_nat (List.length tles) |}]>
         (cacheMeta cache) |}.

(** LoadGroup: Celestrak first, the file cache when that fails; the
    records of the batch are then added under the store lock. *)
Definition LoadGroup (cfg : TLEStoreConfig) (c : CelestrakClient)
           (up : Upstream) (now : Go.Time) (s : TLEStore) (cache : Cache)
           (group : string)
  : TLEStore * Cache * list LogRecord * result StoreError unit :=
  let log0 := [(Debug, "loading TLE group")] in
  match fst (FetchGroup c up) with
  | Err _ =>
      let log1 :=
        (log0 ++ [(Warn, "failed to fetch from Celestrak, trying cache")])%list in
      match loadGroupFromCache cfg cache group with
      | Err _ =>
          (s, cache, (log1 ++ [(Warn, "failed to load from cache")])%list,
           Err ErrLoadGroupFailed)
      | Ok tles =>
          let s' := fold_left (fun st tle => addInternal st (Some tle) group)
                              tles s in
          (s', cache,
           (log1 ++ [(Info, "loaded TLE group from cache")])%list, Ok tt)
      end
  | Ok tles =>
      let cache' := saveGroupToCache cfg cache now group tles in
      let s' := fold_left (fun st tle => addInternal st (Some tle) group)
                          tles s in
      (s', cache',
       (log0 ++ [(Info, "loaded TLE group from Celestrak")])%list, Ok tt)
  end.

End Store.

(** * The vocabulary of the specification *)

(** ** The Modulo-10 checksum and catalog numbers *)

(** What a character contributes to the sum: a digit its value, the minus
    sign 1, anything else 0. *)
Definition contribution (c : ascii) : Z :=
  if Go.isDigit c then Go.code c - Go.code "0"%char
  else if Ascii.eqb c "-"%char then 1
  else 0.

Definition modulo10 (s : string) : Z :=
  (fold_right Z.add 0 (List.map contribution (Go.bytes s))) mod 10.

(** A character read as a decimal digit. *)
Definition digitOf (c : ascii) : option Z :=
  if Go.isDigit c then Some (Go.code c - Go.code "0"%char) else None.

(** The value of a run of decimal digits, most significant first. *)
Definition decimalValue (l : list ascii) : Z :=
  fold_left (fun n c => n * 10 + (Go.code c - Go.code "0"%char)) l 0.

Definition allDigits (s : string) : bool := forallb Go.isDigit (Go.bytes s).

(** ** Batches *)

(** The buffer holds a record: 2 lines beginning with 1 and 2, or 3 lines
    whose first begins with neither. *)
Definition completeRecord (buffer : list string) : bool :=
  match buffer with
  | [l1; l2] =>
      Ascii.eqb (Go.at_ l1 0) "1"%char && Ascii.eqb (Go.at_ l2 0) "2"%char
  | [l0; _; _] =>
      negb (Ascii.eqb (Go.at_ l0 0) "1"%char)
      && negb (Ascii.eqb (Go.at_ l0 0) "2"%char)
  | _ => false
  end.

(** The records of a batch: non-empty lines are accumulated, a complete
    record is emitted and the buffer reset; a blank line, and the end of
    the input, flush a buffer of two lines or more. *)
Fixpoint recordsLoop (lines buffer : list string) : list (list string) :=
  match lines with
  | [] => if (2 <=? List.length buffer)%nat then [buffer] else []
  | line :: rest =>
      if String.eqb (Go.TrimSpace line) "" then
        if (2 <=? List.length buffer)%nat
        then buffer :: recordsLoop rest []
        else recordsLoop rest buffer
      else
        if completeRecord (buffer ++ [Go.TrimSpace line])
        then (buffer ++ [Go.TrimSpace line])%list :: recordsLoop rest []
        else recordsLoop rest (buffer ++ [Go.TrimSpace line])
  end.

Definition batchRecords (data : string) : list (list string) :=
  recordsLoop (Go.SplitLines data) [].

Section BatchVocabulary.
Context `{lib : Go.NumLib} `{uc : Unicode.Case}.

(** Every record parsed, in order, up to the first that fails. *)
Fixpoint parseAll (records : list (list string))
  : result TLEError (list TLE) :=
  match records with
  | [] => Ok []
  | r :: rest =>
      let* tle := ParseTLE r in
      let* tles := parseAll rest in
      Ok (tle :: tles)
  end.

(** What loading a group from the cache does with a batch: the batch is
    the sequence of its records parsed in order; one record that does
    not parse fails the load, the store is left as it was and a warning
    is logged; when all parse, all are added. *)
Definition allOrNothing (cfg : TLEStoreConfig) (c : CelestrakClient)
           (up : Upstream) (now : Go.Time) (s : TLEStore) (cache : Cache)
           (group data : string) : Prop :=
  ParseTLEBatch data = parseAll (batchRecords data)
  /\ (forall record e,
        In record (batchRecords data) -> ParseTLE record = Err e ->
        exists log,
          LoadGroup cfg c up now s cache group
          = (s, cache, log, Err ErrLoadGroupFailed)
          /\ In (Warn, "failed to load from cache") log)
  /\ (forall tles,
        parseAll (batchRecords data) = Ok tles ->
        exists log,
          LoadGroup cfg c up now s cache group
          = (fold_left (fun st tle => addInternal st (Some tle) group) tles s,
             cache, log, Ok tt)
          /\ List.length tles = List.length (batchRecords data)).

End BatchVocabulary.

(** ** The propagator *)

Definition positionHasNaN (v : satellite.Vector3) : bool :=
  is_nan (satellite.X v) || is_nan (satellite.Y v) || is_nan (satellite.Z v).

(** ** The antimeridian split *)

(** [c] put in front of the first segment. *)
Definition prependTo (c : list TrackPoint) (segs : list (list TrackPoint))
  : list (list TrackPoint) :=
  match segs with
  | [] => []
  | first :: others => (c ++ first)%list :: others
  end.

(** The side of the boundary [p1] is on, and the other side. *)
Definition boundaryLon (p1 : TrackPoint) : float :=
  if (0 <? tpLon p1)%float then 180%float else (-180)%float.

Definition oppositeBoundaryLon (p1 : TrackPoint) : float :=
  if (0 <? tpLon p1)%float then (-180)%float else 180%float.

(** The longitude of the far-side point [p2] made continuous with [p1]:
    360 degrees added or subtracted. *)
Definition unwrappedLon (p1 p2 : TrackPoint) : float :=
  if (0 <? tpLon p1)%float then (tpLon p2 + 360)%float
  else (tpLon p2 - 360)%float.

(** The linear parameter of the crossing between [p1] and the unwrapped
    [p2], kept in [0, 1]; one half when the two longitudes coincide. *)
Definition crossingParameter (p1 p2 : TrackPoint) : float :=
  let dLon := (unwrappedLon p1 p2 - tpLon p1)%float in
  Go.Max 0 (Go.Min 1
    (if (Go.constFloat (1 # 10 ^ 10) <? PrimFloat.abs dLon)%float
     then ((boundaryLon p1 - tpLon p1) / dLon)%float
     else 0.5%float)).

Definition interpolatedLat (p1 p2 : TrackPoint) : float :=
  (tpLat p1 + (tpLat p2 - tpLat p1) * crossingParameter p1 p2)%float.

Definition interpolatedTS (p1 p2 : TrackPoint) : Z :=
  Go.wrap64
    (TS p1 + Go.int64OfFloat
               (Go.floatOfInt (Go.wrap64 (TS p2 - TS p1))
                * crossingParameter p1 p2)%float).

(** The two boundary points of the crossing between [p1] and [p2]. *)
Definition outgoingBoundary (p1 p2 : TrackPoint) : TrackPoint :=
  {| tpLon := boundaryLon p1; tpLat := interpolatedLat p1 p2;
     TS := interpolatedTS p1 p2 |}.

Definition incomingBoundary (p1 p2 : TrackPoint) : TrackPoint :=
  {| tpLon := oppositeBoundaryLon p1; tpLat := interpolatedLat p1 p2;
     TS := interpolatedTS p1 p2 |}.

(** The points of a list in their order, with the two boundary points
    between the points of each crossing. *)
Fixpoint withBoundariesFrom (prev : TrackPoint) (rest : list TrackPoint)
  : list TrackPoint :=
  match rest with
  | [] => []
  | curr :: rest' =>
      ((if crossesAntimeridian (tpLon prev) (tpLon curr)
        then [outgoingBoundary prev curr; incomingBoundary prev curr]
        else [])
       ++ curr :: withBoundariesFrom curr rest')%list
  end.

Definition withBoundaries (points : list TrackPoint) : list TrackPoint :=
  match points with
  | [] => []
  | p0 :: rest => p0 :: withBoundariesFrom p0 rest
  end.

(** What the split does at a crossing between [p1] and [p2]: the segment
    open at [p1] closes on the outgoing boundary point, the next one
    opens at the incoming boundary point and goes on with [p2]; the two
    boundary points share latitude and timestamp. *)
Definition crossingSplit (pre : list TrackPoint) (p1 p2 : TrackPoint)
           (post : list TrackPoint) : Prop :=
  exists segsL lastL firstR segsR outB inB,
    splitAtAntimeridian (pre ++ [p1]) = (segsL ++ [lastL ++ [p1]])%list
    /\ splitAtAntimeridian (p2 :: post) = (p2 :: firstR) :: segsR
    /\ splitAtAntimeridian (pre ++ p1 :: p2 :: post)
       = (segsL ++ [lastL ++ [p1; outB]] ++ [inB :: p2 :: firstR] ++ segsR)%list
    /\ tpLon outB = boundaryLon p1
    /\ tpLon inB = oppositeBoundaryLon p1
    /\ tpLat outB = interpolatedLat p1 p2
    /\ tpLat inB = interpolatedLat p1 p2
    /\ TS outB = interpolatedTS p1 p2
    /\ TS inB = interpolatedTS p1 p2.

(** ** Past and future *)

(** A segment whose timestamps never decrease. *)
Definition nonDecreasing (seg : list TrackPoint) : Prop :=
  Sorted (fun p q => TS p <= TS q) seg.

Definition allBefore (nowMs : Z) (seg : list TrackPoint) : Prop :=
  Forall (fun p => TS p < nowMs) seg.

Definition allFrom (nowMs : Z) (seg : list TrackPoint) : Prop :=
  Forall (fun p => nowMs <= TS p) seg.

(** [k] is the index of the first point of [seg] at or after [nowMs]. *)
Definition firstAtOrAfter (nowMs : Z) (seg : list TrackPoint) (k : nat) : Prop :=
  allBefore nowMs (firstn k seg)
  /\ exists p rest, skipn k seg = p :: rest /\ nowMs <= TS p.

(** What one segment adds to each side. *)
Definition pastOf (nowMs : Z) (seg : list TrackPoint) : list (list TrackPoint) :=
  fst (splitSegment seg nowMs ([], [])).

Definition futureOf (nowMs : Z) (seg : list TrackPoint) : list (list TrackPoint) :=
  snd (splitSegment seg nowMs ([], [])).

(** What the specification asks of the two sides: past points are before
    [nowMs]; a future segment starts, and stays, at or after it; a
    segment with points on both sides is cut at its first point at or
    after [nowMs]. *)
Definition noStraddle (segments : list (list TrackPoint)) (nowMs : Z) : Prop :=
  let past := fst (splitPastFuture segments nowMs) in
  let future := snd (splitPastFuture segments nowMs) in
  (forall seg, In seg past -> allBefore nowMs seg)
  /\ (forall seg, In seg future ->
        (exists p rest, seg = p :: rest /\ nowMs <= TS p) /\ allFrom nowMs seg)
  /\ (forall seg, In seg segments ->
        (exists p, In p seg /\ TS p < nowMs) ->
        (exists q, In q seg /\ nowMs <= TS q) ->
        exists k, firstAtOrAfter nowMs seg k
                  /\ In (firstn k seg) past /\ In (skipn k seg) future).

(** ** Ground-track generation *)

(** The instants [t, t + step, ...], [n] of them. *)
Fixpoint samplesFrom (n : nat) (t : Go.Time) (step : Go.Duration)
  : list Go.Time :=
  match n with
  | O => []
  | S n' => t :: samplesFrom n' (t + step) step
  end.

(** The sample instants of an interval: [start, start + step, ...], up to
    [end_] included. *)
Definition sampleTimes (start end_ : Go.Time) (step : Go.Duration)
  : list Go.Time :=
  samplesFrom (Z.to_nat ((end_ - start) / step + 1)) start step.

(** The sample instants of the interval fit the slice make can give:
    24 bytes for each, 2^48 bytes at most. *)
Definition allocatable (start end_ : Go.Time) (step : Go.Duration) : Prop :=
  24 * Z.of_nat (List.length (sampleTimes start end_ step)) <= 2 ^ 48.

(** A track built from a list of points: it carries the catalog number
    of the record, and its past and future segments hold the points of
    the list and the boundary points of its crossings, each once. *)
Definition builtFrom (tle : TLE) (points : list TrackPoint)
           (track : GroundTrack) : Prop :=
  gtNoradID track = NoradID tle
  /\ Permutation (concat (Past track) ++ concat (Future track))%list
                 (withBoundaries points).

Section GroundTrackVocabulary.
Context `{trig : Go.TrigLib} `{kernel : satellite.Kernel}.

(** The points of the samples up to the first one whose propagation
    fails. *)
Fixpoint collectedPoints (prop : Propagator) (times : list Go.Time)
  : list TrackPoint :=
  match times with
  | [] => []
  | t :: rest =>
      match Propagate (Some prop) t with
      | Ok eci => trackPointOf eci t :: collectedPoints prop rest
      | Err _ => []
      end
  end.

(** The track assembled from a list of points. *)
Definition trackOf (tle : TLE) (points : list TrackPoint) (now : Go.Time)
  : GroundTrack :=
  {| Past := fst (splitPastFuture (splitAtAntimeridian points)
                                  (Go.UnixMilli now));
     Future := snd (splitPastFuture (splitAtAntimeridian points)
                                    (Go.UnixMilli now));
     gtNoradID := NoradID tle |}.

(** What the generator does with failing samples.  When make accepts
    the capacity: a failure after successful samples ends the track
    there, without an error, and the track is built from the points of
    the samples before the failure, one for each; a failure at the first
    sample is the only propagation error reported.  When the samples of
    an interval that a Duration holds are more than make accepts, the
    call panics before the first sample and returns nothing. *)
Definition truncatesSilently (tle : TLE) (prop : Propagator)
           (start end_ now : Go.Time) (step : Go.Duration) : Prop :=
  let first := Z.min start end_ in
  let last := Z.max start end_ in
  let run := GenerateGroundTrack (Some tle) start end_ now step in
  (allocatable first last step ->
   (forall before t after,
      sampleTimes first last step = (before ++ t :: after)%list ->
      before <> [] ->
      Forall (fun u => isOk (Propagate (Some prop) u) = true) before ->
      isOk (Propagate (Some prop) t) = false ->
      run = Some (Ok (trackOf tle (collectedPoints prop before) now))
      /\ builtFrom tle (collectedPoints prop before)
                   (trackOf tle (collectedPoints prop before) now)
      /\ Forall2 (fun u p => exists eci,
                    Propagate (Some prop) u = Ok eci /\ p = trackPointOf eci u)
                 before (collectedPoints prop before))
   /\ (forall err, Propagate (Some prop) first = Err err ->
         run = Some (Err (ErrPropagationAt first err)))
   /\ (isOk (Propagate (Some prop) first) = true ->
         exists track, run = Some (Ok track)))
  /\ (forall t err, run = Some (Err (ErrPropagationAt t err)) ->
        t = first /\ Propagate (Some prop) first = Err err)
  /\ (last - first <= Go.maxInt64 -> ~ allocatable first last step ->
        run = None).

End GroundTrackVocabulary.

(** ** Crossings *)

(** The crossings of the antimeridian along a list of points. *)
Fixpoint crossingsFrom (prev : TrackPoint) (rest : list TrackPoint) : nat :=
  match rest with
  | [] => 0
  | curr :: rest' =>
      ((if crossesAntimeridian (tpLon prev) (tpLon curr) then 1 else 0)
       + crossingsFrom curr rest')%nat
  end.

Definition crossings (points : list TrackPoint) : nat :=
  match points with
  | [] => 0
  | p0 :: rest => crossingsFrom p0 rest
  end.

(** ** Retries of the upstream client *)

(** The events of [n] consecutive attempts from [attempt] on: each one
    after the first is preceded by its backoff sleep. *)
Fixpoint schedule (n : nat) (attempt : Z) : list Event :=
  match n with
  | O => []
  | S n' =>
      ((if 0 <? attempt then [EvSleep (backoff attempt)] else [])
         ++ EvRequest attempt :: schedule n' (attempt + 1))%list
  end.

(** An exchange after which fetch goes on to the next attempt. *)
Definition retryable (x : Exchange) : Prop :=
  exists err, doRequest x = Err err /\ isNotFound err = false.

(** An exchange that doRequest maps to the not-found error. *)
Definition notFound (x : Exchange) : Prop :=
  doRequest x = Err ErrCelestrakNotFound.

(** What the client does with failures.  For a client with
    [maxRetries = N]: at most N + 1 requests; after m failed attempts
    that can be retried, with m <= N and the context alive, attempt m is
    made, after a sleep of [backoff m]; a done context ends the fetch
    with its error instead; a not-found answer ends the fetch with no
    further request; the sleep before attempt k is 2^(k-1) seconds;
    transport errors, 429 and 5xx are retried; 404 and the body
    "No GP data found" are not-found answers. *)
Definition retryPolicy (c : CelestrakClient) (up : Upstream) : Prop :=
  (requests (snd (fetch c up)) <= Z.to_nat (maxRetries c + 1))%nat
  /\ (forall m : nat,
        Z.of_nat m <= maxRetries c ->
        (forall j, 0 <= j < Z.of_nat m -> retryable (exchange up j)) ->
        (forall j, 1 <= j < Z.of_nat m -> ctxDone up j = false) ->
        (ctxDone up (Z.of_nat m) = false \/ m = 0%nat ->
         exists evs,
           snd (fetch c up) = (EvRateLimitWait :: schedule (S m) 0 ++ evs)%list)
        /\ (ctxDone up (Z.of_nat m) = false \/ m = 0%nat ->
            notFound (exchange up (Z.of_nat m)) ->
            fetch c up = (Err (ErrRequest ErrCelestrakNotFound),
                          EvRateLimitWait :: schedule (S m) 0))
        /\ (ctxDone up (Z.of_nat m) = true -> m <> 0%nat ->
            fetch c up = (Err ErrContext, EvRateLimitWait :: schedule m 0)))
  /\ (forall attempt, 1 <= attempt <= 34 ->
        backoff attempt = 2 ^ (attempt - 1) * Go.Second)
  /\ (retryable TransportFailure
      /\ (forall body, retryable (Response StatusTooManyRequests body))
      /\ (forall status body, 500 <= status -> retryable (Response status body)))
  /\ ((forall body, notFound (Response StatusNotFound body))
      /\ notFound (Response StatusOK (Some "No GP data found"))).

(** ** The catalog *)

(** No ID twice under a key. *)
Definition indexNoDup (index : gmap string (list Z)) : Prop :=
  forall key ids, index !! key = Some ids -> List.NoDup ids.

Definition noDuplicateIDs (s : TLEStore) : Prop :=
  indexNoDup (byGroup s) /\ indexNoDup (byName s).

Section StoreVocabulary.
Context `{uc : Unicode.Case}.

(** The store after a sequence of additions to a new store; Add,
    AddWithGroup and LoadGroup change the store through addInternal
    only. *)
Definition storeAfter (ops : list (option TLE * string)) : TLEStore :=
  fold_left (fun s op => addInternal s (fst op) (snd op)) ops NewTLEStore.

End StoreVocabulary.

(** ** The data of the examples *)

(** The ISS record of the test suite, with its check digits. *)
Definition issLine1 : string :=
  "1 25544U 98067A   24001.50000000  .00016717  00000-0  10270-3 0  9997".
Definition issLine2 : string :=
  "2 25544  51.6400 247.4627 0006703 130.5360 325.0288 15.49815571423401".

(** Line 1 of the same record with a wrong check digit. *)
Definition badLine1 : string :=
  "1 25544U 98067A   24001.50000000  .00016717  00000-0  10270-3 0  9990".

Definition lf : string := String Go.newline "".

Definition validRecord : list string := ["ISS (ZARYA)"; issLine1; issLine2].
Definition badRecord : list string := ["DEBRIS"; badLine1; issLine2].

(** A cache file with a valid record followed by one with a bad
    checksum. *)
Definition mixedBatch : string :=
  "ISS (ZARYA)" ++ lf ++ issLine1 ++ lf ++ issLine2 ++ lf
  ++ "DEBRIS" ++ lf ++ badLine1 ++ lf ++ issLine2 ++ lf.

Definition testConfig : TLEStoreConfig :=
  {| Groups := ["test"]; UpdateInterval := 6 * Go.Hour; CacheDir := "cache";
     MaxTLEAgeDays := 7; EnableMetadata := false |}.

Definition mixedCache : Cache :=
  {| files := {[ "cache/test.tle" := mixedBatch ]}; cacheMeta := ∅ |}.

(** A server that answers every request with status 500. *)
Definition alwaysFailing : Upstream :=
  {| exchange := fun _ => Response 500 None; ctxDone := fun _ => false |}.

Definition trackPoint (lon lat : float) (ts : Z) : TrackPoint :=
  {| tpLon := lon; tpLat := lat; TS := ts |}.

Definition exampleSegment : list TrackPoint :=
  [trackPoint 10 50 1000; trackPoint 15 51 2000;
   trackPoint 20 52 3000; trackPoint 25 53 4000].

Definition issRecord : TLE := newTLE "ISS (ZARYA)" issLine1 issLine2.

(** 2024-01-01T12:00:00Z. *)
Definition noon : Go.Time := 1704110400000000000.

(** A kernel whose output has an infinite position component and a NaN
    velocity component. *)
Definition nonFiniteKernel : satellite.Kernel :=
  {| satellite.Satellite := unit;
     satellite.TLEToSat := fun _ _ _ => tt;
     satellite.Propagate := fun _ _ _ _ _ _ _ =>
       ({| satellite.X := infinity; satellite.Y := 0; satellite.Z := 0 |},
        {| satellite.X := nan; satellite.Y := 0; satellite.Z := 0 |});
     satellite.GSTimeFromDate := fun _ _ _ _ _ _ => 0%float;
     satellite.JDay := fun _ _ _ _ _ _ => 0%float |}.

(** A kernel for a decaying orbit: positions until the second minute of
    the hour, NaN from then on. *)
Definition decayingKernel : satellite.Kernel :=
  {| satellite.Satellite := unit;
     satellite.TLEToSat := fun _ _ _ => tt;
     satellite.Propagate := fun _ _ _ _ _ minute _ =>
       if minute <? 2
       then ({| satellite.X := 7000; satellite.Y := 0; satellite.Z := 0 |},
             {| satellite.X := 0; satellite.Y := 7.5; satellite.Z := 0 |})
       else ({| satellite.X := nan; satellite.Y := nan; satellite.Z := nan |},
             {| satellite.X := nan; satellite.Y := nan; satellite.Z := nan |});
     satellite.GSTimeFromDate := fun _ _ _ _ _ _ => 0%float;
     satellite.JDay := fun _ _ _ _ _ _ => 0%float |}.

(** First-order stand-ins for the trigonometric functions; the run that
    uses them observes the control flow of the generator only. *)
Definition firstOrderTrig : Go.TrigLib :=
  {| Go.Sin := fun x => x; Go.Cos := fun _ => 1%float; Go.Asin := fun x => x;
     Go.Atan2 := fun y x => (y / x)%float |}.

Definition origin : ECEFPosition R :=
  {| ecefX := 0%R; ecefY := 0%R; ecefZ := 0%R; ecefTime := 0 |}.

Definition originFloat : ECEFPosition float :=
  {| ecefX := 0%float; ecefY := 0%float; ecefZ := 0%float; ecefTime := 0 |}.


(** * More of the package

    Functions of the files above that the specification does not speak
    of, and the vocabulary of their properties. *)

(** ** tle.go: the lines of a record *)

Definition trimmed (s : string) : Prop :=
  Go.spacePrefix (Go.bytes s) = 0%nat
  /\ Go.spaceSuffix (rev (Go.bytes s)) = 0%nat.

(** The lines [String()] writes for a record. *)
Definition recordLines (tle : TLE) : list string :=
  if negb (String.eqb (Name tle) "")
  then [Name tle; Line1 tle; Line2 tle]
  else [Line1 tle; Line2 tle].

(** A string without a line feed. *)
Definition singleLine (s : string) : Prop :=
  Forall (fun c => c <> Go.newline) (Go.bytes s).

(** What the lines of a record have after a parse: no white space at the
    ends, no line feed, the line numbers at the head of the two lines
    and a name, if any, that begins with neither. *)
Definition storable (tle : TLE) : Prop :=
  Forall (fun l => trimmed l /\ singleLine l) (recordLines tle)
  /\ Go.at_ (Line1 tle) 0 = "1"%char /\ Go.at_ (Line2 tle) 0 = "2"%char
  /\ (Name tle = ""
      \/ (Go.at_ (Name tle) 0 <> "1"%char /\ Go.at_ (Name tle) 0 <> "2"%char)).

(** ** tle_store.go: lookups by name and the whole catalog *)

(** strings.Contains *)
Fixpoint stringsContains (s substr : string) : bool :=
  String.prefix substr s
  || match s with
     | EmptyString => false
     | String _ s' => stringsContains s' substr
     end.

Section StoreQueries.
Context `{uc : Unicode.Case}.

(** GetByName.  Go ranges over the catalog in an unspecified order; the
    partial matches are listed here in the order of [map_to_list], and
    the theorems about them speak of membership only. *)
Definition GetByName (s : TLEStore) (name : string) : list TLE :=
  let lowerName := Unicode.ToLower name in
  match byName s !! lowerName with
  | Some ids => omap (fun id => catalog s !! id) ids
  | None =>
      List.filter
        (fun tle => stringsContains (Unicode.ToLower (Name tle)) lowerName)
        (List.map snd (map_to_list (catalog s)))
  end.

(** GetAll, in the order of [map_to_list]. *)
Definition GetAll (s : TLEStore) : list TLE :=
  List.map snd (map_to_list (catalog s)).

End StoreQueries.

(** An ID listed under a key of an index. *)
Definition listed (index : gmap string (list Z)) (key : string) (id : Z)
  : Prop :=
  In id (default [] (index !! key)).

(** Every ID an index lists has a record in the catalog. *)
Definition indexesSound (s : TLEStore) : Prop :=
  forall key id,
    listed (byGroup s) key id \/ listed (byName s) key id ->
    is_Some (catalog s !! id).

(** ** tle_store.go: batches of additions *)

Section Batches.
Context `{uc : Unicode.Case}.

(** The additions LoadGroup makes for a batch. *)
Definition addAll (tles : list TLE) (group : string) (s : TLEStore) : TLEStore :=
  fold_left (fun st tle => addInternal st (Some tle) group) tles s.

(** The record is in the indexes under the keys addInternal uses. *)
Definition indexed (s : TLEStore) (group : string) (tle : TLE) : Prop :=
  (group <> "" -> listed (byGroup s) (Unicode.ToLower group) (NoradID tle))
  /\ (Name tle <> "" ->
      listed (byName s) (Unicode.ToLower (Name tle)) (NoradID tle)).

End Batches.

(** ** sgp4.go: a range of instants *)

(** What PropagateRange fails with: an argument error, or the failure of
    Propagate at an instant. *)
Inductive RangeError : Type :=
| ErrRange (e : PropError)
| ErrRangeAt (t : Go.Time) (e : PropError).

Section Range.
Context `{kernel : satellite.Kernel}.

(** The loop of PropagateRange from instant [t] on, with fuel as for
    generateTrackPoints.  A failure returns the positions collected so
    far together with the error. *)
Fixpoint rangeLoop (fuel : nat) (p : Propagator) (t end_ : Go.Time)
         (step : Go.Duration) (positions : list ECIPosition)
  : option (list ECIPosition * option RangeError) :=
  match fuel with
  | O => None
  | S fuel' =>
      if Go.timeAfter t end_ then Some (positions, None)
      else
        match Propagate (Some p) t with
        | Err err => Some (positions, Some (ErrRangeAt t err))
        | Ok pos =>
            rangeLoop fuel' p (Go.timeAdd t step) end_ step
                      (positions ++ [pos])%list
        end
  end.

Definition PropagateRange (p : option Propagator) (start end_ : Go.Time)
           (step : Go.Duration)
  : option (list ECIPosition * option RangeError) :=
  match p with
  | None => Some ([], Some (ErrRange ErrNilTLE))
  | Some p =>
      if step <=? 0 then Some ([], Some (ErrRange ErrInvalidStep))
      else
        let '(start, end_) :=
          if Go.timeBefore end_ start then (end_, start) else (start, end_) in
        rangeLoop (trackFuel start end_ step) p start end_ step []
  end.

(** The positions of the instants up to the first failure, and that
    failure. *)
Fixpoint positionsUntilFailure (p : Propagator) (times : list Go.Time)
  : list ECIPosition * option RangeError :=
  match times with
  | [] => ([], None)
  | t :: rest =>
      match Propagate (Some p) t with
      | Err err => ([], Some (ErrRangeAt t err))
      | Ok pos =>
          (pos :: fst (positionsUntilFailure p rest),
           snd (positionsUntilFailure p rest))
      end
  end.

End Range.

(** ** ground_track.go: the points of a track *)

Definition Points (gt : option GroundTrack) : list TrackPoint :=
  match gt with
  | None => []
  | Some gt =>
      fold_left (fun result seg => (result ++ seg)%list) (Future gt)
        (fold_left (fun result seg => (result ++ seg)%list) (Past gt) [])
  end.

Definition TotalPoints (gt : option GroundTrack) : Z :=
  match gt with
  | None => 0
  | Some gt =>
      fold_left (fun count seg => count + Z.of_nat (List.length seg)) (Future gt)
        (fold_left (fun count seg => count + Z.of_nat (List.length seg))
                   (Past gt) 0)
  end.

(** ** coordinates.go in the arithmetic of [Arith]

    The transforms between frames, written once for both readings of
    the arithmetic, as ECEFToAER is.  The sidereal angle comes from
    go-satellite and is a parameter. *)

Module Frame.

Record ECIPosition (F : Type) : Type := mkECI {
  X : F; Y : F; Zc : F; Vx : F; Vy : F; Vz : F; Time : Go.Time
}.
Arguments mkECI {F}.
Arguments X {F}.
Arguments Y {F}.
Arguments Zc {F}.
Arguments Vx {F}.
Arguments Vy {F}.
Arguments Vz {F}.
Arguments Time {F}.

(** Observer: latitude and longitude in degrees, altitude in km. *)
Record Observer (F : Type) : Type := mkObserver {
  obsLat : F; obsLon : F; obsAlt : F
}.
Arguments mkObserver {F}.
Arguments obsLat {F}.
Arguments obsLon {F}.
Arguments obsAlt {F}.

(** The zero value of time.Time: 0001-01-01T00:00:00Z. *)
Definition zeroTime : Go.Time := - 62135596800 * Go.Second.

Section Transforms.
Context {F : Type} `{ar : Arith F}.
Context (GMST : Go.Time -> F).

Definition ECIToECEF (eci : option (ECIPosition F)) : option (ECEFPosition F) :=
  match eci with
  | None => None
  | Some eci =>
      let gmst := GMST (Time eci) in
      let cosGMST := fcos gmst in
      let sinGMST := fsin gmst in
      Some {| ecefX := (X eci * cosGMST + Y eci * sinGMST)%ar;
              ecefY := (- X eci * sinGMST + Y eci * cosGMST)%ar;
              ecefZ := Zc eci;
              ecefTime := Time eci |}
  end.

Definition ECEFToECI (ecef : option (ECEFPosition F)) : option (ECIPosition F) :=
  match ecef with
  | None => None
  | Some ecef =>
      let gmst := GMST (ecefTime ecef) in
      let cosGMST := fcos gmst in
      let sinGMST := fsin gmst in
      Some {| X := (ecefX ecef * cosGMST - ecefY ecef * sinGMST)%ar;
              Y := (ecefX ecef * sinGMST + ecefY ecef * cosGMST)%ar;
              Zc := ecefZ ecef;
              Vx := fconst 0; Vy := fconst 0; Vz := fconst 0;
              Time := ecefTime ecef |}
  end.

Definition LLAToECEF (lla : option (LLA F)) : option (ECEFPosition F) :=
  match lla with
  | None => None
  | Some lla =>
      let sinLat := fsin (Lat lla) in
      let cosLat := fcos (Lat lla) in
      let sinLon := fsin (Lon lla) in
      let cosLon := fcos (Lon lla) in
      let radiusN :=
        (fconst WGS84A
         / fsqrt (fconst 1 - fconst WGS84E2 * sinLat * sinLat))%ar in
      Some {| ecefX := ((radiusN + Alt lla) * cosLat * cosLon)%ar;
              ecefY := ((radiusN + Alt lla) * cosLat * sinLon)%ar;
              ecefZ := ((radiusN * fconst (1 - WGS84E2) + Alt lla) * sinLat)%ar;
              ecefTime := zeroTime |}
  end.

Definition ToLLA (obs : option (Observer F)) : option (LLA F) :=
  match obs with
  | None => None
  | Some obs =>
      Some {| Lat := (obsLat obs * fconst Deg2Rad)%ar;
              Lon := (obsLon obs * fconst Deg2Rad)%ar;
              Alt := obsAlt obs |}
  end.

Definition ObserverToECEF (obs : option (Observer F))
  : option (ECEFPosition F) :=
  match obs with
  | None => None
  | Some obs =>
      LLAToECEF (Some {| Lat := (obsLat obs * fconst Deg2Rad)%ar;
                         Lon := (obsLon obs * fconst Deg2Rad)%ar;
                         Alt := obsAlt obs |})
  end.

Definition GetAER (obs : option (Observer F)) (eci : option (ECIPosition F))
  : option (AER F) :=
  match obs, eci with
  | Some _, Some _ =>
      let satECEF := ECIToECEF eci in
      let obsECEF := ObserverToECEF obs in
      let obsLLA := ToLLA obs in
      ECEFToAER satECEF obsECEF obsLLA
  | _, _ => None
  end.

End Transforms.

End Frame.

(** The position in the record of sgp4.go. *)
Definition frameOfECI (eci : ECIPosition) : Frame.ECIPosition float :=
  {| Frame.X := eciX eci; Frame.Y := eciY eci; Frame.Zc := eciZ eci;
     Frame.Vx := eciVx eci; Frame.Vy := eciVy eci; Frame.Vz := eciVz eci;
     Frame.Time := eciTime eci |}.

(** ** tle_store_config.go *)

Definition DefaultTLEUpdateInterval : Go.Duration := 6 * Go.Hour.
Definition DefaultTLECacheDir : string := "data/tle_cache".
Definition DefaultMaxTLEAgeDays : float := 7%float.
Definition DefaultTLEGroups : list string := ["stations"; "amateur"; "cubesat"].

Definition DefaultTLEStoreConfig : TLEStoreConfig :=
  {| Groups := DefaultTLEGroups;
     UpdateInterval := DefaultTLEUpdateInterval;
     CacheDir := DefaultTLECacheDir;
     MaxTLEAgeDays := DefaultMaxTLEAgeDays;
     EnableMetadata := false |}.

(** Validate fails with the groups it does not know. *)
Inductive ConfigError : Type := ErrUnknownGroups (invalid : list string).

Section Config.
(** IsValidGroup is defined in a file of the package that is not among
    the sources; Validate is embedded for any such test. *)
Context (IsValidGroup : string -> bool).

(** Validate corrects the fields in place and then checks the groups:
    the corrected configuration is returned together with the result. *)
Definition Validate (c : TLEStoreConfig)
  : TLEStoreConfig * result ConfigError unit :=
  let updateInterval :=
    if UpdateInterval c <? Go.Minute then DefaultTLEUpdateInterval
    else UpdateInterval c in
  let cacheDir :=
    if String.eqb (CacheDir c) "" then DefaultTLECacheDir else CacheDir c in
  let maxTLEAgeDays :=
    if (MaxTLEAgeDays c <=? 0)%float then DefaultMaxTLEAgeDays
    else MaxTLEAgeDays c in
  let groups :=
    if (List.length (Groups c) =? 0)%nat then DefaultTLEGroups else Groups c in
  let c' := {| Groups := groups; UpdateInterval := updateInterval;
               CacheDir := cacheDir; MaxTLEAgeDays := maxTLEAgeDays;
               EnableMetadata := EnableMetadata c |} in
  let invalid := List.filter (fun g => negb (IsValidGroup g)) groups in
  if (0 <? List.length invalid)%nat then (c', Err (ErrUnknownGroups invalid))
  else (c', Ok tt).

End Config.

(** ** celestrak.go: one satellite *)

(** What FetchByNoradID fails with: the failure of the fetch or of the
    parse, or a body without a record. *)
Inductive NoradIDError : Type :=
| ErrFetchingNoradID (e : FetchError)
| ErrNoradIDNotFound.

Section FetchOne.
Context `{lib : Go.NumLib}.

Definition FetchByNoradID (c : CelestrakClient) (up : Upstream)
  : result NoradIDError TLE * list Event :=
  match fetch c up with
  | (Err err, evs) => (Err (ErrFetchingNoradID err), evs)
  | (Ok data, evs) =>
      match ParseTLEBatch data with
      | Err err => (Err (ErrFetchingNoradID (ErrParsingTLE err)), evs)
      | Ok [] => (Err ErrNoradIDNotFound, evs)
      | Ok (tle :: _) => (Ok tle, evs)
      end
  end.

End FetchOne.

(** ** tle_test.go: the helper that completes a line *)

(** strconv.Itoa *)
Fixpoint itoaLoop (fuel : nat) (n : Z) (acc : string) : string :=
  match fuel with
  | O => acc
  | S fuel' =>
      let acc' := String (ascii_of_N (Z.to_N (48 + n mod 10))) acc in
      if n <? 10 then acc' else itoaLoop fuel' (n / 10) acc'
  end.

Definition Itoa (n : Z) : string :=
  if n <? 0 then String "-" (itoaLoop 20 (- n) "") else itoaLoop 20 n "".

(** makeTLELine: the line with its check digit; [None] is the panic on a
    line that has not 68 characters. *)
Definition makeTLELine (line68 : string) : option string :=
  if negb (String.length line68 =? 68)%nat then None
  else
    let checksum := calculateChecksum line68 in
    Some (line68 ++ Itoa checksum).

(** ** tle_store.go: all the groups *)

Section AllGroups.
Context `{lib : Go.NumLib} `{uc : Unicode.Case}.

(** The loop of LoadAllGroups.  [env k] is the environment of the k-th
    call of LoadGroup: what Celestrak answers during it and the instant
    of the save. *)
Fixpoint loadGroups (cfg : TLEStoreConfig) (c : CelestrakClient)
         (env : nat -> Upstream * Go.Time) (k : nat) (groups : list string)
         (s : TLEStore) (cache : Cache) (log : list LogRecord)
         (lastErr : option StoreError)
  : TLEStore * Cache * list LogRecord * option StoreError :=
  match groups with
  | [] => (s, cache, log, lastErr)
  | group :: rest =>
      let '(s', cache', l, r) :=
        LoadGroup cfg c (fst (env k)) (snd (env k)) s cache group in
      match r with
      | Err err =>
          loadGroups cfg c env (S k) rest s' cache'
                     (log ++ l ++ [(Warn, "failed to load group")])%list
                     (Some err)
      | Ok _ =>
          loadGroups cfg c env (S k) rest s' cache' (log ++ l)%list lastErr
      end
  end.

Definition LoadAllGroups (cfg : TLEStoreConfig) (c : CelestrakClient)
           (env : nat -> Upstream * Go.Time) (s : TLEStore) (cache : Cache)
  : TLEStore * Cache * list LogRecord * result StoreError unit :=
  let '(s', cache', log, lastErr) :=
    loadGroups cfg c env 0 (Groups cfg) s cache [] None in
  (s', cache', (log ++ [(Info, "loaded TLE groups")])%list,
   match lastErr with
   | None => Ok tt
   | Some err => Err err
   end).

End AllGroups.

(** ** celestrak.go: several groups at once *)

Section ManyGroups.
Context `{lib : Go.NumLib}.

(** FetchMultipleGroups starts one goroutine for each group; each one
    fetches its group and then, holding the mutex, appends its records
    or its error.  [ups] gives the environment of the fetch of each
    group and [order] the order in which the goroutines take the mutex;
    an index of [order] without a group appends nothing. *)
Definition FetchMultipleGroups (c : CelestrakClient) (ups : list Upstream)
           (order : list nat) : list TLE * list FetchError :=
  fold_left
    (fun acc i =>
       match nth_error ups i with
       | None => acc
       | Some up =>
           match fst (FetchGroup c up) with
           | Err err => (fst acc, (snd acc ++ [err])%list)
           | Ok tles => ((fst acc ++ tles)%list, snd acc)
           end
       end)
    order ([], []).

End ManyGroups.

(** ** tle.go and ground_track.go: the default interval *)

(** OrbitalPeriod, in minutes. *)
Definition OrbitalPeriod (tle : TLE) : float :=
  if (MeanMotion tle =? 0)%float then 0%float
  else (1440 / MeanMotion tle)%float.

Section DefaultTrack.
Context `{trig : Go.TrigLib} `{kernel : satellite.Kernel}.

Definition GenerateDefaultGroundTrack (tle : option TLE) (now : Go.Time)
  : option (result TrackError GroundTrack) :=
  match tle with
  | None => Some (Err ErrNilTLEForTrack)
  | Some tle_ =>
      let period :=
        Go.int64OfFloat (OrbitalPeriod tle_ * Go.floatOfInt Go.Minute)%float in
      if period <=? 0 then Some (Err ErrInvalidRange)
      else
        let defaultStep := 30 * Go.Second in
        let start := Go.timeAdd now (Go.wrap64 (-1 * period)) in
        let end_ := Go.timeAdd now (Go.wrap64 (3 * period)) in
        GenerateGroundTrack tle start end_ now defaultStep
  end.

End DefaultTrack.

(** ** More data for the examples *)

(** The ISS record as a batch of three lines. *)
Definition issBatch : string :=
  "ISS (ZARYA)" ++ lf ++ issLine1 ++ lf ++ issLine2 ++ lf.

(** The records the batch parser reads from it. *)
Definition issParsed : list TLE :=
  match @ParseTLEBatch decimalLib issBatch with
  | Ok tles => tles
  | Err _ => []
  end.

(** The record the parser reads from the three lines. *)
Definition issTLE : TLE :=
  match @ParseTLE decimalLib validRecord with
  | Ok tle => tle
  | Err _ => issRecord
  end.

(** A server that answers every request with status 200 and the given
    body. *)
Definition answering (body : string) : Upstream :=
  {| exchange := fun _ => Response 200 (Some body); ctxDone := fun _ => false |}.

(** Case analysis on the numerals a match on byte values tests. *)
Ltac zcases :=
  repeat match goal with
  | |- context [match ?z with Z0 => _ | Zpos _ => _ | Zneg _ => _ end] =>
      destruct z
  | |- context [match ?p with xI _ => _ | xO _ => _ | xH => _ end] =>
      destruct p
  | H : context [match ?z with Z0 => _ | Zpos _ => _ | Zneg _ => _ end] |- _ =>
      destruct z
  | H : context [match ?p with xI _ => _ | xO _ => _ | xH => _ end] |- _ =>
      destruct p
  end.


(** * Theorems *)

(** ** tle.go *)

(** Bytes are 8-bit. *)
Lemma code_range (c : ascii) : 0 <= Go.code c < 256.
Proof.
  unfold Go.code. pose proof (N_ascii_bounded c) as H. lia.
Qed.

Lemma code_inj (c d : ascii) : Go.code c = Go.code d -> c = d.
Proof.
  unfold Go.code. intros H.
  rewrite <- (ascii_N_embedding c), <- (ascii_N_embedding d).
  f_equal. lia.
Qed.

Lemma contribution_range c : 0 <= contribution c <= 9.
Proof.
  unfold contribution, Go.isDigit.
  destruct (Go.code "0"%char <=? Go.code c) eqn:E1;
  destruct (Go.code c <=? Go.code "9"%char) eqn:E2; simpl;
  try (destruct (Ascii.eqb c "-"%char); lia).
  apply Z.leb_le in E1, E2. change (Go.code "0"%char) with 48 in *.
  change (Go.code "9"%char) with 57 in *. lia.
Qed.

Lemma checksumStep_contribution sum c :
  checksumStep sum c = sum + contribution c.
Proof.
  unfold checksumStep, contribution, Go.isDigit, Go.byteSub.
  destruct (Go.code "0"%char <=? Go.code c) eqn:E1;
  destruct (Go.code c <=? Go.code "9"%char) eqn:E2; simpl;
  try (destruct (Ascii.eqb c "-"%char); lia).
  apply Z.leb_le in E1, E2. change (Go.code "0"%char) with 48 in *.
  change (Go.code "9"%char) with 57 in *.
  rewrite Z.mod_small by lia. reflexivity.
Qed.

Lemma fold_checksum l : forall sum,
  fold_left checksumStep l sum
  = sum + fold_right Z.add 0 (List.map contribution l).
Proof.
  induction l as [|c l IH]; intros sum; simpl.
  - lia.
  - rewrite IH, checksumStep_contribution. lia.
Qed.

Lemma sum_contribution_nonneg l :
  0 <= fold_right Z.add 0 (List.map contribution l).
Proof.
  induction l as [|c l IH]; simpl; [lia|].
  pose proof (contribution_range c). lia.
Qed.

Lemma calculateChecksum_modulo10 s : calculateChecksum s = modulo10 s.
Proof.
  unfold calculateChecksum, modulo10.
  rewrite fold_checksum, Z.add_0_l.
  apply Z.rem_mod_nonneg; [apply sum_contribution_nonneg | lia].
Qed.

Lemma modulo10_range s : 0 <= modulo10 s < 10.
Proof. unfold modulo10. apply Z.mod_pos_bound. lia. Qed.

(** C4.  A 69-character line is accepted by validateChecksum exactly when
    its 69th character is a decimal digit equal to the Modulo-10 sum of
    its first 68 characters, in which a digit counts for its value, a
    minus sign for 1 and every other character for 0. *)
Theorem validateChecksum_modulo10 (line : string) :
  String.length line = 69%nat ->
  validateChecksum line = true
  <-> digitOf (Go.at_ line 68) = Some (modulo10 (Go.slice line 0 68)).
Proof.
  intros Hlen. unfold validateChecksum, TLELineLength.
  rewrite Hlen.
  change (69 - 1)%nat with 68%nat.
  rewrite calculateChecksum_modulo10.
  pose proof (modulo10_range (Go.slice line 0 68)) as Hm.
  pose proof (code_range (Go.at_ line 68)) as Hc.
  unfold digitOf, Go.isDigit, Go.byteSub.
  change (Go.code "0"%char) with 48. change (Go.code "9"%char) with 57.
  change (69 <? 69)%nat with false. cbv iota. rewrite Z.eqb_eq.
  destruct (48 <=? Go.code (Go.at_ line 68)) eqn:E1;
  destruct (Go.code (Go.at_ line 68) <=? 57) eqn:E2; simpl;
  rewrite ?Z.leb_le, ?Z.leb_gt in *.
  - rewrite Z.mod_small by lia. split; [intros ->; reflexivity | intros [= ->]; reflexivity].
  - split; [|discriminate]. intros H.
    rewrite Z.mod_small in H by lia. lia.
  - split; [|discriminate]. intros H.
    assert (Hx : (Go.code (Go.at_ line 68) - 48) mod 256 = Go.code (Go.at_ line 68) - 48 + 256).
    { symmetry. apply Z.mod_unique with (q := -1); lia. }
    lia.
  - lia.
Qed.

Lemma validateChecksum_modulo10_witness : validateChecksum issLine1 = true.
Proof.
  apply (validateChecksum_modulo10 issLine1); [reflexivity | vm_compute; reflexivity].
Defined.

Lemma isDigit_value c : Go.isDigit c = true -> 0 <= Go.code c - Go.code "0"%char <= 9.
Proof.
  unfold Go.isDigit. change (Go.code "0"%char) with 48. change (Go.code "9"%char) with 57.
  rewrite andb_true_iff, !Z.leb_le. lia.
Qed.

Lemma isDigit_not_sign c :
  Go.isDigit c = true -> Ascii.eqb c "-"%char = false /\ Ascii.eqb c "+"%char = false.
Proof.
  intros H. apply isDigit_value in H. change (Go.code "0"%char) with 48 in H.
  split; apply Ascii.eqb_neq; intros ->;
    [change (Go.code "-"%char) with 45 in H | change (Go.code "+"%char) with 43 in H]; lia.
Qed.

Lemma isDigit_not_upper c :
  Go.isDigit c = true ->
  (Go.code "A"%char <=? Go.code c) && (Go.code c <=? Go.code "Z"%char) = false.
Proof.
  intros H. apply isDigit_value in H. change (Go.code "0"%char) with 48 in H.
  change (Go.code "A"%char) with 65.
  apply andb_false_iff. left. apply Z.leb_gt. lia.
Qed.

Lemma fold_digits_mono l : forall n, 0 <= n -> forallb Go.isDigit l = true ->
  n <= fold_left (fun n c => n * 10 + (Go.code c - Go.code "0"%char)) l n.
Proof.
  induction l as [|c l IH]; intros n Hn Hd; simpl in *; [lia|].
  apply andb_true_iff in Hd as [Hc Hl]. apply isDigit_value in Hc.
  etransitivity; [|apply IH; [lia|exact Hl]]. lia.
Qed.

Lemma parseUint_digits l : forall n, 0 <= n -> forallb Go.isDigit l = true ->
  fold_left (fun n c => n * 10 + (Go.code c - Go.code "0"%char)) l n <= Go.maxUint64 ->
  Go.parseUint n l
  = (fold_left (fun n c => n * 10 + (Go.code c - Go.code "0"%char)) l n, None).
Proof.
  induction l as [|c l IH]; intros n Hn Hd Hmax; simpl in *; [reflexivity|].
  apply andb_true_iff in Hd as [Hc Hl]. rewrite Hc.
  pose proof (isDigit_value c Hc) as Hv.
  pose proof (fold_digits_mono l (n * 10 + (Go.code c - Go.code "0"%char)) ltac:(lia) Hl) as Hmono.
  destruct (Go.maxUint64 <? n * 10 + (Go.code c - Go.code "0"%char)) eqn:E.
  - apply Z.ltb_lt in E. lia.
  - apply IH; [lia | exact Hl | exact Hmax].
Qed.

Lemma decimalValue_bound l :
  forallb Go.isDigit l = true -> 0 <= decimalValue l < 10 ^ Z.of_nat (List.length l).
Proof.
  unfold decimalValue.
  assert (G : forall n, 0 <= n -> forallb Go.isDigit l = true ->
     0 <= fold_left (fun n c => n * 10 + (Go.code c - Go.code "0"%char)) l n
       < (n + 1) * 10 ^ Z.of_nat (List.length l)).
  { induction l as [|c l IH]; intros n Hn Hd; simpl List.length; simpl fold_left.
    - simpl. lia.
    - simpl in Hd. apply andb_true_iff in Hd as [Hc Hl]. apply isDigit_value in Hc.
      specialize (IH (n * 10 + (Go.code c - Go.code "0"%char)) ltac:(lia) Hl).
      rewrite Nat2Z.inj_succ, Z.pow_succ_r by lia.
      assert (0 < 10 ^ Z.of_nat (List.length l)) by (apply Z.pow_pos_nonneg; lia).
      nia. }
  intros Hd. specialize (G 0 ltac:(lia) Hd). lia.
Qed.

(** Atoi on a non-empty run of digits that fits an int64. *)
Lemma Atoi_digits s :
  allDigits s = true -> (0 < String.length s)%nat ->
  decimalValue (Go.bytes s) <= Go.maxInt64 ->
  Go.Atoi s = (decimalValue (Go.bytes s), None).
Proof.
  unfold allDigits, Go.Atoi. intros Hd Hlen Hmax.
  destruct (Go.bytes s) as [|c r] eqn:Hb.
  - destruct s; simpl in *; [lia | discriminate].
  - pose proof Hd as Hd'. simpl in Hd'. apply andb_true_iff in Hd' as [Hc Hr].
    destruct (isDigit_not_sign c Hc) as [-> ->].
    pose proof (decimalValue_bound (c :: r) Hd) as Hb2.
    rewrite parseUint_digits; [|lia|exact Hd|].
    + fold (decimalValue (c :: r)).
      rewrite andb_false_l. simpl negb. rewrite andb_true_l.
      destruct (2 ^ 63 <=? decimalValue (c :: r)) eqn:E; [|reflexivity].
      apply Z.leb_le in E. unfold Go.maxInt64 in Hmax. lia.
    + fold (decimalValue (c :: r)). unfold Go.maxInt64, Go.maxUint64 in *. lia.
Qed.

(** The keys of alpha5Map are the capital letters other than I and O. *)
Lemma alpha5Map_keys (c : ascii) :
  match mapLookup alpha5Map c with Some _ => true | None => false end
  = (Go.code "A"%char <=? Go.code c) && (Go.code c <=? Go.code "Z"%char)
    && negb (Ascii.eqb c "I"%char) && negb (Ascii.eqb c "O"%char).
Proof.
  destruct c as [[] [] [] [] [] [] [] []]; reflexivity.
Qed.

Lemma string_length5 (s : string) :
  String.length s = 5%nat ->
  exists c0 c1 c2 c3 c4,
    s = String c0 (String c1 (String c2 (String c3 (String c4 "")))).
Proof.
  intros H.
  do 5 (destruct s as [|? s]; [discriminate H|]).
  destruct s; [|discriminate H]. eauto 6.
Qed.

(** C5.  parseNoradID maps a 5-character field whose first character is
    a key of alpha5Map (the capital letters but I and O) and whose last
    four are digits to map[letter] * 10000 + those digits, so A0000 is
    100000 and Z9999 is 339999; a field that starts with I or O is
    rejected with the Alpha-5 error; a field of five digits is read as a
    decimal number. *)
Theorem parseNoradID_alpha5 :
  (forall (s : string) (prefix : Z),
      String.length s = 5%nat ->
      mapLookup alpha5Map (Go.at_ s 0) = Some prefix ->
      allDigits (Go.slice s 1 5) = true ->
      parseNoradID s
      = Ok (prefix * 10000 + decimalValue (Go.bytes (Go.slice s 1 5))))
  /\ parseNoradID "A0000" = Ok 100000
  /\ parseNoradID "Z9999" = Ok 339999
  /\ parseNoradID "I0000" = Err ErrInvalidAlpha5
  /\ parseNoradID "O0000" = Err ErrInvalidAlpha5
  /\ (forall rest : string,
        parseNoradID (String "I" rest) = Err ErrInvalidAlpha5
        /\ parseNoradID (String "O" rest) = Err ErrInvalidAlpha5)
  /\ (forall s : string,
        String.length s = 5%nat -> allDigits s = true ->
        parseNoradID s = Ok (decimalValue (Go.bytes s))).
Proof.
  split; [|split; [|split; [|split; [|split; [|split]]]]];
    try (vm_compute; reflexivity).
  - intros s prefix Hlen Hmap Hd.
    destruct (string_length5 s Hlen) as (c0 & c1 & c2 & c3 & c4 & ->).
    pose proof (alpha5Map_keys c0) as Hk.
    change (Go.at_ (String c0 (String c1 (String c2 (String c3 (String c4 ""))))) 0)
      with c0 in Hmap.
    rewrite Hmap in Hk. symmetry in Hk.
    apply andb_true_iff in Hk as [Hk _]. apply andb_true_iff in Hk as [Hk _].
    unfold parseNoradID.
    change (Go.at_ (String c0 (String c1 (String c2 (String c3 (String c4 ""))))) 0)
      with c0.
    change (String.length (String c0 (String c1 (String c2 (String c3 (String c4 ""))))))
      with 5%nat.
    change (5 =? 0)%nat with false. change (5 <? 5)%nat with false. cbv iota.
    rewrite Hk, Hmap.
    rewrite Atoi_digits; [reflexivity | exact Hd | simpl; lia |].
    pose proof (decimalValue_bound _ Hd) as Hb.
    change (Z.of_nat (List.length (Go.bytes (Go.slice
       (String c0 (String c1 (String c2 (String c3 (String c4 ""))))) 1 5)))) with 4 in Hb.
    unfold Go.maxInt64. lia.
  - intros rest. split; reflexivity.
  - intros s Hlen Hd.
    destruct (string_length5 s Hlen) as (c0 & c1 & c2 & c3 & c4 & ->).
    pose proof Hd as Hd'. unfold allDigits in Hd'. simpl in Hd'.
    apply andb_true_iff in Hd' as [Hc0 _].
    unfold parseNoradID.
    change (Go.at_ (String c0 (String c1 (String c2 (String c3 (String c4 ""))))) 0)
      with c0.
    change (String.length (String c0 (String c1 (String c2 (String c3 (String c4 ""))))))
      with 5%nat.
    change (5 =? 0)%nat with false. cbv iota.
    rewrite (isDigit_not_upper c0 Hc0).
    rewrite Atoi_digits; [reflexivity | exact Hd | simpl; lia |].
    pose proof (decimalValue_bound _ Hd) as Hb.
    change (Z.of_nat (List.length (Go.bytes
       (String c0 (String c1 (String c2 (String c3 (String c4 ""))))))))
      with 5 in Hb.
    unfold Go.maxInt64. lia.
Qed.

Lemma parseNoradID_alpha5_witness :
  parseNoradID "H1234" = Ok 171234 /\ parseNoradID "25544" = Ok 25544.
Proof.
  split.
  - apply (proj1 parseNoradID_alpha5 "H1234" 17); reflexivity.
  - apply (proj2 (proj2 (proj2 (proj2 (proj2 (proj2 parseNoradID_alpha5))))) "25544");
      reflexivity.
Defined.

(** ** Batches and the cache fallback *)

Lemma tryParseTLE_complete buffer :
  tryParseTLE buffer = if completeRecord buffer then Some buffer else None.
Proof.
  unfold tryParseTLE, completeRecord.
  destruct buffer as [|l0 [|l1 [|l2 [|l3 r]]]]; try reflexivity;
    cbn; now destruct (_ && _).
Qed.

Section BatchFacts.
Context `{lib : Go.NumLib} `{uc : Unicode.Case}.

Lemma batchLoop_records lines : forall tles buffer,
  batchLoop lines tles buffer
  = match parseAll (recordsLoop lines buffer) with
    | Ok parsed => Ok (tles ++ parsed)%list
    | Err e => Err e
    end.
Proof.
  induction lines as [|line rest IH]; intros tles buffer;
    cbn [batchLoop recordsLoop].
  - destruct (2 <=? List.length buffer)%nat; cbn [parseAll rbind].
    + destruct (ParseTLE buffer); reflexivity.
    + now rewrite app_nil_r.
  - destruct (String.eqb (Go.TrimSpace line) "").
    + destruct (2 <=? List.length buffer)%nat; [|apply IH].
      cbn [parseAll rbind]. destruct (ParseTLE buffer) as [tle|e]; [|reflexivity].
      cbn [rbind]. rewrite IH.
      destruct (parseAll (recordsLoop rest [])); cbn [rbind];
        [now rewrite <- app_assoc | reflexivity].
    + rewrite tryParseTLE_complete.
      destruct (completeRecord (buffer ++ [Go.TrimSpace line])); [|apply IH].
      cbn [parseAll rbind].
      destruct (ParseTLE (buffer ++ [Go.TrimSpace line])) as [tle|e]; [|reflexivity].
      cbn [rbind]. rewrite IH.
      destruct (parseAll (recordsLoop rest [])); cbn [rbind];
        [now rewrite <- app_assoc | reflexivity].
Qed.

Lemma ParseTLEBatch_parseAll data :
  ParseTLEBatch data = parseAll (batchRecords data).
Proof.
  unfold ParseTLEBatch, batchRecords. rewrite batchLoop_records.
  now destruct (parseAll _).
Qed.

Lemma parseAll_fails records record e :
  In record records -> ParseTLE record = Err e ->
  isOk (parseAll records) = false.
Proof.
  induction records as [|r rest IH]; intros Hin Herr; [destruct Hin|].
  cbn [parseAll]. destruct Hin as [-> | Hin].
  - now rewrite Herr.
  - destruct (ParseTLE r); [|reflexivity]. cbn [rbind].
    specialize (IH Hin Herr). now destruct (parseAll rest).
Qed.

Lemma parseAll_error records e :
  parseAll records = Err e ->
  exists record, In record records /\ ParseTLE record = Err e.
Proof.
  induction records as [|r rest IH]; intros H; [discriminate|].
  cbn [parseAll] in H. destruct (ParseTLE r) as [tle|e'] eqn:E.
  - cbn [rbind] in H. destruct (parseAll rest) as [tles|e''] eqn:E2; [discriminate|].
    cbn [rbind] in H. injection H as ->.
    destruct (IH eq_refl) as (record & Hin & Hr). exists record. split; [now right | exact Hr].
  - cbn [rbind] in H. injection H as ->. exists r. split; [now left | exact E].
Qed.

Lemma parseAll_length records tles :
  parseAll records = Ok tles -> List.length tles = List.length records.
Proof.
  revert tles. induction records as [|r rest IH]; intros tles H.
  - injection H as <-. reflexivity.
  - cbn [parseAll] in H. destruct (ParseTLE r); [|discriminate].
    cbn [rbind] in H. destruct (parseAll rest) as [l|]; [|discriminate].
    injection H as <-. simpl. now rewrite (IH l eq_refl).
Qed.

(** C2, as the code has it.  When the upstream fetch fails and the
    cache holds a file for the group, the load is all or nothing:
    ParseTLEBatch is the parse of the records of the batch in order; if
    a record of the batch does not parse, LoadGroup fails with
    ErrLoadGroupFailed, the store and the cache are unchanged and the
    warning "failed to load from cache" is logged; if all parse, all
    are added to the store. *)
Theorem LoadGroup_cache_all_or_nothing
        (cfg : TLEStoreConfig) (c : CelestrakClient) (up : Upstream)
        (now : Go.Time) (s : TLEStore) (cache : Cache) (group data : string) :
  isOk (fst (FetchGroup c up)) = false ->
  files cache !! cachePath cfg group = Some data ->
  allOrNothing cfg c up now s cache group data.
Proof.
  intros Hfetch Hfile. unfold allOrNothing.
  split; [apply ParseTLEBatch_parseAll|]. split.
  - intros record e Hin Herr.
    pose proof (parseAll_fails _ _ _ Hin Herr) as Hfail.
    unfold LoadGroup, loadGroupFromCache.
    destruct (fst (FetchGroup c up)); [discriminate|].
    rewrite Hfile, ParseTLEBatch_parseAll.
    destruct (parseAll (batchRecords data)); [discriminate|].
    eexists. split; [reflexivity|].
    apply in_or_app. right. now left.
  - intros tles Hok. unfold LoadGroup, loadGroupFromCache.
    destruct (fst (FetchGroup c up)); [discriminate|].
    rewrite Hfile, ParseTLEBatch_parseAll, Hok.
    eexists. split; [reflexivity|]. now apply parseAll_length.
Qed.

End BatchFacts.


(** The ISS record of the test suite parses to the values of its
    columns. *)
Example ParseTLE_iss :
  exists tle,
    @ParseTLE decimalLib validRecord = Ok tle
    /\ Name tle = "ISS (ZARYA)" /\ NoradID tle = 25544
    /\ Inclination tle = 51.64%float /\ RAAN tle = 247.4627%float
    /\ Eccentricity tle = 0.0006703%float
    /\ MeanMotion tle = 15.49815571%float
    /\ RevNumber tle = 42340 /\ Epoch tle = noon.
Proof. eexists. vm_compute. repeat split. Qed.

(** A batch with a valid record and one with a bad checksum: the load
    from the cache fails and the valid record is not in the store. *)
Lemma LoadGroup_valid_record_not_installed :
  batchRecords mixedBatch = [validRecord; badRecord]
  /\ isOk (@ParseTLE decimalLib validRecord) = true
  /\ @ParseTLE decimalLib badRecord = Err ErrInvalidChecksum
  /\ snd (@LoadGroup decimalLib asciiCase testConfig {| maxRetries := 0 |}
            alwaysFailing 0 NewTLEStore mixedCache "test")
     = Err ErrLoadGroupFailed
  /\ Get (fst (fst (fst (@LoadGroup decimalLib asciiCase testConfig
            {| maxRetries := 0 |} alwaysFailing 0 NewTLEStore mixedCache
            "test")))) 25544 = None.
Proof.
  repeat split; vm_compute; reflexivity.
Qed.

Lemma LoadGroup_cache_all_or_nothing_witness :
  @allOrNothing decimalLib asciiCase testConfig {| maxRetries := 0 |}
    alwaysFailing 0 NewTLEStore mixedCache "test" mixedBatch.
Proof.
  apply (@LoadGroup_cache_all_or_nothing decimalLib asciiCase);
    vm_compute; reflexivity.
Defined.

(** ** sgp4.go *)

Lemma isNaN_is_nan (f : float) : isNaN f = is_nan f.
Proof. reflexivity. Qed.

Section PropagatorFacts.
Context `{kernel : satellite.Kernel}.

(** C1, as the code has it.  Propagate on a propagator returns the
    six components the kernel produced, and then no position component
    is NaN, or it fails with ErrPropagationFailed, and then a position
    component is NaN.  Nothing is tested on the velocity, and an
    infinite component is no failure. *)
Theorem Propagate_checks_position_NaN (p : Propagator) (t : Go.Time) :
  match Propagate (Some p) t with
  | Ok eci =>
      positionHasNaN (fst (kernelAt p t)) = false
      /\ is_nan (eciX eci) = false /\ is_nan (eciY eci) = false
      /\ is_nan (eciZ eci) = false
      /\ eci = {| eciX := satellite.X (fst (kernelAt p t));
                  eciY := satellite.Y (fst (kernelAt p t));
                  eciZ := satellite.Z (fst (kernelAt p t));
                  eciVx := satellite.X (snd (kernelAt p t));
                  eciVy := satellite.Y (snd (kernelAt p t));
                  eciVz := satellite.Z (snd (kernelAt p t));
                  eciTime := t |}
  | Err e =>
      e = ErrPropagationFailed /\ positionHasNaN (fst (kernelAt p t)) = true
  end.
Proof.
  unfold Propagate, positionHasNaN.
  destruct (kernelAt p t) as [position velocity]. cbn [fst snd].
  change isNaN with is_nan.
  destruct (is_nan (satellite.X position)) eqn:EX;
  destruct (is_nan (satellite.Y position)) eqn:EY;
  destruct (is_nan (satellite.Z position)) eqn:EZ; cbn [orb eciX eciY eciZ];
    repeat split; first [assumption | reflexivity].
Qed.

End PropagatorFacts.

(** A kernel output with an infinite position component and a NaN
    velocity component is returned as a result. *)
Lemma Propagate_returns_nonfinite :
  exists p eci,
    @NewPropagator nonFiniteKernel (Some issRecord) = Ok p
    /\ @Propagate nonFiniteKernel (Some p) noon = Ok eci
    /\ is_finite (eciX eci) = false
    /\ is_finite (eciVx eci) = false.
Proof.
  eexists _, _. repeat split.
Qed.

(** ** coordinates.go *)

Section ExactAER.
Local Open Scope R_scope.

Lemma Ratan2_range (y x : R) : - PI < Ratan2 y x <= PI.
Proof.
  unfold Ratan2. pose proof PI_RGT_0 as Hpi.
  pose proof (atan_bound (y / x)) as Ha.
  destruct (Rlt_dec 0 x); [lra|].
  destruct (Rlt_dec x 0).
  - destruct (Rle_dec (atan (y / x)) 0); lra.
  - destruct (Rlt_dec 0 y); [lra|]. destruct (Rlt_dec y 0); lra.
Qed.

(** The up component is at most the distance: Cauchy-Schwarz for the
    unit vector of the local vertical. *)
Lemma up_le_range (sl cl so co dx dy dz : R) :
  sl * sl + cl * cl = 1 -> so * so + co * co = 1 ->
  (cl * co * dx + cl * so * dy + sl * dz) * (cl * co * dx + cl * so * dy + sl * dz)
  <= dx * dx + dy * dy + dz * dz.
Proof.
  intros Hl Ho.
  assert (Hunit : (cl * co) * (cl * co) + (cl * so) * (cl * so) + sl * sl = 1)
    by nra.
  set (a := cl * co) in *. set (b := cl * so) in *.
  assert (H : (a * a + b * b + sl * sl) * (dx * dx + dy * dy + dz * dz)
              - (a * dx + b * dy + sl * dz) * (a * dx + b * dy + sl * dz)
              = (a * dy - b * dx) * (a * dy - b * dx)
                + (a * dz - sl * dx) * (a * dz - sl * dx)
                + (b * dz - sl * dy) * (b * dz - sl * dy)) by ring.
  rewrite Hunit in H.
  pose proof (Rle_0_sqr (a * dy - b * dx)) as H1.
  pose proof (Rle_0_sqr (a * dz - sl * dx)) as H2.
  pose proof (Rle_0_sqr (b * dz - sl * dy)) as H3.
  unfold Rsqr in *. lra.
Qed.

Lemma sin_cos_unit (x : R) : sin x * sin x + cos x * cos x = 1.
Proof. pose proof (sin2_cos2 x) as H. unfold Rsqr in H. exact H. Qed.


(** The range does not depend on the trigonometric functions: in
    float64 arithmetic it is 0 at the observer's own position. *)
Example ECEFToAER_float_range_zero `{trig : Go.TrigLib} :
  exists aer,
    ECEFToAER (Some originFloat) (Some originFloat)
              (Some {| Lat := 0%float; Lon := 0%float; Alt := 0%float |})
    = Some aer
    /\ Range aer = 0%float.
Proof. eexists. split; reflexivity. Qed.



End ExactAER.

(** ** ground_track.go: the antimeridian split *)

Lemma prependTo_app c d segs :
  prependTo c (prependTo d segs) = prependTo (c ++ d)%list segs.
Proof. destruct segs; simpl; [reflexivity | now rewrite app_assoc]. Qed.

(** The loop carries its open segment in front of what the rest of the
    points produce. *)
Lemma splitLoop_open rest : forall prev segs c,
  splitLoop prev rest segs (c ++ [prev])%list
  = (segs ++ prependTo c (splitAtAntimeridian (prev :: rest)))%list.
Proof.
  induction rest as [|curr rest IH]; intros prev segs c.
  - simpl. rewrite length_app. simpl.
    replace (0 <? List.length c + 1)%nat with true
      by (symmetry; apply Nat.ltb_lt; lia).
    reflexivity.
  - cbn [splitAtAntimeridian splitLoop].
    destruct (crossesAntimeridian (tpLon prev) (tpLon curr)).
    + destruct (interpolateAntimeridian prev curr) as [bP bN].
      change [bN; curr] with ([bN] ++ [curr])%list.
      rewrite !IH. simpl. rewrite <- !app_assoc. reflexivity.
    + change ([prev] ++ [curr])%list with ([prev] ++ [curr])%list.
      rewrite (IH curr segs (c ++ [prev])%list).
      rewrite (IH curr [] [prev]).
      simpl. now rewrite prependTo_app.
Qed.

(** The first segment starts with the first point. *)
Lemma splitAtAntimeridian_head p rest :
  exists first others,
    splitAtAntimeridian (p :: rest) = (p :: first) :: others.
Proof.
  cbn [splitAtAntimeridian].
  assert (G : forall rest prev segs x cur,
    exists first others,
      splitLoop prev rest segs (x :: cur) = (segs ++ (x :: first) :: others)%list).
  { clear. induction rest as [|curr rest IH]; intros prev segs x cur.
    - simpl. eauto.
    - cbn [splitLoop]. destruct (crossesAntimeridian (tpLon prev) (tpLon curr)).
      + destruct (interpolateAntimeridian prev curr) as [bP bN].
        destruct (IH curr (segs ++ [(x :: cur) ++ [bP]])%list bN [curr])
          as (f & o & ->).
        exists (cur ++ [bP])%list, ((bN :: f) :: o). now rewrite <- app_assoc.
      + apply (IH curr segs x (cur ++ [curr])%list). }
  destruct (G rest p [] p []) as (f & o & ->). eauto.
Qed.

(** The last segment of a prefix ends with its last point. *)
Lemma splitLoop_last p1 pre : forall prev segs cur,
  exists segsL l,
    splitLoop prev (pre ++ [p1]) segs cur = (segsL ++ [l ++ [p1]])%list.
Proof.
  induction pre as [|q pre IH]; intros prev segs cur.
  - cbn [app splitLoop]. destruct (crossesAntimeridian (tpLon prev) (tpLon p1)).
    + destruct (interpolateAntimeridian prev p1) as [bP bN].
      exists (segs ++ [cur ++ [bP]])%list, [bN]. reflexivity.
    + exists segs, cur. rewrite length_app. simpl.
      replace (0 <? List.length cur + 1)%nat with true
        by (symmetry; apply Nat.ltb_lt; lia).
      reflexivity.
  - cbn [app splitLoop]. destruct (crossesAntimeridian (tpLon prev) (tpLon q)).
    + destruct (interpolateAntimeridian prev q) as [bP bN]. apply IH.
    + apply IH.
Qed.

(** The loop across a crossing between [p1] and [p2]. *)
Lemma splitLoop_crossing p1 p2 post pre : forall prev segs cur segsL l,
  crossesAntimeridian (tpLon p1) (tpLon p2) = true ->
  splitLoop prev (pre ++ [p1]) segs cur = (segsL ++ [l ++ [p1]])%list ->
  splitLoop prev (pre ++ p1 :: p2 :: post) segs cur
  = (segsL ++ [(l ++ [p1]) ++ [fst (interpolateAntimeridian p1 p2)]]
       ++ prependTo [snd (interpolateAntimeridian p1 p2)]
                    (splitAtAntimeridian (p2 :: post)))%list.
Proof.
  induction pre as [|q pre IH]; intros prev segs cur segsL l Hx Hpre.
  - cbn [app splitLoop] in *.
    destruct (crossesAntimeridian (tpLon prev) (tpLon p1)).
    + destruct (interpolateAntimeridian prev p1) as [bP bN].
      rewrite Hx. destruct (interpolateAntimeridian p1 p2) as [outB inB].
      cbn [fst snd].
      change [inB; p2] with ([inB] ++ [p2])%list.
      rewrite (splitLoop_open post p2 _ [inB]).
      change [bN; p1] with ([bN] ++ [p1])%list in Hpre.
      apply app_inj_tail in Hpre as [<- Hl]. apply app_inj_tail in Hl as [<- _].
      now rewrite <- !app_assoc.
    + rewrite Hx. destruct (interpolateAntimeridian p1 p2) as [outB inB].
      cbn [fst snd].
      change [inB; p2] with ([inB] ++ [p2])%list.
      rewrite (splitLoop_open post p2 _ [inB]).
      rewrite length_app in Hpre. simpl in Hpre.
      replace (0 <? List.length cur + 1)%nat with true in Hpre
        by (symmetry; apply Nat.ltb_lt; lia).
      apply app_inj_tail in Hpre as [<- Hl]. apply app_inj_tail in Hl as [<- _].
      now rewrite <- !app_assoc.
  - cbn [app splitLoop] in *.
    destruct (crossesAntimeridian (tpLon prev) (tpLon q)).
    + destruct (interpolateAntimeridian prev q) as [bP bN]. now apply IH.
    + now apply IH.
Qed.

Lemma interpolateAntimeridian_points p1 p2 :
  interpolateAntimeridian p1 p2
  = ({| tpLon := boundaryLon p1; tpLat := interpolatedLat p1 p2;
        TS := interpolatedTS p1 p2 |},
     {| tpLon := oppositeBoundaryLon p1; tpLat := interpolatedLat p1 p2;
        TS := interpolatedTS p1 p2 |}).
Proof.
  unfold interpolateAntimeridian, interpolatedLat, interpolatedTS,
    crossingParameter, unwrappedLon, boundaryLon, oppositeBoundaryLon.
  destruct (0 <? tpLon p1)%float; reflexivity.
Qed.

(** C6.  At a pair of consecutive points [p1], [p2] more than 270
    degrees of longitude apart, the segment that holds [p1] is closed
    with a boundary point and the next segment opens with a second
    boundary point followed by [p2]; the first is at +180 and the second
    at -180 when the longitude of [p1] is positive, the other way round
    otherwise; both carry the latitude and the timestamp interpolated
    linearly against the unwrapped longitude of [p2]. *)
Theorem splitAtAntimeridian_crossing
        (pre : list TrackPoint) (p1 p2 : TrackPoint) (post : list TrackPoint) :
  crossesAntimeridian (tpLon p1) (tpLon p2) = true ->
  crossingSplit pre p1 p2 post.
Proof.
  intros Hx. unfold crossingSplit.
  destruct (splitAtAntimeridian_head p2 post) as (firstR & segsR & HR).
  assert (HL : exists segsL lastL,
    splitAtAntimeridian (pre ++ [p1]) = (segsL ++ [lastL ++ [p1]])%list
    /\ splitAtAntimeridian (pre ++ p1 :: p2 :: post)
       = (segsL ++ [(lastL ++ [p1]) ++ [fst (interpolateAntimeridian p1 p2)]]
            ++ prependTo [snd (interpolateAntimeridian p1 p2)]
                         (splitAtAntimeridian (p2 :: post)))%list).
  { destruct pre as [|q pre].
    - exists [], []. split; [reflexivity|].
      cbn [app splitAtAntimeridian splitLoop]. rewrite Hx.
      destruct (interpolateAntimeridian p1 p2) as [outB inB]. cbn [fst snd].
      change [inB; p2] with ([inB] ++ [p2])%list.
      now rewrite (splitLoop_open post p2 _ [inB]).
    - cbn [app splitAtAntimeridian].
      destruct (splitLoop_last p1 pre q [] [q]) as (segsL & l & Hl).
      exists segsL, l. split; [exact Hl|].
      now apply splitLoop_crossing. }
  destruct HL as (segsL & lastL & HL1 & HL2).
  rewrite interpolateAntimeridian_points in HL2. cbn [fst snd] in HL2.
  rewrite HR in HL2. cbn [prependTo] in HL2.
  eexists segsL, lastL, firstR, segsR, _, _.
  split; [exact HL1|]. split; [exact HR|].
  split; [rewrite HL2; rewrite <- !app_assoc; reflexivity|].
  cbn [tpLon tpLat TS]. repeat split.
Qed.

Lemma splitAtAntimeridian_crossing_witness :
  crossingSplit [trackPoint 170 40 1000] (trackPoint 175 42 2000)
                (trackPoint (-175) 44 3000) [trackPoint (-170) 46 4000].
Proof.
  apply (splitAtAntimeridian_crossing
           [trackPoint 170 40 1000] (trackPoint 175 42 2000)
           (trackPoint (-175) 44 3000) [trackPoint (-170) 46 4000]).
  reflexivity.
Defined.

Example splitAtAntimeridian_example :
  splitAtAntimeridian
    [trackPoint 170 40 1000; trackPoint 175 42 2000;
     trackPoint (-175) 44 3000; trackPoint (-170) 46 4000]
  = [[trackPoint 170 40 1000; trackPoint 175 42 2000; trackPoint 180 43 2500];
     [trackPoint (-180) 43 2500; trackPoint (-175) 44 3000;
      trackPoint (-170) 46 4000]].
Proof. reflexivity. Qed.

(** ** ground_track.go: past and future *)

Lemma splitSegment_acc seg nowMs past future :
  splitSegment seg nowMs (past, future)
  = ((past ++ pastOf nowMs seg)%list, (future ++ futureOf nowMs seg)%list).
Proof.
  unfold pastOf, futureOf, splitSegment.
  destruct (List.length seg =? 0)%nat; [simpl; now rewrite !app_nil_r|].
  destruct (lastTS seg <? nowMs); [simpl; now rewrite !app_nil_r|].
  destruct (nowMs <=? firstTS seg); [simpl; now rewrite !app_nil_r|].
  destruct (findSplitIdx seg nowMs 0 <=? 0); [simpl; now rewrite !app_nil_r|].
  destruct (0 <? List.length (firstn _ seg))%nat;
  destruct (0 <? List.length (skipn _ seg))%nat; simpl; now rewrite ?app_nil_r.
Qed.

Lemma splitPastFuture_flat segments nowMs :
  splitPastFuture segments nowMs
  = (flat_map (pastOf nowMs) segments, flat_map (futureOf nowMs) segments).
Proof.
  unfold splitPastFuture.
  assert (G : forall past future,
    fold_left (fun acc seg => splitSegment seg nowMs acc) segments (past, future)
    = ((past ++ flat_map (pastOf nowMs) segments)%list,
       (future ++ flat_map (futureOf nowMs) segments)%list)).
  { induction segments as [|seg segments IH]; intros past future;
      cbn [fold_left flat_map].
    - now rewrite !app_nil_r.
    - rewrite splitSegment_acc, IH, <- !app_assoc. reflexivity. }
  apply G.
Qed.

Lemma findSplitIdx_first seg nowMs : forall i, 0 <= i ->
  (findSplitIdx seg nowMs i = -1 /\ allBefore nowMs seg)
  \/ (i <= findSplitIdx seg nowMs i
      /\ firstAtOrAfter nowMs seg (Z.to_nat (findSplitIdx seg nowMs i - i))).
Proof.
  induction seg as [|p seg IH]; intros i Hi; simpl.
  - left. split; [reflexivity | constructor].
  - destruct (nowMs <=? TS p) eqn:E.
    + right. split; [lia|]. rewrite Z.sub_diag. simpl.
      split; [constructor|]. exists p, seg. apply Z.leb_le in E. auto.
    + apply Z.leb_gt in E.
      destruct (IH (i + 1) ltac:(lia)) as [[H1 H2] | [H1 [H2 (q & rest & H3 & H4)]]].
      * left. split; [exact H1 | constructor; assumption].
      * right. split; [lia|].
        replace (Z.to_nat (findSplitIdx seg nowMs (i + 1) - i))
          with (S (Z.to_nat (findSplitIdx seg nowMs (i + 1) - (i + 1)))) by lia.
        simpl. split; [constructor; assumption | eauto].
Qed.

Lemma nonDecreasing_le_last seg p d :
  nonDecreasing seg -> In p seg -> TS p <= TS (List.last seg d).
Proof.
  intros Hs. apply Sorted_StronglySorted in Hs; [|intros x y z; lia].
  induction Hs as [|a l Hl IH Ha]; intros Hin; [destruct Hin|].
  destruct Hin as [-> | Hin].
  - destruct l as [|b l']; [simpl; lia|].
    rewrite List.Forall_forall in Ha.
    change (List.last (p :: b :: l') d) with (List.last (b :: l') d).
    apply Ha. clear. revert b. induction l' as [|c l' IH]; intros b; [left; reflexivity|].
    right. apply (IH c).
  - destruct l as [|b l']; [destruct Hin|].
    change (List.last (a :: b :: l') d) with (List.last (b :: l') d). auto.
Qed.

Lemma nonDecreasing_hd_le p rest :
  nonDecreasing (p :: rest) -> allFrom (TS p) (p :: rest).
Proof.
  intros Hs. apply Sorted_StronglySorted in Hs; [|intros x y z; lia].
  inversion Hs as [|a l Hl Ha]; subst.
  constructor; [lia | exact Ha].
Qed.

Lemma nonDecreasing_skipn k seg :
  nonDecreasing seg -> nonDecreasing (skipn k seg).
Proof.
  revert seg. induction k as [|k IH]; intros seg Hs; [exact Hs|].
  destruct seg as [|p seg]; [exact Hs|]. simpl.
  apply IH. now inversion Hs.
Qed.

Lemma allFrom_weaken a b seg : a <= b -> allFrom b seg -> allFrom a seg.
Proof.
  intros Hab H. unfold allFrom in *. rewrite List.Forall_forall in *.
  intros p Hp. specialize (H p Hp). lia.
Qed.

(** The four ways a segment is classified. *)
Lemma splitSegment_cases seg nowMs :
  (seg = [] /\ pastOf nowMs seg = [] /\ futureOf nowMs seg = [])
  \/ (seg <> [] /\ lastTS seg < nowMs
      /\ pastOf nowMs seg = [seg] /\ futureOf nowMs seg = [])
  \/ (seg <> [] /\ nowMs <= firstTS seg
      /\ pastOf nowMs seg = [] /\ futureOf nowMs seg = [seg])
  \/ (firstTS seg < nowMs <= lastTS seg
      /\ exists k, (0 < k < List.length seg)%nat
           /\ firstAtOrAfter nowMs seg k
           /\ pastOf nowMs seg = [firstn k seg]
           /\ futureOf nowMs seg = [skipn k seg]).
Proof.
  unfold pastOf, futureOf, splitSegment.
  destruct seg as [|p0 seg0] eqn:Hseg; [left; auto|]. rewrite <- Hseg.
  assert (Hne : seg <> []) by (subst; discriminate).
  assert (Hlen : (List.length seg =? 0)%nat = false) by (subst; reflexivity).
  rewrite Hlen.
  destruct (lastTS seg <? nowMs) eqn:E1.
  { right; left. apply Z.ltb_lt in E1. auto. }
  destruct (nowMs <=? firstTS seg) eqn:E2.
  { right; right; left. apply Z.leb_le in E2. auto. }
  right; right; right. apply Z.ltb_ge in E1. apply Z.leb_gt in E2.
  split; [lia|].
  destruct (findSplitIdx_first seg nowMs 0 ltac:(lia)) as [[H1 H2] | [H1 H2]].
  - exfalso. unfold allBefore in H2. rewrite List.Forall_forall in H2.
    assert (Hin : In (List.last seg {| tpLon := 0; tpLat := 0; TS := 0 |}) seg).
    { subst seg. clear. revert p0. induction seg0 as [|q l IH]; intros p0; [left; reflexivity|].
      right. apply (IH q). }
    specialize (H2 _ Hin). unfold lastTS in E1. lia.
  - rewrite Z.sub_0_r in H2.
    set (idx := findSplitIdx seg nowMs 0) in *.
    assert (Hpos : 0 < idx).
    { destruct (Z.eq_dec idx 0) as [Hz|]; [|lia]. exfalso.
      rewrite Hz in H2. destruct H2 as [_ (q & rest & H3 & H4)].
      simpl in H3. subst seg. injection H3 as <- <-. unfold firstTS in E2. simpl in E2. lia. }
    destruct (idx <=? 0) eqn:E3; [apply Z.leb_le in E3; lia|].
    pose proof H2 as [_ (q & rest & H3 & H4)].
    assert (Hk : (0 < Z.to_nat idx < List.length seg)%nat).
    { split; [lia|]. destruct (Nat.lt_ge_cases (Z.to_nat idx) (List.length seg)) as [|Hge]; [assumption|].
      rewrite skipn_all2 in H3 by lia. discriminate. }
    exists (Z.to_nat idx). split; [exact Hk|]. split; [exact H2|].
    rewrite length_firstn, H3. simpl List.length.
    replace (0 <? Nat.min (Z.to_nat idx) (List.length seg))%nat with true
      by (symmetry; apply Nat.ltb_lt; lia).
    simpl. rewrite <- H3. auto.
Qed.

Lemma nonDecreasing_first_le seg p :
  nonDecreasing seg -> In p seg -> firstTS seg <= TS p.
Proof.
  intros Hs Hin. destruct seg as [|q rest]; [destruct Hin|].
  apply nonDecreasing_hd_le in Hs. unfold allFrom in Hs.
  rewrite List.Forall_forall in Hs. apply (Hs p Hin).
Qed.

(** C7.  For segments with non-decreasing timestamps, every point of a
    past segment is before [nowMs], every future segment starts (and
    stays) at or after [nowMs], and a segment with points on both sides
    is cut at its first point at or after [nowMs], the left part going
    to the past and the right part to the future. *)
Theorem splitPastFuture_no_straddle
        (segments : list (list TrackPoint)) (nowMs : Z) :
  Forall nonDecreasing segments -> noStraddle segments nowMs.
Proof.
  intros Hsorted. unfold noStraddle. rewrite splitPastFuture_flat. cbn [fst snd].
  rewrite List.Forall_forall in Hsorted.
  split; [|split].
  - intros s Hs. apply in_flat_map in Hs as (seg & Hseg & Hs).
    specialize (Hsorted seg Hseg).
    destruct (splitSegment_cases seg nowMs)
      as [(_ & Hp & _) | [(_ & Hl & Hp & _) | [(_ & _ & Hp & _)
          | (_ & k & _ & [Hb _] & Hp & _)]]];
      rewrite Hp in Hs; simpl in Hs; try tauto;
      destruct Hs as [<- | []]; [|exact Hb].
    unfold allBefore. rewrite List.Forall_forall. intros p Hp'.
    pose proof (nonDecreasing_le_last seg p {| tpLon := 0; tpLat := 0; TS := 0 |}
                  Hsorted Hp') as Hle.
    unfold lastTS in Hl. lia.
  - intros s Hs. apply in_flat_map in Hs as (seg & Hseg & Hs).
    specialize (Hsorted seg Hseg).
    destruct (splitSegment_cases seg nowMs)
      as [(_ & _ & Hf) | [(_ & _ & _ & Hf) | [(Hne & Hfirst & _ & Hf)
          | (_ & k & _ & [_ (p & rest & Hsk & Hp)] & _ & Hf)]]];
      rewrite Hf in Hs; simpl in Hs; try tauto; destruct Hs as [<- | []].
    + destruct seg as [|p rest]; [congruence|]. unfold firstTS in Hfirst.
      simpl in Hfirst. split; [eauto|].
      apply (allFrom_weaken _ (TS p)); [exact Hfirst|].
      now apply nonDecreasing_hd_le.
    + rewrite Hsk. split; [eauto|].
      apply (allFrom_weaken _ (TS p)); [exact Hp|].
      apply nonDecreasing_hd_le. rewrite <- Hsk. now apply nonDecreasing_skipn.
  - intros seg Hseg (p & Hp & Hpb) (q & Hq & Hqa).
    specialize (Hsorted seg Hseg).
    pose proof (nonDecreasing_first_le seg p Hsorted Hp) as H1.
    pose proof (nonDecreasing_le_last seg q {| tpLon := 0; tpLat := 0; TS := 0 |}
                  Hsorted Hq) as H2.
    fold (lastTS seg) in H2.
    destruct (splitSegment_cases seg nowMs)
      as [(-> & _) | [(_ & Hl & _) | [(_ & Hfirst & _)
          | (_ & k & _ & Hk & Hpast & Hfut)]]];
      [destruct Hp | lia | lia |].
    exists k. split; [exact Hk|]. split; apply in_flat_map; exists seg;
      (split; [exact Hseg|]); [rewrite Hpast | rewrite Hfut]; now left.
Qed.

Lemma splitPastFuture_no_straddle_witness : noStraddle [exampleSegment] 2500.
Proof.
  apply (splitPastFuture_no_straddle [exampleSegment] 2500).
  repeat constructor; simpl; lia.
Defined.

Example splitPastFuture_example :
  splitPastFuture [exampleSegment] 2500
  = ([[trackPoint 10 50 1000; trackPoint 15 51 2000]],
     [[trackPoint 20 52 3000; trackPoint 25 53 4000]]).
Proof. reflexivity. Qed.

(** ** ground_track.go: generation *)

Lemma wrap64_small z : Go.minInt64 <= z <= Go.maxInt64 -> Go.wrap64 z = z.
Proof.
  unfold Go.wrap64, Go.minInt64, Go.maxInt64.
  change (2 ^ 63) with 9223372036854775808.
  change (2 ^ 64) with 18446744073709551616.
  intros H. rewrite Z.mod_small by lia. lia.
Qed.

Lemma samplesFrom_length n t step :
  List.length (samplesFrom n t step) = n.
Proof. revert t. induction n as [|n IH]; intros t; cbn; [|rewrite IH]; reflexivity. Qed.

Lemma sampleTimes_length start end_ step :
  0 < step -> start <= end_ ->
  Z.of_nat (List.length (sampleTimes start end_ step))
  = (end_ - start) / step + 1.
Proof.
  intros Hstep Hle. unfold sampleTimes. rewrite samplesFrom_length.
  assert (0 <= (end_ - start) / step) by (apply Z.div_pos; lia). lia.
Qed.

Lemma timeSub_forward t u :
  u <= t -> Go.timeSub t u = Z.min (t - u) Go.maxInt64.
Proof.
  intros H. unfold Go.timeSub, Go.maxInt64, Go.minInt64.
  change (2 ^ 63) with 9223372036854775808.
  destruct (9223372036854775808 - 1 <? t - u) eqn:E1.
  - apply Z.ltb_lt in E1. lia.
  - apply Z.ltb_ge in E1.
    destruct (t - u <? _) eqn:E2; [apply Z.ltb_lt in E2|]; lia.
Qed.

(** make accepts the capacity when the samples fit. *)
Lemma estimatedPoints_allocatable start end_ step :
  0 < step -> start <= end_ -> allocatable start end_ step ->
  Go.makeslicePanics trackPointSize (estimatedPoints start end_ step) = false.
Proof.
  intros Hstep Hle Ha. unfold allocatable in Ha.
  rewrite sampleTimes_length in Ha by assumption.
  change (2 ^ 48) with 281474976710656 in Ha.
  unfold Go.makeslicePanics, estimatedPoints, trackPointSize, Go.maxAlloc.
  change (2 ^ 48) with 281474976710656.
  rewrite timeSub_forward by exact Hle.
  set (d := Z.min (end_ - start) Go.maxInt64).
  assert (Hd : 0 <= d <= end_ - start).
  { unfold d, Go.maxInt64. change (2 ^ 63) with 9223372036854775808. lia. }
  rewrite Z.quot_div_nonneg by lia.
  assert (Hq : 0 <= d / step <= (end_ - start) / step).
  { split; [apply Z.div_pos; lia | apply Z.div_le_mono; lia]. }
  rewrite wrap64_small
    by (unfold Go.minInt64, Go.maxInt64;
        change (2 ^ 63) with 9223372036854775808; lia).
  apply orb_false_iff. split; apply Z.ltb_ge; lia.
Qed.

(** make refuses it when the samples of an interval that a Duration
    holds do not fit. *)
Lemma estimatedPoints_panics start end_ step :
  0 < step -> start <= end_ -> end_ - start <= Go.maxInt64 ->
  ~ allocatable start end_ step ->
  Go.makeslicePanics trackPointSize (estimatedPoints start end_ step) = true.
Proof.
  intros Hstep Hle Hfit Hna. unfold allocatable in Hna.
  rewrite sampleTimes_length in Hna by assumption.
  change (2 ^ 48) with 281474976710656 in Hna.
  unfold Go.makeslicePanics, estimatedPoints, trackPointSize, Go.maxAlloc.
  change (2 ^ 48) with 281474976710656.
  rewrite timeSub_forward by exact Hle.
  rewrite Z.min_l by exact Hfit.
  rewrite Z.quot_div_nonneg by lia.
  assert (Hq : 0 <= (end_ - start) / step <= end_ - start).
  { split; [apply Z.div_pos; lia|].
    apply Z.div_le_upper_bound; [lia|]. nia. }
  unfold Go.maxInt64 in Hfit. change (2 ^ 63) with 9223372036854775808 in Hfit.
  destruct (Z.eq_dec ((end_ - start) / step + 1) 9223372036854775808) as [E|E].
  - rewrite E. reflexivity.
  - rewrite wrap64_small
      by (unfold Go.minInt64, Go.maxInt64;
          change (2 ^ 63) with 9223372036854775808; lia).
    apply orb_true_iff. right. apply Z.ltb_lt. lia.
Qed.

(** The points of the segments of the antimeridian split are the points
    of the list with the boundary points of its crossings. *)
Lemma splitLoop_concat rest : forall prev segs cur,
  concat (splitLoop prev rest segs cur)
  = (concat segs ++ cur ++ withBoundariesFrom prev rest)%list.
Proof.
  induction rest as [|curr rest IH]; intros prev segs cur;
    cbn [splitLoop withBoundariesFrom].
  - destruct cur as [|c cur]; cbn [List.length Nat.ltb Nat.leb].
    + now rewrite !app_nil_r.
    + rewrite concat_app. cbn [concat]. now rewrite !app_nil_r.
  - destruct (crossesAntimeridian (tpLon prev) (tpLon curr)).
    + rewrite interpolateAntimeridian_points. rewrite IH.
      rewrite concat_app. cbn [concat]. rewrite app_nil_r.
      unfold outgoingBoundary, incomingBoundary.
      rewrite <- !app_assoc. reflexivity.
    + rewrite IH. rewrite <- !app_assoc. reflexivity.
Qed.

Lemma splitAtAntimeridian_concat points :
  concat (splitAtAntimeridian points) = withBoundaries points.
Proof.
  destruct points as [|p0 rest]; [reflexivity|].
  cbn [splitAtAntimeridian withBoundaries]. now rewrite splitLoop_concat.
Qed.

Lemma splitSegment_points seg nowMs :
  (concat (pastOf nowMs seg) ++ concat (futureOf nowMs seg))%list = seg.
Proof.
  destruct (splitSegment_cases seg nowMs)
    as [(-> & -> & ->) | [(_ & _ & -> & ->) | [(_ & _ & -> & ->)
        | (_ & k & _ & _ & -> & ->)]]]; cbn; rewrite ?app_nil_r; try reflexivity.
  apply firstn_skipn.
Qed.

(** The points of the two sides are those of the segments. *)
Lemma splitPastFuture_points segments nowMs :
  Permutation
    (concat (fst (splitPastFuture segments nowMs))
     ++ concat (snd (splitPastFuture segments nowMs)))%list
    (concat segments).
Proof.
  rewrite splitPastFuture_flat. cbn [fst snd].
  induction segments as [|seg segments IH]; [reflexivity|].
  cbn [flat_map concat]. rewrite !concat_app.
  rewrite <- (splitSegment_points seg nowMs) at 3.
  rewrite <- IH.
  rewrite <- !app_assoc. apply Permutation_app_head.
  rewrite !app_assoc. apply Permutation_app_tail.
  apply Permutation_app_comm.
Qed.

Section GroundTrackFacts.
Context `{trig : Go.TrigLib} `{kernel : satellite.Kernel}.

Lemma collectedPoints_truncates prop before t after :
  Forall (fun u => isOk (Propagate (Some prop) u) = true) before ->
  isOk (Propagate (Some prop) t) = false ->
  collectedPoints prop (before ++ t :: after)
  = collectedPoints prop before
  /\ List.length (collectedPoints prop before) = List.length before.
Proof.
  induction before as [|u before IH]; intros Hok Hfail; cbn [app collectedPoints].
  - destruct (Propagate (Some prop) t); [discriminate|]. auto.
  - inversion Hok as [|? ? Hu Hrest]; subst.
    destruct (Propagate (Some prop) u); [|discriminate].
    destruct (IH Hrest Hfail) as [-> Hlen]. simpl. auto.
Qed.

Lemma samplesFrom_step start end_ step :
  0 < step -> start <= end_ ->
  sampleTimes start end_ step = start :: sampleTimes (start + step) end_ step.
Proof.
  intros Hstep Hle. unfold sampleTimes.
  replace (end_ - (start + step)) with ((end_ - start) + (-1) * step) by lia.
  rewrite Z.div_add by lia.
  assert (0 <= (end_ - start) / step) by (apply Z.div_pos; lia).
  replace (Z.to_nat ((end_ - start) / step + 1))
    with (S (Z.to_nat ((end_ - start) / step + -1 + 1))) by lia.
  reflexivity.
Qed.

Lemma sampleTimes_after start end_ step :
  0 < step -> end_ < start -> start - step <= end_ ->
  sampleTimes start end_ step = [].
Proof.
  intros Hstep Hlt Hge. unfold sampleTimes.
  assert ((end_ - start) / step = -1).
  { symmetry. apply Z.div_unique with (r := end_ - start + step); lia. }
  replace (Z.to_nat ((end_ - start) / step + 1)) with 0%nat by lia.
  reflexivity.
Qed.

(** The loop, once it holds a point, returns its points and those of the
    samples still to come, up to the first failure. *)
Lemma trackLoop_collects prop end_ step (Hstep : 0 < step) :
  forall fuel t points,
    t - step <= end_ ->
    (Z.to_nat ((end_ - t) / step + 1) < fuel)%nat ->
    points <> [] ->
    trackLoop fuel prop t end_ step points
    = Some (Ok (points ++ collectedPoints prop (sampleTimes t end_ step))%list).
Proof.
  induction fuel as [|fuel IH]; intros t points Hlow Hfuel Hne; [lia|].
  cbn [trackLoop]. unfold Go.timeAfter.
  destruct (end_ <? t) eqn:E.
  - apply Z.ltb_lt in E. rewrite sampleTimes_after by lia.
    simpl. now rewrite app_nil_r.
  - apply Z.ltb_ge in E. rewrite samplesFrom_step by lia.
    cbn [collectedPoints].
    destruct (Propagate (Some prop) t) as [eci|err].
    + unfold Go.timeAdd. rewrite IH.
      * now rewrite <- app_assoc.
      * lia.
      * assert (Hs := samplesFrom_step t end_ step Hstep E).
        unfold sampleTimes in Hs at 1.
        assert (0 <= (end_ - t) / step) by (apply Z.div_pos; lia).
        replace (end_ - (t + step)) with ((end_ - t) + (-1) * step) by lia.
        rewrite Z.div_add by lia. lia.
      * destruct points; discriminate.
    + destruct points as [|q points]; [congruence|].
      simpl. now rewrite app_nil_r.
Qed.

(** The loop returns, and what it returns is decided by the first
    sample. *)
Lemma trackLoop_first prop start end_ step :
  0 < step -> start <= end_ ->
  trackLoop (trackFuel start end_ step) prop start end_ step []
  = match Propagate (Some prop) start with
    | Err err => Some (Err (ErrPropagationAt start err))
    | Ok _ =>
        Some (Ok (collectedPoints prop (sampleTimes start end_ step)))
    end.
Proof.
  intros Hstep Hle. unfold trackFuel.
  assert (H0 : 0 <= (end_ - start) / step) by (apply Z.div_pos; lia).
  replace (Z.to_nat ((end_ - start) / step + 2))
    with (S (Z.to_nat ((end_ - start) / step + 1))) by lia.
  cbn [trackLoop]. unfold Go.timeAfter.
  replace (end_ <? start) with false by (symmetry; apply Z.ltb_ge; lia).
  rewrite (samplesFrom_step start end_ step Hstep Hle).
  cbn [collectedPoints].
  destruct (Propagate (Some prop) start) as [eci|err]; [|reflexivity].
  unfold Go.timeAdd. rewrite trackLoop_collects; [reflexivity | lia | lia | | discriminate].
  replace (end_ - (start + step)) with ((end_ - start) + (-1) * step) by lia.
  rewrite Z.div_add by lia. lia.
Qed.

(** When make accepts the capacity, generateTrackPoints is its loop. *)
Lemma generateTrackPoints_first prop start end_ step :
  0 < step -> start <= end_ -> allocatable start end_ step ->
  generateTrackPoints prop start end_ step
  = match Propagate (Some prop) start with
    | Err err => Some (Err (ErrPropagationAt start err))
    | Ok _ =>
        Some (Ok (collectedPoints prop (sampleTimes start end_ step)))
    end.
Proof.
  intros Hstep Hle Ha. unfold generateTrackPoints.
  replace (step =? 0) with false by (symmetry; apply Z.eqb_neq; lia).
  rewrite estimatedPoints_allocatable by assumption.
  now apply trackLoop_first.
Qed.

(** When it does not, generateTrackPoints panics. *)
Lemma generateTrackPoints_panics prop start end_ step :
  0 < step -> start <= end_ -> end_ - start <= Go.maxInt64 ->
  ~ allocatable start end_ step ->
  generateTrackPoints prop start end_ step = None.
Proof.
  intros Hstep Hle Hfit Hna. unfold generateTrackPoints.
  replace (step =? 0) with false by (symmetry; apply Z.eqb_neq; lia).
  now rewrite estimatedPoints_panics.
Qed.

(** The only error of generateTrackPoints is the failure of the first
    sample. *)
Lemma generateTrackPoints_error prop start end_ step e :
  0 < step -> start <= end_ ->
  generateTrackPoints prop start end_ step = Some (Err e) ->
  exists err,
    Propagate (Some prop) start = Err err /\ e = ErrPropagationAt start err.
Proof.
  intros Hstep Hle. unfold generateTrackPoints.
  destruct (step =? 0); [discriminate|].
  destruct (Go.makeslicePanics _ _); [discriminate|].
  rewrite trackLoop_first by assumption.
  destruct (Propagate (Some prop) start) as [eci|err]; [discriminate|].
  intros [= <-]. now exists err.
Qed.

Lemma collectedPoints_nonempty prop t rest eci :
  Propagate (Some prop) t = Ok eci ->
  (List.length (collectedPoints prop (t :: rest)) =? 0)%nat = false.
Proof. intros H. cbn [collectedPoints]. now rewrite H. Qed.

Lemma collectedPoints_each prop times :
  Forall (fun u => isOk (Propagate (Some prop) u) = true) times ->
  Forall2 (fun u p => exists eci,
             Propagate (Some prop) u = Ok eci /\ p = trackPointOf eci u)
          times (collectedPoints prop times).
Proof.
  induction 1 as [|u times Hu _ IH]; cbn [collectedPoints]; [constructor|].
  destruct (Propagate (Some prop) u) as [eci|] eqn:E; [|discriminate].
  constructor; [now exists eci | exact IH].
Qed.

(** The track assembled from a list of points is built from them. *)
Lemma trackOf_builtFrom tle points now :
  builtFrom tle points (trackOf tle points now).
Proof.
  split; [reflexivity|]. unfold trackOf. cbn [Past Future].
  rewrite <- splitAtAntimeridian_concat. apply splitPastFuture_points.
Qed.

(** GenerateGroundTrack past the tests of its arguments. *)
Lemma GenerateGroundTrack_run tle prop start end_ now step :
  0 < step -> start <> end_ ->
  NewPropagator (Some tle) = Ok prop ->
  GenerateGroundTrack (Some tle) start end_ now step
  = match generateTrackPoints prop (Z.min start end_) (Z.max start end_) step
    with
    | None => None
    | Some (Err err) => Some (Err err)
    | Some (Ok allPoints) =>
        if (List.length allPoints =? 0)%nat
        then Some (Ok {| Past := []; Future := []; gtNoradID := NoradID tle |})
        else Some (Ok (trackOf tle allPoints now))
    end.
Proof.
  intros Hstep Hne Hprop. unfold GenerateGroundTrack.
  replace (step <=? 0) with false by (symmetry; apply Z.leb_gt; lia).
  unfold Go.timeEqual, Go.timeBefore.
  replace (start =? end_) with false by (symmetry; apply Z.eqb_neq; lia).
  rewrite Hprop.
  assert (G : forall a b,
    match generateTrackPoints prop a b step with
    | Some (Ok allPoints) =>
        if (List.length allPoints =? 0)%nat
        then Some (Ok {| Past := []; Future := []; gtNoradID := NoradID tle |})
        else
          let segments := splitAtAntimeridian allPoints in
          let nowMs := Go.UnixMilli now in
          let '(past, future) := splitPastFuture segments nowMs in
          Some (Ok {| Past := past; Future := future;
                      gtNoradID := NoradID tle |})
    | Some (Err err) => Some (Err err)
    | None => None
    end
    = match generateTrackPoints prop a b step with
      | None => None
      | Some (Err err) => Some (Err err)
      | Some (Ok allPoints) =>
          if (List.length allPoints =? 0)%nat
          then Some (Ok {| Past := []; Future := [];
                           gtNoradID := NoradID tle |})
          else Some (Ok (trackOf tle allPoints now))
      end).
  { intros a b. destruct (generateTrackPoints prop a b step) as [[pts|e]|];
      try reflexivity.
    destruct (List.length pts =? 0)%nat; [reflexivity|].
    unfold trackOf. cbv zeta. now destruct (splitPastFuture _ _). }
  destruct (end_ <? start) eqn:E.
  - apply Z.ltb_lt in E. rewrite Z.min_r, Z.max_l by lia. apply G.
  - apply Z.ltb_ge in E. rewrite Z.min_l, Z.max_r by lia. apply G.
Qed.

Lemma GenerateGroundTrack_first tle prop start end_ now step :
  0 < step -> start <> end_ ->
  NewPropagator (Some tle) = Ok prop ->
  allocatable (Z.min start end_) (Z.max start end_) step ->
  GenerateGroundTrack (Some tle) start end_ now step
  = match Propagate (Some prop) (Z.min start end_) with
    | Err err => Some (Err (ErrPropagationAt (Z.min start end_) err))
    | Ok _ =>
        Some (Ok (trackOf tle
                    (collectedPoints prop
                       (sampleTimes (Z.min start end_) (Z.max start end_) step))
                    now))
    end.
Proof.
  intros Hstep Hne Hprop Ha.
  rewrite (GenerateGroundTrack_run tle prop) by assumption.
  rewrite generateTrackPoints_first by (try assumption; lia).
  destruct (Propagate (Some prop) (Z.min start end_)) as [eci|err] eqn:E;
    [|reflexivity].
  rewrite samplesFrom_step by lia.
  now rewrite (collectedPoints_nonempty prop _ _ eci E).
Qed.


End GroundTrackFacts.


Example GenerateGroundTrack_truncated_run :
  exists track,
    @GenerateGroundTrack firstOrderTrig decayingKernel (Some issRecord)
      noon (noon + 4 * Go.Minute) (noon + Go.Minute) (30 * Go.Second)
    = Some (Ok track)
    /\ List.length (concat (Past track ++ Future track)) = 4%nat
    /\ List.length (sampleTimes noon (noon + 4 * Go.Minute) (30 * Go.Second)) = 9%nat.
Proof. eexists. vm_compute. repeat split. Qed.

(** With a step of one nanosecond over four hours the first sample
    propagates and the sample two minutes later does not, yet no track
    is returned: the capacity asked of make is out of range, and the
    call panics before the first sample. *)
Lemma GenerateGroundTrack_panics_in_make :
  isOk (@Propagate decayingKernel
          (Some (@mkPropagator decayingKernel issRecord tt GravityWGS84)) noon)
  = true
  /\ isOk (@Propagate decayingKernel
             (Some (@mkPropagator decayingKernel issRecord tt GravityWGS84))
             (noon + 2 * Go.Minute))
     = false
  /\ (exists k, 0 < k <= (noon + 4 * Go.Hour - noon) / Go.Nanosecond
                /\ noon + 2 * Go.Minute = noon + k * Go.Nanosecond)
  /\ @estimatedPoints noon (noon + 4 * Go.Hour) Go.Nanosecond = 14400000000001
  /\ Go.makeslicePanics trackPointSize 14400000000001 = true
  /\ @GenerateGroundTrack firstOrderTrig decayingKernel (Some issRecord)
       noon (noon + 4 * Go.Hour) noon Go.Nanosecond
     = None.
Proof.
  split; [reflexivity|]. split; [reflexivity|].
  split; [exists 120000000000; vm_compute; repeat split; discriminate|].
  split; [reflexivity|]. split; reflexivity.
Qed.

(** ** celestrak.go *)

Lemma retryable_cases :
  retryable TransportFailure
  /\ (forall body, retryable (Response StatusTooManyRequests body))
  /\ (forall status body, 500 <= status -> retryable (Response status body)).
Proof.
  split; [|split].
  - eexists. split; reflexivity.
  - intros body. eexists. split; reflexivity.
  - intros status body H. unfold retryable, doRequest, StatusOK, StatusNotFound,
      StatusTooManyRequests.
    replace (status =? 200) with false by (symmetry; apply Z.eqb_neq; lia).
    replace (status =? 404) with false by (symmetry; apply Z.eqb_neq; lia).
    destruct (status =? 429); [eexists; split; reflexivity|].
    replace (500 <=? status) with true by (symmetry; apply Z.leb_le; lia).
    eexists; split; reflexivity.
Qed.

Lemma notFound_cases :
  (forall body, notFound (Response StatusNotFound body))
  /\ notFound (Response StatusOK (Some "No GP data found")).
Proof. split; [intros body|]; reflexivity. Qed.

Lemma requests_app evs1 evs2 :
  requests (evs1 ++ evs2) = (requests evs1 + requests evs2)%nat.
Proof. unfold requests. now rewrite List.filter_app, length_app. Qed.

Lemma fetchLoop_requests c up remaining : forall attempt lastErr,
  (requests (snd (fetchLoop c up remaining attempt lastErr)) <= remaining)%nat.
Proof.
  induction remaining as [|r IH]; intros attempt lastErr; cbn [fetchLoop].
  - cbn. lia.
  - destruct ((0 <? attempt) && ctxDone up attempt); [cbn; lia|].
    assert (Hs : requests (if 0 <? attempt then [EvSleep (backoff attempt)] else []) = 0%nat)
      by (destruct (0 <? attempt); reflexivity).
    destruct (doRequest (exchange up attempt)) as [data|err].
    + cbn [snd]. rewrite requests_app, Hs.
      change (requests [EvRequest attempt]) with 1%nat. lia.
    + destruct (isNotFound err).
      * cbn [snd]. rewrite requests_app, Hs.
        change (requests [EvRequest attempt]) with 1%nat. lia.
      * specialize (IH (attempt + 1) (Some err)).
        destruct (fetchLoop c up r (attempt + 1) (Some err)) as [res evs].
        cbn [snd] in *. rewrite requests_app, Hs.
        change (requests (EvRequest attempt :: evs)) with (S (requests evs)). lia.
Qed.

Lemma backoff_seconds attempt :
  1 <= attempt <= 34 -> backoff attempt = 2 ^ (attempt - 1) * Go.Second.
Proof.
  intros H. unfold backoff, shl1, Go.wrap64, Go.Second.
  replace (attempt - 1 <? 64) with true by (symmetry; apply Z.ltb_lt; lia).
  assert (H1 : 1 <= 2 ^ (attempt - 1) <= 2 ^ 33).
  { split; [|apply Z.pow_le_mono_r; lia].
    assert (0 < 2 ^ (attempt - 1)) by (apply Z.pow_pos_nonneg; lia). lia. }
  change (2 ^ 33) with 8589934592 in H1.
  change (2 ^ 63) with 9223372036854775808.
  change (2 ^ 64) with 18446744073709551616.
  rewrite (Z.mod_small (2 ^ (attempt - 1) + _)) by lia.
  rewrite Z.mod_small by lia. lia.
Qed.

(** After [m] retryable failures, with attempts left and the context
    alive, the loop has made them in schedule and goes on. *)
Lemma fetchLoop_retries c up m : forall remaining attempt lastErr,
  0 <= attempt ->
  (forall j, attempt <= j < attempt + Z.of_nat m -> retryable (exchange up j)) ->
  (forall j, attempt <= j < attempt + Z.of_nat m -> 0 < j -> ctxDone up j = false) ->
  (m <= remaining)%nat ->
  exists lastErr',
    fetchLoop c up remaining attempt lastErr
    = (fst (fetchLoop c up (remaining - m) (attempt + Z.of_nat m) lastErr'),
       (schedule m attempt
          ++ snd (fetchLoop c up (remaining - m) (attempt + Z.of_nat m) lastErr'))%list)
    /\ (m = 0%nat -> lastErr' = lastErr)
    /\ (m <> 0%nat -> exists err,
          lastErr' = Some err
          /\ doRequest (exchange up (attempt + Z.of_nat m - 1)) = Err err).
Proof.
  induction m as [|m IH]; intros remaining attempt lastErr Ha Hretry Hctx Hrem.
  - exists lastErr. rewrite Nat.sub_0_r, Z.add_0_r. cbn [schedule app].
    split; [now destruct (fetchLoop c up remaining attempt lastErr)|].
    split; [reflexivity | congruence].
  - destruct remaining as [|r]; [lia|]. cbn [fetchLoop schedule].
    destruct (Hretry attempt ltac:(lia)) as (err & Herr & Hnf).
    assert (Hc : (0 <? attempt) && ctxDone up attempt = false).
    { destruct (0 <? attempt) eqn:E; [|reflexivity]. apply Z.ltb_lt in E.
      rewrite Hctx by lia. reflexivity. }
    rewrite Hc, Herr, Hnf.
    destruct (IH r (attempt + 1) (Some err) ltac:(lia)) as (last' & Heq & H0 & HS).
    { intros j Hj. apply Hretry. lia. }
    { intros j Hj Hpos. apply Hctx; lia. }
    { lia. }
    exists last'. rewrite Heq.
    replace (attempt + 1 + Z.of_nat m) with (attempt + Z.of_nat (S m)) by lia.
    replace (S r - S m)%nat with (r - m)%nat by lia.
    split; [cbn [fst snd]; now rewrite <- app_assoc|].
    split; [discriminate|]. intros _.
    destruct m as [|m'].
    + exists err. rewrite (H0 eq_refl).
      replace (attempt + Z.of_nat 1 - 1) with attempt by lia. auto.
    + destruct (HS ltac:(discriminate)) as (e & -> & He).
      exists e. split; [reflexivity|].
      replace (attempt + Z.of_nat (S (S m')) - 1)
        with (attempt + 1 + Z.of_nat (S m') - 1) by lia. exact He.
Qed.

Lemma schedule_snoc m : forall attempt,
  schedule (S m) attempt
  = (schedule m attempt
       ++ (if 0 <? attempt + Z.of_nat m
           then [EvSleep (backoff (attempt + Z.of_nat m))] else [])
       ++ [EvRequest (attempt + Z.of_nat m)])%list.
Proof.
  induction m as [|m IH]; intros attempt.
  - cbn [schedule app Z.of_nat]. rewrite Z.add_0_r. reflexivity.
  - change (schedule (S (S m)) attempt)
      with ((if 0 <? attempt then [EvSleep (backoff attempt)] else [])
              ++ EvRequest attempt :: schedule (S m) (attempt + 1))%list.
    rewrite IH. cbn [schedule].
    replace (attempt + 1 + Z.of_nat m) with (attempt + Z.of_nat (S m)) by lia.
    now rewrite <- !app_assoc.
Qed.

(** One more attempt, when one is left and the context is alive. *)
Lemma fetchLoop_attempt c up r attempt lastErr :
  (0 <? attempt) && ctxDone up attempt = false ->
  exists evs,
    snd (fetchLoop c up (S r) attempt lastErr)
    = ((if 0 <? attempt then [EvSleep (backoff attempt)] else [])
         ++ [EvRequest attempt] ++ evs)%list
    /\ (notFound (exchange up attempt) ->
        fetchLoop c up (S r) attempt lastErr
        = (Err (ErrRequest ErrCelestrakNotFound),
           ((if 0 <? attempt then [EvSleep (backoff attempt)] else [])
              ++ [EvRequest attempt])%list)).
Proof.
  intros Hc. cbn [fetchLoop]. rewrite Hc. unfold notFound.
  destruct (doRequest (exchange up attempt)) as [data|err].
  - exists []. split; [reflexivity | discriminate].
  - destruct (isNotFound err) eqn:E.
    + exists []. split; [reflexivity|]. intros [= ->]. reflexivity.
    + destruct (fetchLoop c up r (attempt + 1) (Some err)) as [res evs].
      exists evs. split; [reflexivity|]. intros [= ->]. discriminate.
Qed.

(** C3, as the code has it.  A fetch of a client with [maxRetries = N]
    makes at most N + 1 requests; after a transport error, a 429 or a 5xx
    answer it sleeps 2^(attempt-1) seconds, unless the context is done
    first, and tries again while attempts are left; a 404 answer and the
    body "No GP data found" give the not-found error and no further
    request. *)
Theorem fetch_retry_policy (c : CelestrakClient) (up : Upstream) :
  retryPolicy c up.
Proof.
  unfold retryPolicy.
  split; [|split; [|split; [exact backoff_seconds
                           |split; [exact retryable_cases | exact notFound_cases]]]].
  - unfold fetch.
    pose proof (fetchLoop_requests c up (Z.to_nat (maxRetries c + 1)) 0 None) as H.
    destruct (fetchLoop c up (Z.to_nat (maxRetries c + 1)) 0 None) as [r evs].
    exact H.
  - intros m Hm Hretry Hctx.
    destruct (fetchLoop_retries c up m (Z.to_nat (maxRetries c + 1)) 0 None)
      as (last' & Heq & _); [lia | intros; apply Hretry; lia
                             | intros; apply Hctx; lia | lia |].
    rewrite Z.add_0_l in Heq.
    assert (Hrem : exists r, (Z.to_nat (maxRetries c + 1) - m)%nat = S r)
      by (exists (Z.to_nat (maxRetries c + 1) - m - 1)%nat; lia).
    destruct Hrem as [r Hr]. rewrite Hr in Heq.
    assert (Halive : ctxDone up (Z.of_nat m) = false \/ m = 0%nat ->
                     (0 <? Z.of_nat m) && ctxDone up (Z.of_nat m) = false).
    { intros [-> | ->]; [apply andb_false_r | reflexivity]. }
    unfold fetch. rewrite Heq. cbn [fst snd]. split; [|split].
    + intros Ha.
      destruct (fetchLoop_attempt c up r (Z.of_nat m) last' (Halive Ha))
        as (evs & Hevs & _).
      exists evs. rewrite Hevs, schedule_snoc, Z.add_0_l.
      now rewrite <- ?app_assoc.
    + intros Ha Hnf.
      destruct (fetchLoop_attempt c up r (Z.of_nat m) last' (Halive Ha))
        as (evs & _ & Hfinal).
      rewrite (Hfinal Hnf). cbn [fst snd]. rewrite schedule_snoc, Z.add_0_l.
      now rewrite <- ?app_assoc.
    + intros Hdone Hm0. cbn [fetchLoop].
      replace (0 <? Z.of_nat m) with true by (symmetry; apply Z.ltb_lt; lia).
      rewrite Hdone. cbn [andb fst snd]. now rewrite app_nil_r.
Qed.

Lemma fetch_makes_four_attempts :
  requests (snd (fetch {| maxRetries := DefaultMaxRetries |} alwaysFailing)) = 4%nat
  /\ fst (fetch {| maxRetries := DefaultMaxRetries |} alwaysFailing)
     = Err (ErrAfterRetries 3 (Some (ErrCelestrakServerError 500))).
Proof. split; reflexivity. Qed.

Example fetch_third_attempt_succeeds :
  fetch {| maxRetries := 3 |}
        {| exchange := fun k => if k <? 2 then Response 500 None
                                else Response 200 (Some "body");
           ctxDone := fun _ => false |}
  = (Ok "body",
     [EvRateLimitWait; EvRequest 0; EvSleep Go.Second; EvRequest 1;
      EvSleep (2 * Go.Second); EvRequest 2]).
Proof. reflexivity. Qed.

(** ** tle_store.go *)

Lemma Contains_In ids id : Contains ids id = true <-> In id ids.
Proof.
  induction ids as [|x ids IH]; simpl; [split; [discriminate | tauto]|].
  rewrite orb_true_iff, Z.eqb_eq, IH. tauto.
Qed.

Lemma Contains_snoc ids id : Contains (ids ++ [id]) id = true.
Proof. apply Contains_In, in_or_app. right. now left. Qed.

Lemma addToIndex_idempotent (index : gmap string (list Z)) key id :
  addToIndex (addToIndex index key id) key id = addToIndex index key id.
Proof.
  unfold addToIndex at 2. set (ids := default [] (index !! key)).
  destruct (Contains ids id) eqn:E.
  - unfold addToIndex. fold ids. now rewrite E.
  - unfold addToIndex. rewrite lookup_insert_eq.
    change (default [] (Some (ids ++ [id])%list)) with (ids ++ [id])%list.
    rewrite Contains_snoc. fold ids. now rewrite E.
Qed.

Lemma addToIndex_NoDup (index : gmap string (list Z)) key id :
  indexNoDup index -> indexNoDup (addToIndex index key id).
Proof.
  intros Hnd. unfold addToIndex.
  destruct (Contains (default [] (index !! key)) id) eqn:E; [exact Hnd|].
  intros k ids Hk. destruct (decide (key = k)) as [->|Hne].
  - rewrite lookup_insert_eq in Hk. injection Hk as <-.
    assert (Hold : List.NoDup (default [] (index !! k))).
    { destruct (index !! k) as [l|] eqn:El; [exact (Hnd k l El) | constructor]. }
    assert (Hnot : ~ In id (default [] (index !! k))).
    { intros Hin. apply Contains_In in Hin. congruence. }
    clear -Hold Hnot. induction Hold as [|x l Hx Hl IH]; simpl.
    + constructor; [tauto | constructor].
    + constructor.
      * rewrite in_app_iff. simpl. intros [H | [H | []]]; [tauto|].
        subst. apply Hnot. now left.
      * apply IH. intros H. apply Hnot. now right.
  - rewrite lookup_insert_ne in Hk by exact Hne. exact (Hnd k ids Hk).
Qed.

Section StoreFacts.
Context `{uc : Unicode.Case}.

Lemma addInternal_idempotent s tle group :
  addInternal (addInternal s tle group) tle group = addInternal s tle group.
Proof.
  destruct tle as [tle|]; [|reflexivity]. unfold addInternal.
  cbn [catalog byGroup byName]. f_equal.
  - apply insert_insert_eq.
  - destruct (negb (String.eqb group "")); [apply addToIndex_idempotent | reflexivity].
  - destruct (negb (String.eqb (Name tle) ""));
      [apply addToIndex_idempotent | reflexivity].
Qed.

Lemma addInternal_NoDup s tle group :
  noDuplicateIDs s -> noDuplicateIDs (addInternal s tle group).
Proof.
  intros [Hg Hn]. destruct tle as [tle|]; [|split; assumption].
  unfold addInternal, noDuplicateIDs. cbn [byGroup byName]. split.
  - destruct (negb (String.eqb group "")); [now apply addToIndex_NoDup | exact Hg].
  - destruct (negb (String.eqb (Name tle) ""));
      [now apply addToIndex_NoDup | exact Hn].
Qed.

Lemma storeAfter_NoDup ops : noDuplicateIDs (storeAfter ops).
Proof.
  unfold storeAfter.
  assert (G : forall s, noDuplicateIDs s ->
    noDuplicateIDs (fold_left (fun s op => addInternal s (fst op) (snd op)) ops s)).
  { induction ops as [|op ops IH]; intros s Hs; [exact Hs|].
    cbn [fold_left]. apply IH. now apply addInternal_NoDup. }
  apply G. split; intros key ids H; cbn [NewTLEStore byGroup byName] in H;
    rewrite lookup_empty in H; discriminate.
Qed.

(** C9.  Adding a record a second time, with Add or with AddWithGroup
    under the same group, changes nothing: the catalog and the two
    indexes are as after the first call; and in a store built by such
    additions no index holds an ID twice under a key. *)
Theorem Add_twice_is_noop (tle : option TLE) (group : string) :
  (forall s : TLEStore,
      Add (Add s tle) tle = Add s tle
      /\ AddWithGroup (AddWithGroup s tle group) tle group
         = AddWithGroup s tle group)
  /\ (forall ops : list (option TLE * string),
        noDuplicateIDs (Add (Add (storeAfter ops) tle) tle)
        /\ noDuplicateIDs
             (AddWithGroup (AddWithGroup (storeAfter ops) tle group) tle group)).
Proof.
  split.
  - intros s. split; apply addInternal_idempotent.
  - intros ops. unfold Add, AddWithGroup.
    split; do 2 apply addInternal_NoDup; apply storeAfter_NoDup.
Qed.

End StoreFacts.


(** * Further properties *)

(** ** Segments and points *)

Lemma splitLoop_count rest : forall prev segs cur,
  cur <> [] ->
  List.length (splitLoop prev rest segs cur)
  = (List.length segs + 1 + crossingsFrom prev rest)%nat
  /\ List.length (concat (splitLoop prev rest segs cur))
     = (List.length (concat segs) + List.length cur + List.length rest
        + 2 * crossingsFrom prev rest)%nat
  /\ (crossingsFrom prev rest = 0%nat ->
      splitLoop prev rest segs cur = (segs ++ [cur ++ rest])%list).
Proof.
  induction rest as [|curr rest IH]; intros prev segs cur Hcur.
  - cbn [splitLoop crossingsFrom].
    destruct cur as [|c cur]; [congruence|]. cbn [List.length Nat.ltb Nat.leb].
    rewrite !app_nil_r, concat_app, !length_app. cbn. rewrite app_nil_r.
    repeat split; lia.
  - cbn [splitLoop crossingsFrom].
    destruct (crossesAntimeridian (tpLon prev) (tpLon curr)).
    + destruct (interpolateAntimeridian prev curr) as [bP bN].
      destruct (IH curr (segs ++ [cur ++ [bP]])%list [bN; curr] ltac:(discriminate))
        as (H1 & H2 & _).
      rewrite H1, H2, concat_app, !length_app. cbn.
      rewrite app_nil_r, length_app. cbn.
      repeat split; lia.
    + assert (Hne : (cur ++ [curr])%list <> []) by (destruct cur; discriminate).
      destruct (IH curr segs (cur ++ [curr])%list Hne) as (H1 & H2 & H3).
      rewrite H1, H2, length_app. cbn.
      repeat split; try lia.
      intros H. rewrite H3 by exact H. now rewrite <- app_assoc.
Qed.

Lemma splitLoop_nonempty rest : forall prev segs cur,
  Forall (fun seg => seg <> []) segs ->
  Forall (fun seg : list TrackPoint => seg <> []) (splitLoop prev rest segs cur).
Proof.
  induction rest as [|curr rest IH]; intros prev segs cur Hsegs;
    cbn [splitLoop].
  - destruct cur as [|c cur]; cbn [List.length Nat.ltb Nat.leb]; [exact Hsegs|].
    apply Forall_app. split; [exact Hsegs|]. now repeat constructor.
  - destruct (crossesAntimeridian (tpLon prev) (tpLon curr)).
    + destruct (interpolateAntimeridian prev curr) as [bP bN]. apply IH.
      apply Forall_app. split; [exact Hsegs|].
      constructor; [|constructor]. now destruct cur.
    + apply IH, Hsegs.
Qed.

Lemma splitAtAntimeridian_nonempty points :
  Forall (fun seg : list TrackPoint => seg <> []) (splitAtAntimeridian points).
Proof.
  destruct points as [|p0 rest]; [constructor|].
  apply splitLoop_nonempty. constructor.
Qed.

(** splitAtAntimeridian gives one segment more than there are crossings
    and none of them is empty; the segments, one after the other, are
    the points of the list in their order with the two boundary points
    between the points of each crossing, so that no point is lost, moved
    or changed and two points per crossing are added; and the points are
    returned as one segment when there is no crossing. *)
Theorem splitAtAntimeridian_segments (points : list TrackPoint) :
  List.length (splitAtAntimeridian points)
  = (if (List.length points =? 0)%nat then 0 else S (crossings points))%nat
  /\ Forall (fun seg => seg <> []) (splitAtAntimeridian points)
  /\ concat (splitAtAntimeridian points) = withBoundaries points
  /\ List.length (concat (splitAtAntimeridian points))
     = (List.length points + 2 * crossings points)%nat
  /\ (forall p rest, points = p :: rest -> crossings points = 0%nat ->
        splitAtAntimeridian points = [points]).
Proof.
  split; [|split; [apply splitAtAntimeridian_nonempty
                  |split; [apply splitAtAntimeridian_concat|]]];
    destruct points as [|p0 rest]; try (repeat split; intros; discriminate).
  - cbn [splitAtAntimeridian crossings].
    destruct (splitLoop_count rest p0 [] [p0] ltac:(discriminate)) as (H1 & _).
    rewrite H1. reflexivity.
  - cbn [splitAtAntimeridian crossings].
    destruct (splitLoop_count rest p0 [] [p0] ltac:(discriminate)) as (_ & H2 & H3).
    rewrite H2. cbn. repeat split; try lia.
    intros _ _ _ H. now rewrite H3.
Qed.

(** splitPastFuture loses no point and invents none: the points of the
    past and of the future segments are those of the segments. *)
Theorem splitPastFuture_keeps_points
        (segments : list (list TrackPoint)) (nowMs : Z) :
  Permutation
    (concat (fst (splitPastFuture segments nowMs))
     ++ concat (snd (splitPastFuture segments nowMs)))%list
    (concat segments).
Proof.
  rewrite splitPastFuture_flat. cbn [fst snd].
  induction segments as [|seg segments IH]; [reflexivity|].
  cbn [flat_map concat]. rewrite !concat_app.
  rewrite <- (splitSegment_points seg nowMs) at 3.
  rewrite <- IH.
  rewrite <- !app_assoc. apply Permutation_app_head.
  rewrite !app_assoc. apply Permutation_app_tail.
  apply Permutation_app_comm.
Qed.

(** ** Arguments of the generator *)

Section GeneratorFacts.
Context `{trig : Go.TrigLib} `{kernel : satellite.Kernel}.

(** GenerateGroundTrack tests its arguments in this order: a nil record,
    a step that is not positive, equal bounds, a record without its two
    lines. *)
Theorem GenerateGroundTrack_argument_errors
        (tle : TLE) (start end_ now : Go.Time) (step : Go.Duration) :
  GenerateGroundTrack None start end_ now step = Some (Err ErrNilTLEForTrack)
  /\ (step <= 0 ->
      GenerateGroundTrack (Some tle) start end_ now step
      = Some (Err ErrInvalidStepTrack))
  /\ (0 < step ->
      GenerateGroundTrack (Some tle) start start now step
      = Some (Err ErrInvalidRange))
  /\ (0 < step -> start <> end_ ->
      Line1 tle = "" \/ Line2 tle = "" ->
      GenerateGroundTrack (Some tle) start end_ now step
      = Some (Err (ErrCreatingPropagator ErrInvalidTLEForPropagation))).
Proof.
  split; [reflexivity|]. split; [|split].
  - intros H. unfold GenerateGroundTrack.
    now replace (step <=? 0) with true by (symmetry; apply Z.leb_le; lia).
  - intros H. unfold GenerateGroundTrack.
    replace (step <=? 0) with false by (symmetry; apply Z.leb_gt; lia).
    unfold Go.timeEqual. now rewrite Z.eqb_refl.
  - intros H Hne Hl. unfold GenerateGroundTrack.
    replace (step <=? 0) with false by (symmetry; apply Z.leb_gt; lia).
    unfold Go.timeEqual.
    replace (start =? end_) with false by (symmetry; apply Z.eqb_neq; lia).
    assert (E : NewPropagator (Some tle) = Err ErrInvalidTLEForPropagation).
    { unfold NewPropagator, NewPropagatorWithGravity.
      destruct Hl as [-> | ->]; [reflexivity|].
      now rewrite orb_true_r. }
    destruct (Go.timeBefore end_ start); now rewrite E.
Qed.

End GeneratorFacts.

(** ** The first attempt *)

(** A fetch whose first exchange succeeds makes that one request, with
    no sleep; a client with a negative [maxRetries] makes no request. *)
Theorem fetch_first_attempt (c : CelestrakClient) (up : Upstream) :
  (forall data, 0 <= maxRetries c ->
      doRequest (exchange up 0) = Ok data ->
      fetch c up = (Ok data, [EvRateLimitWait; EvRequest 0]))
  /\ (maxRetries c < 0 ->
      fetch c up = (Err (ErrAfterRetries (maxRetries c) None), [EvRateLimitWait])).
Proof.
  split.
  - intros data HN Hok. unfold fetch.
    assert (E : Z.to_nat (maxRetries c + 1) = S (Z.to_nat (maxRetries c))) by lia.
    rewrite E. cbn [fetchLoop]. rewrite Hok. reflexivity.
  - intros HN. unfold fetch.
    assert (E : Z.to_nat (maxRetries c + 1) = 0%nat) by lia.
    rewrite E. reflexivity.
Qed.

(** ** The catalog *)

Section CatalogFacts.
Context `{uc : Unicode.Case}.

(** A record that was added is the one Get returns for its ID, the other
    IDs are as before, and adding nil changes nothing. *)
Theorem Get_after_Add (s : TLEStore) (tle : TLE) (group : string) :
  Get (Add s (Some tle)) (NoradID tle) = Some tle
  /\ Get (AddWithGroup s (Some tle) group) (NoradID tle) = Some tle
  /\ (forall id, id <> NoradID tle ->
        Get (AddWithGroup s (Some tle) group) id = Get s id)
  /\ Add s None = s
  /\ AddWithGroup s None group = s.
Proof.
  unfold Get, Add, AddWithGroup, addInternal. cbn [catalog].
  repeat split; try apply lookup_insert_eq.
  intros id Hid. now apply lookup_insert_ne.
Qed.

End CatalogFacts.

(** ** The checksum *)

(** The checksum of a line is a digit, and a line shorter than 69
    characters is never accepted. *)
Theorem calculateChecksum_digit (line : string) :
  0 <= calculateChecksum line < 10
  /\ ((String.length line < 69)%nat -> validateChecksum line = false).
Proof.
  split.
  - rewrite calculateChecksum_modulo10. apply modulo10_range.
  - intros H. unfold validateChecksum, TLELineLength.
    now replace (String.length line <? 69)%nat with true
      by (symmetry; apply Nat.ltb_lt; lia).
Qed.

(** * Properties of the rest of the package *)


(** ** Trimmed lines *)

Lemma dropWhileSpace_fixed sp fuel l :
  sp l = 0%nat -> Go.dropWhileSpace sp fuel l = l.
Proof. intros H. destruct fuel; [reflexivity|]. cbn. now rewrite H. Qed.

Lemma dropWhileSpace_skipn sp fuel : forall l,
  exists k, Go.dropWhileSpace sp fuel l = skipn k l.
Proof.
  induction fuel as [|fuel IH]; intros l; [now exists 0%nat|].
  cbn [Go.dropWhileSpace]. destruct (sp l) as [|n] eqn:E; [now exists 0%nat|].
  destruct (IH (skipn (S n) l)) as [k Hk]. exists (k + S n)%nat.
  now rewrite Hk, skipn_skipn.
Qed.

Lemma dropWhileSpace_stops sp :
  sp [] = 0%nat ->
  forall fuel l, (List.length l <= fuel)%nat ->
  sp (Go.dropWhileSpace sp fuel l) = 0%nat.
Proof.
  intros Hnil. induction fuel as [|fuel IH]; intros l Hl.
  - destruct l; [exact Hnil | simpl in Hl; lia].
  - cbn [Go.dropWhileSpace]. destruct (sp l) as [|n] eqn:E; [exact E|].
    apply IH. destruct l as [|c l]; [congruence|].
    rewrite length_skipn. simpl in *. lia.
Qed.


(** Cutting a list at its end does not make a white-space rune appear
    at its head. *)
Lemma spacePrefix_firstn l m :
  Go.spacePrefix l = 0%nat -> Go.spacePrefix (firstn m l) = 0%nat.
Proof.
  destruct l as [|c0 [|c1 [|c2 r]]]; destruct m as [|[|[|m]]];
    cbn [firstn]; try (intros; reflexivity); try (intros H; exact H).
  all: unfold Go.spacePrefix; destruct (Go.isAsciiSpace c0); try discriminate.
  all: cbn [List.map firstn].
  all: generalize (Go.code c0) (Go.code c1); intros a b.
  all: try (generalize (Go.code c2); intros c).
  all: intros H.
  all: zcases; try reflexivity; try exact H; try discriminate.
Qed.

Lemma bytes_ofBytes l : Go.bytes (Go.ofBytes l) = l.
Proof. apply list_ascii_of_string_of_list_ascii. Qed.

Lemma ofBytes_bytes s : Go.ofBytes (Go.bytes s) = s.
Proof. apply string_of_list_ascii_of_string. Qed.

(** A string without white space at either end. *)

Lemma TrimSpace_trimmed s : trimmed s -> Go.TrimSpace s = s.
Proof.
  intros [Hp Hs]. unfold Go.TrimSpace.
  rewrite (dropWhileSpace_fixed _ _ _ Hp), (dropWhileSpace_fixed _ _ _ Hs).
  now rewrite rev_involutive, ofBytes_bytes.
Qed.

Lemma trimmed_TrimSpace s : trimmed (Go.TrimSpace s).
Proof.
  unfold trimmed, Go.TrimSpace. rewrite bytes_ofBytes, rev_involutive.
  set (l1 := Go.dropWhileSpace Go.spacePrefix _ _).
  assert (H1 : Go.spacePrefix l1 = 0%nat)
    by (apply dropWhileSpace_stops; [reflexivity | lia]).
  split.
  - destruct (dropWhileSpace_skipn Go.spaceSuffix (List.length l1) (rev l1))
      as [k ->].
    rewrite skipn_rev, rev_involutive.
    now apply spacePrefix_firstn.
  - apply dropWhileSpace_stops; [reflexivity | rewrite length_rev; lia].
Qed.

Lemma TrimSpace_idempotent s : Go.TrimSpace (Go.TrimSpace s) = Go.TrimSpace s.
Proof. apply TrimSpace_trimmed, trimmed_TrimSpace. Qed.


Section ParserFacts.
Context `{lib : Go.NumLib}.

Lemma parseLine1_keeps tle line tle' :
  parseLine1 tle line = Ok tle' ->
  Name tle' = Name tle /\ Line1 tle' = Line1 tle /\ Line2 tle' = Line2 tle.
Proof.
  unfold parseLine1. intros H.
  destruct (parseNoradID _); [|discriminate]. cbn [rbind] in H.
  destruct (parseEpoch _); [|discriminate]. cbn [rbind] in H.
  destruct (parseFloatField _); [|discriminate]. cbn [rbind] in H.
  injection H as <-. auto.
Qed.

Lemma parseLine2_keeps tle line tle' :
  parseLine2 tle line = Ok tle' ->
  Name tle' = Name tle /\ Line1 tle' = Line1 tle /\ Line2 tle' = Line2 tle
  /\ NoradID tle' = NoradID tle.
Proof.
  unfold parseLine2. intros H.
  repeat (destruct (parseFloatField _); [|discriminate]; cbn [rbind] in H).
  injection H as <-. auto.
Qed.

(** What an accepted pair of lines looks like. *)
Lemma parseTLELines_fields name line1 line2 tle :
  parseTLELines name line1 line2 = Ok tle ->
  Name tle = name /\ Line1 tle = line1 /\ Line2 tle = line2
  /\ (TLELineLength <= String.length line1)%nat
  /\ (TLELineLength <= String.length line2)%nat
  /\ Go.at_ line1 0 = "1"%char /\ Go.at_ line2 0 = "2"%char
  /\ validateChecksum line1 = true /\ validateChecksum line2 = true
  /\ parseNoradID (Go.TrimSpace (Go.slice line1 2 7)) = Ok (NoradID tle)
  /\ parseNoradID (Go.TrimSpace (Go.slice line2 2 7)) = Ok (NoradID tle).
Proof.
  unfold parseTLELines. intros H.
  destruct (String.length line1 <? TLELineLength)%nat eqn:E1; [discriminate|].
  destruct (String.length line2 <? TLELineLength)%nat eqn:E2; [discriminate|].
  destruct (Ascii.eqb (Go.at_ line1 0) "1") eqn:E3; [|discriminate].
  destruct (Ascii.eqb (Go.at_ line2 0) "2") eqn:E4; [|discriminate].
  destruct (validateChecksum line1) eqn:E5; [|discriminate].
  destruct (validateChecksum line2) eqn:E6; [|discriminate].
  cbn [negb] in H.
  destruct (parseLine1 _ line1) as [t1|] eqn:P1; [|discriminate].
  cbn [rbind] in H.
  destruct (parseLine2 t1 line2) as [t2|] eqn:P2; [|discriminate].
  cbn [rbind] in H.
  destruct (parseNoradID (Go.TrimSpace (Go.slice line2 2 7))) as [id2|] eqn:P3;
    [|discriminate].
  cbn [rbind] in H.
  destruct (NoradID t2 =? id2) eqn:E7; [|discriminate].
  cbn [negb] in H. injection H as <-.
  apply Z.eqb_eq in E7. subst id2.
  destruct (parseLine1_keeps _ _ _ P1) as (N1 & L1 & L2).
  destruct (parseLine2_keeps _ _ _ P2) as (N2 & L1' & L2' & Id).
  apply Nat.ltb_ge in E1, E2. apply Ascii.eqb_eq in E3, E4.
  rewrite N2, L1', L2', N1, L1, L2. cbn [newTLE Name Line1 Line2].
  repeat split; try assumption.
  rewrite Id. unfold parseLine1 in P1.
  destruct (parseNoradID (Go.TrimSpace (Go.slice line1 2 7))) as [id1|];
    [|discriminate].
  cbn [rbind] in P1.
  destruct (parseEpoch _); [|discriminate]. cbn [rbind] in P1.
  destruct (parseFloatField _); [|discriminate]. cbn [rbind] in P1.
  now injection P1 as <-.
Qed.

(** The three strings ParseTLE hands to parseTLELines. *)
Lemma ParseTLE_lines lines tle :
  ParseTLE lines = Ok tle ->
  exists name line1 line2,
    parseTLELines name line1 line2 = Ok tle
    /\ trimmed name /\ trimmed line1 /\ trimmed line2
    /\ ((name = ""
         /\ line1 = Go.TrimSpace (nth 0 lines "")
         /\ line2 = Go.TrimSpace (nth 1 lines ""))
        \/ (name <> ""
            /\ Go.at_ name 0 <> "1"%char /\ Go.at_ name 0 <> "2"%char
            /\ (3 <= List.length lines)%nat
            /\ name = Go.TrimSpace (nth 0 lines "")
            /\ line1 = Go.TrimSpace (nth 1 lines "")
            /\ line2 = Go.TrimSpace (nth 2 lines ""))).
Proof.
  unfold ParseTLE. intros H.
  destruct (List.length lines <? 2)%nat; [discriminate|].
  destruct (String.length (Go.TrimSpace (nth 0 lines "")) =? 0)%nat eqn:E0;
    [discriminate|].
  destruct (Ascii.eqb (Go.at_ (Go.TrimSpace (nth 0 lines "")) 0) "1") eqn:E1.
  - eexists "", _, _. split; [exact H|].
    repeat split; try apply trimmed_TrimSpace. left. auto.
  - destruct (Ascii.eqb (Go.at_ (Go.TrimSpace (nth 0 lines "")) 0) "2") eqn:E2;
      [discriminate|].
    destruct (List.length lines <? 3)%nat eqn:E3; [discriminate|].
    eexists _, _, _. split; [exact H|].
    repeat split; try apply trimmed_TrimSpace. right.
    apply Ascii.eqb_neq in E1, E2. apply Nat.ltb_ge in E3.
    repeat split; try assumption.
    intros Hn. rewrite Hn in E0. discriminate.
Qed.

Lemma ParseTLE_recordLines (lines : list string) (tle : TLE) :
  ParseTLE lines = Ok tle ->
  ParseTLE (recordLines tle) = Ok tle
  /\ (TLELineLength <= String.length (Line1 tle))%nat
  /\ (TLELineLength <= String.length (Line2 tle))%nat
  /\ validateChecksum (Line1 tle) = true
  /\ validateChecksum (Line2 tle) = true
  /\ parseNoradID (Go.TrimSpace (Go.slice (Line1 tle) 2 7)) = Ok (NoradID tle)
  /\ parseNoradID (Go.TrimSpace (Go.slice (Line2 tle) 2 7)) = Ok (NoradID tle).
Proof.
  intros H.
  destruct (ParseTLE_lines _ _ H) as (name & l1 & l2 & Hp & Tn & T1 & T2 & Hc).
  destruct (parseTLELines_fields _ _ _ _ Hp)
    as (N & L1 & L2 & Len1 & Len2 & A1 & A2 & C1 & C2 & Id1 & Id2).
  rewrite L1, L2. repeat split; try assumption.
  unfold recordLines. rewrite N, L1, L2.
  assert (Hl1 : String.length l1 <> 0%nat) by (unfold TLELineLength in Len1; lia).
  destruct Hc as [(-> & _) | (Hne & B1 & B2 & _)].
  - cbn [String.eqb negb]. unfold ParseTLE. cbn [List.length nth Nat.ltb Nat.leb].
    rewrite (TrimSpace_trimmed _ T1), (TrimSpace_trimmed _ T2).
    apply Nat.eqb_neq in Hl1. rewrite Hl1, A1. cbn. exact Hp.
  - assert (E : String.eqb name "" = false) by now apply String.eqb_neq.
    rewrite E. cbn [negb]. unfold ParseTLE. cbn [List.length nth Nat.ltb Nat.leb].
    rewrite (TrimSpace_trimmed _ T1), (TrimSpace_trimmed _ T2),
      (TrimSpace_trimmed _ Tn).
    assert (Hn : (String.length name =? 0)%nat = false).
    { destruct name; [congruence | reflexivity]. }
    rewrite Hn.
    apply Ascii.eqb_neq in B1, B2. rewrite B1, B2. exact Hp.
Qed.

(** A record that was parsed is parsed again, to the same value, from
    the lines it keeps (its name, when it has one, and its two lines),
    which are those [String()] writes.  These two lines have 69
    characters or more and a valid checksum, and the catalog number of
    the record is the one both of them spell. *)
Theorem ParseTLE_round_trip (lines : list string) (tle : TLE) :
  ParseTLE lines = Ok tle ->
  ParseTLE (recordLines tle) = Ok tle
  /\ TLEString tle = String.concat (String Go.newline "") (recordLines tle)
  /\ (TLELineLength <= String.length (Line1 tle))%nat
  /\ (TLELineLength <= String.length (Line2 tle))%nat
  /\ validateChecksum (Line1 tle) = true
  /\ validateChecksum (Line2 tle) = true
  /\ parseNoradID (Go.TrimSpace (Go.slice (Line1 tle) 2 7)) = Ok (NoradID tle)
  /\ parseNoradID (Go.TrimSpace (Go.slice (Line2 tle) 2 7)) = Ok (NoradID tle).
Proof.
  intros H.
  destruct (ParseTLE_recordLines _ _ H) as (H1 & L1 & L2 & H2).
  split; [exact H1|]. split; [|split; [exact L1 | split; [exact L2 | exact H2]]].
  unfold TLEString, recordLines.
  destruct (negb (String.eqb (Name tle) "")); reflexivity.
Qed.

End ParserFacts.


(** ** The cache file *)


Lemma bytes_app a b : Go.bytes (a ++ b) = (Go.bytes a ++ Go.bytes b)%list.
Proof.
  unfold Go.bytes. induction a as [|c a IH]; [reflexivity|].
  change (list_ascii_of_string (String c a ++ b))
    with (c :: list_ascii_of_string (a ++ b)).
  rewrite IH. reflexivity.
Qed.

Lemma splitBytes_line l : forall cur rest,
  Forall (fun c => c <> Go.newline) l ->
  Go.splitBytes cur (l ++ Go.newline :: rest)
  = Go.ofBytes (rev cur ++ l) :: Go.splitBytes [] rest.
Proof.
  induction l as [|c l IH]; intros cur rest Hl.
  - cbn. rewrite Ascii.eqb_refl. now rewrite app_nil_r.
  - inversion Hl as [|? ? Hc Hl']; subst. cbn [app Go.splitBytes].
    apply Ascii.eqb_neq in Hc. rewrite Hc.
    rewrite IH by assumption. cbn [rev]. now rewrite <- app_assoc.
Qed.

Lemma splitBytes_singleLine l : forall cur,
  Forall (fun c => c <> Go.newline) cur ->
  Forall (fun s => singleLine s) (Go.splitBytes cur l).
Proof.
  induction l as [|c l IH]; intros cur Hcur; cbn [Go.splitBytes].
  - constructor; [|constructor]. unfold singleLine. rewrite bytes_ofBytes.
    now apply Forall_rev.
  - destruct (Ascii.eqb c Go.newline) eqn:E.
    + constructor; [|apply IH; constructor].
      unfold singleLine. rewrite bytes_ofBytes. now apply Forall_rev.
    + apply IH. constructor; [now apply Ascii.eqb_neq | exact Hcur].
Qed.

Lemma SplitLines_singleLine s : Forall (fun l => singleLine l) (Go.SplitLines s).
Proof. apply splitBytes_singleLine. constructor. Qed.

Lemma dropWhileSpace_Forall (P : ascii -> Prop) sp fuel l :
  Forall P l -> Forall P (Go.dropWhileSpace sp fuel l).
Proof.
  intros H. destruct (dropWhileSpace_skipn sp fuel l) as [k ->].
  now apply Forall_drop.
Qed.

Lemma TrimSpace_singleLine s : singleLine s -> singleLine (Go.TrimSpace s).
Proof.
  unfold singleLine, Go.TrimSpace. intros H. rewrite bytes_ofBytes.
  apply Forall_rev, dropWhileSpace_Forall, Forall_rev, dropWhileSpace_Forall, H.
Qed.


Lemma nth_singleLine (record : list string) i :
  Forall (fun l => singleLine l) record -> singleLine (nth i record "").
Proof.
  intros H. destruct (nth_in_or_default i record "") as [Hin | ->].
  - rewrite List.Forall_forall in H. now apply H.
  - constructor.
Qed.

Lemma recordsLoop_singleLine lines : forall buffer,
  Forall (fun l => singleLine l) lines ->
  Forall (fun l => singleLine l) buffer ->
  Forall (fun r => Forall (fun l => singleLine l) r) (recordsLoop lines buffer).
Proof.
  induction lines as [|line rest IH]; intros buffer Hl Hb; cbn [recordsLoop].
  - destruct (2 <=? List.length buffer)%nat; repeat constructor; assumption.
  - inversion Hl as [|? ? Hline Hrest]; subst.
    assert (Hb' : Forall (fun l => singleLine l) (buffer ++ [Go.TrimSpace line])).
    { apply Forall_app. split; [exact Hb|].
      constructor; [now apply TrimSpace_singleLine | constructor]. }
    destruct (String.eqb (Go.TrimSpace line) "").
    + destruct (2 <=? List.length buffer)%nat; [constructor|]; auto.
    + destruct (completeRecord _); [constructor|]; auto.
Qed.

Section CacheFacts.
Context `{lib : Go.NumLib} `{uc : Unicode.Case}.

Lemma parseAll_each records : forall tles,
  parseAll records = Ok tles ->
  Forall2 (fun r tle => ParseTLE r = Ok tle) records tles.
Proof.
  induction records as [|r rest IH]; intros tles H; cbn [parseAll] in H.
  - injection H as <-. constructor.
  - destruct (ParseTLE r) as [tle|] eqn:E; [|discriminate]. cbn [rbind] in H.
    destruct (parseAll rest) as [l|]; [|discriminate]. cbn [rbind] in H.
    injection H as <-. constructor; auto.
Qed.

Lemma ParseTLE_storable record tle :
  Forall (fun l => singleLine l) record ->
  ParseTLE record = Ok tle -> storable tle.
Proof.
  intros Hrec H.
  destruct (ParseTLE_lines _ _ H) as (name & l1 & l2 & Hp & Tn & T1 & T2 & Hc).
  destruct (parseTLELines_fields _ _ _ _ Hp)
    as (N & L1 & L2 & _ & _ & A1 & A2 & _).
  unfold storable, recordLines. rewrite N, L1, L2.
  assert (S1 : singleLine l1 /\ singleLine l2 /\ singleLine name).
  { destruct Hc as [(-> & -> & ->) | (_ & _ & _ & _ & -> & -> & ->)];
      repeat split; try (apply TrimSpace_singleLine, nth_singleLine, Hrec).
    constructor. }
  destruct S1 as (S1 & S2 & Sn).
  split; [|split; [exact A1 | split; [exact A2|]]].
  - destruct (String.eqb name ""); cbn [negb];
      repeat (constructor; [split; assumption|]); constructor.
  - destruct Hc as [(-> & _) | (_ & B1 & B2 & _)]; [now left | now right].
Qed.

Lemma ParseTLEBatch_storable data tles :
  ParseTLEBatch data = Ok tles ->
  Forall (fun tle => storable tle /\ ParseTLE (recordLines tle) = Ok tle) tles.
Proof.
  rewrite ParseTLEBatch_parseAll. intros H.
  apply parseAll_each in H.
  assert (Hs : Forall (fun r => Forall (fun l => singleLine l) r)
                      (batchRecords data)).
  { apply recordsLoop_singleLine; [apply SplitLines_singleLine | constructor]. }
  induction H as [|r tle rs tles Hr _ IH]; [constructor|].
  inversion Hs as [|? ? Hr1 Hrs]; subst.
  constructor; [|now apply IH].
  split; [now apply (ParseTLE_storable r) |].
  now apply (ParseTLE_recordLines r).
Qed.

Lemma storable_nonempty tle l :
  storable tle -> (TLELineLength <= String.length (Line1 tle))%nat ->
  (TLELineLength <= String.length (Line2 tle))%nat ->
  In l (recordLines tle) -> l <> "".
Proof.
  intros _ H1 H2 Hin Hl. subst l. unfold recordLines in Hin.
  unfold TLELineLength in *.
  destruct (String.eqb (Name tle) "") eqn:E; cbn [negb] in Hin.
  - destruct Hin as [Hin | [Hin | []]]; rewrite Hin in *; simpl in *; lia.
  - apply String.eqb_neq in E.
    destruct Hin as [Hin | [Hin | [Hin | []]]]; try congruence;
      rewrite Hin in *; simpl in *; lia.
Qed.

(** The loop of the batch parser emits a stored record as one record. *)
Lemma recordsLoop_record tle rest :
  storable tle -> ParseTLE (recordLines tle) = Ok tle ->
  recordsLoop (recordLines tle ++ rest) [] = recordLines tle :: recordsLoop rest [].
Proof.
  intros Hs Hp.
  destruct (ParseTLE_recordLines _ _ Hp) as (_ & Len1 & Len2 & _).
  pose proof (storable_nonempty tle) as Hne.
  specialize (fun l => Hne l Hs Len1 Len2).
  destruct Hs as (Hl & A1 & A2 & Hn).
  assert (Hstep : forall l, In l (recordLines tle) ->
            Go.TrimSpace l = l /\ String.eqb l "" = false).
  { intros l Hin. rewrite List.Forall_forall in Hl.
    split; [apply TrimSpace_trimmed, (Hl l Hin) | apply String.eqb_neq, Hne, Hin]. }
  unfold recordLines in *.
  destruct (String.eqb (Name tle) "") eqn:E; cbn [negb] in *.
  - destruct (Hstep (Line1 tle) ltac:(now left)) as [T1 N1].
    destruct (Hstep (Line2 tle) ltac:(right; now left)) as [T2 N2].
    cbn [app recordsLoop]. rewrite T1, N1. cbn [app completeRecord].
    cbn [recordsLoop]. rewrite T2, N2. cbn [app completeRecord].
    rewrite A1, A2. reflexivity.
  - destruct (Hstep (Name tle) ltac:(now left)) as [T0 N0].
    destruct (Hstep (Line1 tle) ltac:(right; now left)) as [T1 N1].
    destruct (Hstep (Line2 tle) ltac:(right; right; now left)) as [T2 N2].
    destruct Hn as [Hn | [B1 B2]]; [rewrite Hn in E; discriminate|].
    apply Ascii.eqb_neq in B1, B2.
    cbn [app recordsLoop]. rewrite T0, N0. cbn [app completeRecord].
    cbn [recordsLoop]. rewrite T1, N1. cbn [app completeRecord].
    rewrite B1. cbn [andb].
    cbn [recordsLoop]. rewrite T2, N2. cbn [app completeRecord].
    rewrite ?B1, ?B2. reflexivity.
Qed.

Lemma content_bytes tles : forall acc,
  Go.bytes (fold_left (fun b tle => b ++ TLEString tle ++ String Go.newline "")
                      tles acc)
  = (Go.bytes acc
     ++ flat_map (fun tle => Go.bytes (TLEString tle) ++ [Go.newline]) tles)%list.
Proof.
  induction tles as [|tle tles IH]; intros acc; cbn [fold_left flat_map].
  - now rewrite app_nil_r.
  - rewrite IH, !bytes_app, <- !app_assoc. reflexivity.
Qed.

Lemma splitBytes_record tle rest :
  storable tle ->
  Go.splitBytes [] ((Go.bytes (TLEString tle) ++ [Go.newline]) ++ rest)
  = (recordLines tle ++ Go.splitBytes [] rest)%list.
Proof.
  intros (Hl & _). unfold TLEString, recordLines in *.
  destruct (negb (String.eqb (Name tle) "")).
  - inversion Hl as [|? ? [_ H0] Hl']; subst.
    inversion Hl' as [|? ? [_ H1] Hl'']; subst.
    inversion Hl'' as [|? ? [_ H2] _]; subst.
    rewrite bytes_app.
    change (Go.bytes (String Go.newline (Line1 tle ++ String Go.newline (Line2 tle))))
      with (Go.newline :: Go.bytes (Line1 tle ++ String Go.newline (Line2 tle))).
    rewrite bytes_app.
    change (Go.bytes (String Go.newline (Line2 tle)))
      with (Go.newline :: Go.bytes (Line2 tle)).
    rewrite <- !app_assoc. cbn [app].
    rewrite splitBytes_line by exact H0. rewrite <- app_assoc. cbn [app].
    rewrite splitBytes_line by exact H1.
    rewrite splitBytes_line by exact H2.
    cbn [rev app]. now rewrite !ofBytes_bytes.
  - inversion Hl as [|? ? [_ H1] Hl']; subst.
    inversion Hl' as [|? ? [_ H2] _]; subst.
    rewrite bytes_app.
    change (Go.bytes (String Go.newline (Line2 tle)))
      with (Go.newline :: Go.bytes (Line2 tle)).
    rewrite <- !app_assoc. cbn [app].
    rewrite splitBytes_line by exact H1.
    rewrite splitBytes_line by exact H2.
    cbn [rev app]. now rewrite !ofBytes_bytes.
Qed.

Lemma recordsLoop_stored tles :
  Forall (fun tle => storable tle /\ ParseTLE (recordLines tle) = Ok tle) tles ->
  recordsLoop
    (Go.splitBytes []
       (flat_map (fun tle => (Go.bytes (TLEString tle) ++ [Go.newline])%list)
                 tles)) []
  = List.map recordLines tles.
Proof.
  induction 1 as [|tle tles [Hs Hp] _ IH]; [reflexivity|].
  cbn [flat_map List.map].
  rewrite splitBytes_record by exact Hs.
  rewrite recordsLoop_record by assumption.
  now rewrite IH.
Qed.

Lemma parseAll_stored tles :
  Forall (fun tle => storable tle /\ ParseTLE (recordLines tle) = Ok tle) tles ->
  parseAll (List.map recordLines tles) = Ok tles.
Proof.
  induction 1 as [|tle tles [_ Hp] _ IH]; [reflexivity|].
  cbn [List.map parseAll]. rewrite Hp. cbn [rbind]. rewrite IH. reflexivity.
Qed.

Lemma loadGroupFromCache_saved
        (cfg : TLEStoreConfig) (cache : Cache) (now : Go.Time)
        (group data : string) (tles : list TLE) :
  ParseTLEBatch data = Ok tles ->
  loadGroupFromCache cfg (saveGroupToCache cfg cache now group tles) group
  = Ok tles.
Proof.
  intros H. apply ParseTLEBatch_storable in H.
  unfold loadGroupFromCache, saveGroupToCache. cbn [files].
  rewrite lookup_insert_eq.
  rewrite ParseTLEBatch_parseAll. unfold batchRecords, Go.SplitLines.
  rewrite content_bytes. cbn [Go.bytes list_ascii_of_string app].
  rewrite recordsLoop_stored by exact H.
  now rewrite parseAll_stored.
Qed.


End CacheFacts.


(** ** Indexes *)

Lemma addToIndex_lists (index : gmap string (list Z)) key id :
  listed (addToIndex index key id) key id.
Proof.
  unfold listed, addToIndex.
  destruct (Contains (default [] (index !! key)) id) eqn:E.
  - now apply Contains_In.
  - rewrite lookup_insert_eq. cbn. apply in_or_app. right. now left.
Qed.

Lemma addToIndex_keeps (index : gmap string (list Z)) key id k i :
  listed index k i -> listed (addToIndex index key id) k i.
Proof.
  unfold listed, addToIndex. intros H.
  destruct (Contains (default [] (index !! key)) id); [exact H|].
  destruct (decide (key = k)) as [->|Hne].
  - rewrite lookup_insert_eq. cbn. apply in_or_app. now left.
  - now rewrite lookup_insert_ne.
Qed.

Lemma addToIndex_listed (index : gmap string (list Z)) key id k i :
  listed (addToIndex index key id) k i ->
  listed index k i \/ (k = key /\ i = id).
Proof.
  unfold listed, addToIndex.
  destruct (Contains (default [] (index !! key)) id); [now left|].
  destruct (decide (key = k)) as [->|Hne].
  - rewrite lookup_insert_eq. cbn. rewrite in_app_iff. simpl.
    intros [H | [-> | []]]; [now left | now right].
  - rewrite lookup_insert_ne by exact Hne. now left.
Qed.

Lemma addToIndex_present (index : gmap string (list Z)) key id :
  listed index key id -> addToIndex index key id = index.
Proof.
  unfold listed, addToIndex. intros H. apply Contains_In in H. now rewrite H.
Qed.

Lemma omap_all {A B} (f : A -> option B) (l : list A) :
  (forall x, In x l -> is_Some (f x)) ->
  List.length (omap f l) = List.length l.
Proof.
  induction l as [|x l IH]; intros H; [reflexivity|].
  cbn. destruct (H x (or_introl eq_refl)) as [y ->]. cbn.
  f_equal. apply IH. intros z Hz. apply H. now right.
Qed.

Lemma omap_In {A B} (f : A -> option B) (l : list A) x y :
  In x l -> f x = Some y -> In y (omap f l).
Proof.
  induction l as [|z l IH]; intros Hin Hf; [destruct Hin|].
  cbn. destruct Hin as [-> | Hin].
  - rewrite Hf. now left.
  - destruct (f z); [right|]; now apply IH.
Qed.

Section IndexFacts.
Context `{uc : Unicode.Case}.

Lemma addInternal_sound s tle group :
  indexesSound s -> indexesSound (addInternal s tle group).
Proof.
  intros Hs. destruct tle as [tle|]; [|exact Hs].
  unfold indexesSound, addInternal. cbn [catalog byGroup byName].
  intros key id H.
  destruct (decide (NoradID tle = id)) as [->|Hne];
    [rewrite lookup_insert_eq; eauto|].
  rewrite lookup_insert_ne by exact Hne. apply (Hs key).
  destruct H as [H|H]; [left | right].
  - destruct (negb (String.eqb group "")); [|exact H].
    apply addToIndex_listed in H as [H | [_ ->]]; [exact H | congruence].
  - destruct (negb (String.eqb (Name tle) "")); [|exact H].
    apply addToIndex_listed in H as [H | [_ ->]]; [exact H | congruence].
Qed.

Lemma storeAfter_sound ops : indexesSound (storeAfter ops).
Proof.
  unfold storeAfter.
  assert (G : forall s, indexesSound s ->
    indexesSound (fold_left (fun s op => addInternal s (fst op) (snd op)) ops s)).
  { induction ops as [|op ops IH]; intros s Hs; [exact Hs|].
    cbn [fold_left]. apply IH. now apply addInternal_sound. }
  apply G. intros key id [H|H]; unfold listed in H;
    cbn [NewTLEStore byGroup byName] in H; rewrite lookup_empty in H;
    destruct H.
Qed.

(** In a store built by additions the indexes list only IDs that have a
    record, so GetByGroup returns one record for each ID of the group:
    its length is GroupCount; and a group that was never used is
    empty. *)
Theorem GetByGroup_length (ops : list (option TLE * string)) (group : string) :
  List.length (GetByGroup (storeAfter ops) group)
  = GroupCount (storeAfter ops) group
  /\ (byGroup (storeAfter ops) !! Unicode.ToLower group = None ->
      GetByGroup (storeAfter ops) group = []
      /\ GroupCount (storeAfter ops) group = 0%nat).
Proof.
  pose proof (storeAfter_sound ops) as Hs.
  unfold GetByGroup, GroupCount. split.
  - destruct (byGroup (storeAfter ops) !! Unicode.ToLower group) as [ids|] eqn:E;
      [|reflexivity].
    cbn [default]. apply omap_all. intros id Hin.
    apply (Hs (Unicode.ToLower group)). left. unfold listed. now rewrite E.
  - intros ->. split; reflexivity.
Qed.

(** A record that was added is found again under its group and under
    its name, whatever the case of the letters in the query. *)
Theorem added_record_is_found
        (s : TLEStore) (tle : TLE) (group query : string) :
  (group <> "" -> Unicode.ToLower query = Unicode.ToLower group ->
   In tle (GetByGroup (AddWithGroup s (Some tle) group) query))
  /\ (Name tle <> "" -> Unicode.ToLower query = Unicode.ToLower (Name tle) ->
      In tle (GetByName (AddWithGroup s (Some tle) group) query)
      /\ In tle (GetByName (Add s (Some tle)) query)).
Proof.
  assert (Hcat : forall g, catalog (addInternal s (Some tle) g) !! NoradID tle
                           = Some tle).
  { intros g. unfold addInternal. cbn [catalog]. apply lookup_insert_eq. }
  split.
  - intros Hg Hq. unfold GetByGroup, AddWithGroup. rewrite Hq.
    assert (Hl : listed (byGroup (addInternal s (Some tle) group))
                        (Unicode.ToLower group) (NoradID tle)).
    { unfold addInternal. cbn [byGroup].
      apply String.eqb_neq in Hg. rewrite Hg. cbn [negb]. apply addToIndex_lists. }
    unfold listed in Hl.
    destruct (byGroup (addInternal s (Some tle) group) !! Unicode.ToLower group)
      as [ids|]; [|destruct Hl].
    apply (omap_In _ _ (NoradID tle)); [exact Hl | apply Hcat].
  - intros Hn Hq.
    assert (G : forall g, In tle (GetByName (addInternal s (Some tle) g) query)).
    { intros g. unfold GetByName. rewrite Hq.
      assert (Hl : listed (byName (addInternal s (Some tle) g))
                          (Unicode.ToLower (Name tle)) (NoradID tle)).
      { unfold addInternal. cbn [byName].
        apply String.eqb_neq in Hn. rewrite Hn. cbn [negb]. apply addToIndex_lists. }
      unfold listed in Hl.
      destruct (byName (addInternal s (Some tle) g) !! Unicode.ToLower (Name tle))
        as [ids|]; [|destruct Hl].
      apply (omap_In _ _ (NoradID tle)); [exact Hl | apply Hcat]. }
    split; apply G.
Qed.

Lemma addInternal_keeps s tle group key id :
  (listed (byGroup s) key id ->
   listed (byGroup (addInternal s tle group)) key id)
  /\ (listed (byName s) key id ->
      listed (byName (addInternal s tle group)) key id).
Proof.
  destruct tle as [tle|]; [|tauto]. unfold addInternal. cbn [byGroup byName].
  split; intros H.
  - destruct (negb (String.eqb group "")); [now apply addToIndex_keeps | exact H].
  - destruct (negb (String.eqb (Name tle) ""));
      [now apply addToIndex_keeps | exact H].
Qed.

(** Additions never take an ID out of an index or a record out of the
    catalog.  So a record that is added again under a new name stays
    listed under the old one, and a query by the old name returns the
    record with the new name. *)
Theorem Add_never_removes
        (s : TLEStore) (tle : option TLE) (group key : string) (id : Z) :
  (listed (byGroup s) key id ->
   listed (byGroup (AddWithGroup s tle group)) key id)
  /\ (listed (byName s) key id ->
      listed (byName (AddWithGroup s tle group)) key id)
  /\ (is_Some (Get s id) -> is_Some (Get (AddWithGroup s tle group) id))
  /\ (forall old renamed,
        Name old <> "" -> NoradID renamed = NoradID old ->
        In renamed
           (GetByName (Add (Add s (Some old)) (Some renamed)) (Name old))).
Proof.
  split; [apply addInternal_keeps|]. split; [apply addInternal_keeps|]. split.
  - unfold Get, AddWithGroup. destruct tle as [t|]; [|tauto].
    unfold addInternal. cbn [catalog]. intros H.
    destruct (decide (NoradID t = id)) as [->|Hne];
      [rewrite lookup_insert_eq; eauto | now rewrite lookup_insert_ne].
  - intros old renamed Hn Hid. unfold GetByName, Add.
    assert (Hl : listed (byName (addInternal (addInternal s (Some old) "")
                                             (Some renamed) ""))
                        (Unicode.ToLower (Name old)) (NoradID old)).
    { apply addInternal_keeps. unfold addInternal at 1. cbn [byName].
      apply String.eqb_neq in Hn. rewrite Hn. cbn [negb]. apply addToIndex_lists. }
    unfold listed in Hl.
    destruct (byName _ !! Unicode.ToLower (Name old)) as [ids|]; [|destruct Hl].
    apply (omap_In _ _ (NoradID old)); [exact Hl|].
    unfold addInternal at 1. cbn [catalog]. rewrite Hid. apply lookup_insert_eq.
Qed.

End IndexFacts.


(** ** Loading a group twice *)

Section ReloadFacts.
Context `{lib : Go.NumLib} `{uc : Unicode.Case}.


Lemma addInternal_indexed s tle group :
  indexed (addInternal s (Some tle) group) group tle.
Proof.
  unfold indexed, addInternal. cbn [byGroup byName]. split; intros H;
    apply String.eqb_neq in H; rewrite H; cbn [negb]; apply addToIndex_lists.
Qed.

Lemma addInternal_indexed_keeps s tle group t :
  indexed s group t -> indexed (addInternal s (Some tle) group) group t.
Proof.
  intros [Hg Hn]. split; intros H; apply addInternal_keeps; auto.
Qed.

Lemma addInternal_indexes_fixed s tle group :
  indexed s group tle ->
  byGroup (addInternal s (Some tle) group) = byGroup s
  /\ byName (addInternal s (Some tle) group) = byName s.
Proof.
  intros [Hg Hn]. unfold addInternal. cbn [byGroup byName]. split.
  - destruct (String.eqb group "") eqn:E; [reflexivity|]. cbn [negb].
    apply addToIndex_present, Hg. now apply String.eqb_neq.
  - destruct (String.eqb (Name tle) "") eqn:E; [reflexivity|]. cbn [negb].
    apply addToIndex_present, Hn. now apply String.eqb_neq.
Qed.

Lemma addAll_indexed tles group : forall s,
  (forall t, indexed s group t -> indexed (addAll tles group s) group t)
  /\ Forall (indexed (addAll tles group s) group) tles.
Proof.
  induction tles as [|tle tles IH]; intros s; cbn [addAll fold_left].
  - split; [auto | constructor].
  - destruct (IH (addInternal s (Some tle) group)) as [Hk Hall]. split.
    + intros t Ht. apply Hk. now apply addInternal_indexed_keeps.
    + constructor; [|exact Hall]. apply Hk, addInternal_indexed.
Qed.

Lemma addAll_indexes_fixed tles group : forall s,
  Forall (indexed s group) tles ->
  byGroup (addAll tles group s) = byGroup s
  /\ byName (addAll tles group s) = byName s.
Proof.
  induction tles as [|tle tles IH]; intros s H; cbn [addAll fold_left];
    [split; reflexivity|].
  inversion H as [|? ? Ht Hrest]; subst.
  destruct (addInternal_indexes_fixed s tle group Ht) as [Eg En].
  destruct (IH (addInternal s (Some tle) group)) as [Eg' En'].
  - eapply List.Forall_impl; [|exact Hrest]. intros t. apply addInternal_indexed_keeps.
  - unfold addAll in *. rewrite Eg', En', Eg, En. split; reflexivity.
Qed.

Lemma addAll_catalog tles group : forall s,
  catalog (addAll tles group s)
  = fold_left (fun m tle => <[NoradID tle := tle]> m) tles (catalog s).
Proof.
  induction tles as [|tle tles IH]; intros s; cbn [addAll fold_left];
    [reflexivity|].
  unfold addAll in IH. now rewrite IH.
Qed.

Lemma inserts_other (tles : list TLE) : forall (m : gmap Z TLE) k,
  (forall t, In t tles -> NoradID t <> k) ->
  fold_left (fun m tle => <[NoradID tle := tle]> m) tles m !! k = m !! k.
Proof.
  induction tles as [|tle tles IH]; intros m k H; cbn [fold_left]; [reflexivity|].
  rewrite IH by (intros t Ht; apply H; now right).
  apply lookup_insert_ne, H. now left.
Qed.

Lemma inserts_ext (tles : list TLE) : forall (m m' : gmap Z TLE),
  (forall k, (forall t, In t tles -> NoradID t <> k) -> m !! k = m' !! k) ->
  fold_left (fun m tle => <[NoradID tle := tle]> m) tles m
  = fold_left (fun m tle => <[NoradID tle := tle]> m) tles m'.
Proof.
  induction tles as [|tle tles IH]; intros m m' H; cbn [fold_left].
  - apply map_eq. intros k. apply H. intros t [].
  - apply IH. intros k Hk.
    destruct (decide (NoradID tle = k)) as [->|Hne].
    + now rewrite !lookup_insert_eq.
    + rewrite !lookup_insert_ne by exact Hne. apply H.
      intros t [<- | Ht]; [exact Hne | now apply Hk].
Qed.

(** Adding a batch a second time changes nothing. *)
Lemma addAll_twice tles group s :
  addAll tles group (addAll tles group s) = addAll tles group s.
Proof.
  destruct (addAll_indexed tles group s) as [_ Hall].
  destruct (addAll_indexes_fixed tles group _ Hall) as [Eg En].
  pose proof (addAll_catalog tles group (addAll tles group s)) as Ec.
  rewrite (addAll_catalog tles group s) in Ec.
  rewrite (inserts_ext tles _ (catalog s)) in Ec.
  2:{ intros k Hk. now apply inserts_other. }
  rewrite <- (addAll_catalog tles group s) in Ec.
  destruct (addAll tles group (addAll tles group s)) as [c g n].
  destruct (addAll tles group s) as [c' g' n'].
  cbn [catalog byGroup byName] in *. now subst.
Qed.

(** What LoadGroup does when the fetch succeeds. *)
Lemma LoadGroup_online cfg c up now s cache group tles :
  fst (FetchGroup c up) = Ok tles ->
  LoadGroup cfg c up now s cache group
  = (addAll tles group s, saveGroupToCache cfg cache now group tles,
     [(Debug, "loading TLE group"); (Info, "loaded TLE group from Celestrak")],
     Ok tt).
Proof. intros H. unfold LoadGroup. rewrite H. reflexivity. Qed.

Lemma FetchGroup_parsed c up tles :
  fst (FetchGroup c up) = Ok tles ->
  exists data, ParseTLEBatch data = Ok tles.
Proof.
  unfold FetchGroup. destruct (fetch c up) as [[data|e] evs]; [|discriminate].
  destruct (ParseTLEBatch data) as [l|] eqn:E; [|discriminate].
  cbn. intros [= <-]. now exists data.
Qed.


End ReloadFacts.


(** ** sgp4.go: ranges *)

Section RangeFacts.
Context `{kernel : satellite.Kernel}.

Lemma Propagate_time p t pos :
  Propagate (Some p) t = Ok pos -> eciTime pos = t.
Proof.
  unfold Propagate. destruct (kernelAt p t) as [position velocity].
  destruct (_ || _); [discriminate|]. now intros [= <-].
Qed.

Lemma rangeLoop_collects p end_ step (Hstep : 0 < step) :
  forall fuel t positions,
    t - step <= end_ ->
    (Z.to_nat ((end_ - t) / step + 1) < fuel)%nat ->
    rangeLoop fuel p t end_ step positions
    = Some ((positions
             ++ fst (positionsUntilFailure p (sampleTimes t end_ step)))%list,
            snd (positionsUntilFailure p (sampleTimes t end_ step))).
Proof.
  induction fuel as [|fuel IH]; intros t positions Hlow Hfuel; [lia|].
  cbn [rangeLoop]. unfold Go.timeAfter.
  destruct (end_ <? t) eqn:E.
  - apply Z.ltb_lt in E. rewrite sampleTimes_after by lia.
    cbn. now rewrite app_nil_r.
  - apply Z.ltb_ge in E. rewrite samplesFrom_step by lia.
    cbn [positionsUntilFailure].
    destruct (Propagate (Some p) t) as [pos|err].
    + unfold Go.timeAdd. rewrite IH.
      * cbn [fst snd]. now rewrite <- app_assoc.
      * lia.
      * assert (0 <= (end_ - t) / step) by (apply Z.div_pos; lia).
        replace (end_ - (t + step)) with ((end_ - t) + (-1) * step) by lia.
        rewrite Z.div_add by lia. lia.
    + cbn [fst snd]. now rewrite app_nil_r.
Qed.

Lemma PropagateRange_run p start end_ step :
  0 < step ->
  PropagateRange (Some p) start end_ step
  = Some (positionsUntilFailure p
            (sampleTimes (Z.min start end_) (Z.max start end_) step)).
Proof.
  intros Hstep. unfold PropagateRange.
  replace (step <=? 0) with false by (symmetry; apply Z.leb_gt; lia).
  assert (G : forall a b, a <= b ->
    rangeLoop (trackFuel a b step) p a b step []
    = Some (positionsUntilFailure p (sampleTimes a b step))).
  { intros a b Hab. unfold trackFuel.
    rewrite rangeLoop_collects; try lia.
    - cbn [app]. now destruct (positionsUntilFailure p (sampleTimes a b step)).
    - assert (0 <= (b - a) / step) by (apply Z.div_pos; lia). lia. }
  unfold Go.timeBefore. destruct (end_ <? start) eqn:E.
  - apply Z.ltb_lt in E. rewrite Z.min_r, Z.max_l by lia. apply G. lia.
  - apply Z.ltb_ge in E. rewrite Z.min_l, Z.max_r by lia. apply G. lia.
Qed.

Lemma positionsUntilFailure_spec p times :
  let positions := fst (positionsUntilFailure p times) in
  let err := snd (positionsUntilFailure p times) in
  List.map eciTime positions = firstn (List.length positions) times
  /\ Forall (fun pos => Propagate (Some p) (eciTime pos) = Ok pos) positions
  /\ match err with
     | None => List.length positions = List.length times
     | Some e =>
         exists t e' rest,
           e = ErrRangeAt t e'
           /\ skipn (List.length positions) times = t :: rest
           /\ Propagate (Some p) t = Err e'
     end.
Proof.
  induction times as [|t times IH]; cbn [positionsUntilFailure].
  - cbn. repeat split. constructor.
  - destruct (Propagate (Some p) t) as [pos|e] eqn:E; cbn [fst snd].
    + destruct IH as (H1 & H2 & H3).
      pose proof (Propagate_time _ _ _ E) as Ht.
      cbn [List.map List.length firstn skipn]. split; [now rewrite Ht, H1|].
      split; [constructor; [now rewrite Ht | exact H2]|].
      destruct (snd (positionsUntilFailure p times)); [exact H3 | now rewrite H3].
    + cbn. repeat split; [constructor|]. eexists _, _, _. eauto.
Qed.

(** PropagateRange with a positive step returns.  Its positions are
    those of the instants [start, start + step, ...] up to [end], in
    order and up to the first one at which Propagate fails; it returns
    them with no error when none fails, and otherwise together with the
    error of the first failure.  The order of the two bounds does not
    matter; a step that is not positive and a nil propagator are
    errors. *)
Theorem PropagateRange_samples
        (p : Propagator) (start end_ : Go.Time) (step : Go.Duration) :
  (0 < step ->
   exists positions err,
     let times := sampleTimes (Z.min start end_) (Z.max start end_) step in
     PropagateRange (Some p) start end_ step = Some (positions, err)
     /\ PropagateRange (Some p) end_ start step = Some (positions, err)
     /\ List.map eciTime positions = firstn (List.length positions) times
     /\ Forall (fun pos => Propagate (Some p) (eciTime pos) = Ok pos) positions
     /\ List.length times = Z.to_nat (Z.abs (end_ - start) / step + 1)
     /\ match err with
        | None => List.length positions = List.length times
        | Some e =>
            exists t e' rest,
              e = ErrRangeAt t e'
              /\ skipn (List.length positions) times = t :: rest
              /\ Propagate (Some p) t = Err e'
        end)
  /\ (step <= 0 ->
      PropagateRange (Some p) start end_ step
      = Some ([], Some (ErrRange ErrInvalidStep)))
  /\ PropagateRange None start end_ step = Some ([], Some (ErrRange ErrNilTLE)).
Proof.
  split; [|split; [|reflexivity]].
  - intros Hstep.
    pose proof (positionsUntilFailure_spec p
      (sampleTimes (Z.min start end_) (Z.max start end_) step)) as H.
    cbv zeta in H. destruct H as (H1 & H2 & H3).
    exists (fst (positionsUntilFailure p
              (sampleTimes (Z.min start end_) (Z.max start end_) step))),
           (snd (positionsUntilFailure p
              (sampleTimes (Z.min start end_) (Z.max start end_) step))).
    cbv zeta. rewrite !PropagateRange_run by exact Hstep.
    rewrite (Z.min_comm end_ start), (Z.max_comm end_ start).
    split; [now destruct (positionsUntilFailure p _)|].
    split; [now destruct (positionsUntilFailure p _)|].
    split; [exact H1|]. split; [exact H2|]. split; [|exact H3].
    unfold sampleTimes.
    assert (E : Z.max start end_ - Z.min start end_ = Z.abs (end_ - start)) by lia.
    rewrite E. clear.
    generalize (Z.to_nat (Z.abs (end_ - start) / step + 1)) (Z.min start end_).
    induction n as [|n IH]; intros t; [reflexivity|]. cbn. now rewrite IH.
  - intros H. unfold PropagateRange.
    now replace (step <=? 0) with true by (symmetry; apply Z.leb_le; lia).
Qed.

End RangeFacts.

(** ** ground_track.go: the points of a track *)

Lemma fold_app_concat {A} (segs : list (list A)) : forall acc,
  fold_left (fun result seg => (result ++ seg)%list) segs acc
  = (acc ++ concat segs)%list.
Proof.
  induction segs as [|seg segs IH]; intros acc; cbn [fold_left concat].
  - now rewrite app_nil_r.
  - now rewrite IH, app_assoc.
Qed.

Lemma fold_count_concat {A} (segs : list (list A)) : forall count,
  fold_left (fun count seg => count + Z.of_nat (List.length seg)) segs count
  = count + Z.of_nat (List.length (concat segs)).
Proof.
  induction segs as [|seg segs IH]; intros count; cbn [fold_left concat].
  - cbn. lia.
  - rewrite IH, length_app. lia.
Qed.

Lemma Points_concat gt :
  Points (Some gt) = (concat (Past gt) ++ concat (Future gt))%list.
Proof. unfold Points. now rewrite !fold_app_concat. Qed.

(** Points lists the points of the past segments and then those of the
    future segments, in their order, and TotalPoints is the number of
    points Points returns; both are empty on nil. *)
Theorem TotalPoints_counts_Points (gt : GroundTrack) :
  Points (Some gt) = (concat (Past gt) ++ concat (Future gt))%list
  /\ TotalPoints (Some gt) = Z.of_nat (List.length (Points (Some gt)))
  /\ Points None = [] /\ TotalPoints None = 0.
Proof.
  split; [apply Points_concat|]. split; [|split; reflexivity].
  rewrite Points_concat. unfold TotalPoints.
  rewrite !fold_count_concat, length_app. lia.
Qed.

Lemma splitPastFuture_count segments nowMs :
  (List.length (concat (fst (splitPastFuture segments nowMs)))
   + List.length (concat (snd (splitPastFuture segments nowMs))))%nat
  = List.length (concat segments).
Proof.
  rewrite splitPastFuture_flat. cbn [fst snd].
  induction segments as [|seg segments IH]; [reflexivity|].
  cbn [flat_map concat]. rewrite !concat_app, !length_app.
  pose proof (f_equal (@List.length _) (splitSegment_points seg nowMs)) as H.
  rewrite length_app in H. lia.
Qed.

Lemma collectedPoints_length `{trig : Go.TrigLib} `{kernel : satellite.Kernel}
      prop times :
  (List.length (collectedPoints prop times) <= List.length times)%nat.
Proof.
  induction times as [|t times IH]; cbn [collectedPoints]; [reflexivity|].
  destruct (Propagate (Some prop) t); cbn [List.length]; lia.
Qed.

Section TrackFacts.
Context `{trig : Go.TrigLib} `{kernel : satellite.Kernel}.

(** The two bounds of the interval may be given in either order. *)
Theorem GenerateGroundTrack_reversed_bounds
        (tle : option TLE) (start end_ now : Go.Time) (step : Go.Duration) :
  GenerateGroundTrack tle start end_ now step
  = GenerateGroundTrack tle end_ start now step.
Proof.
  unfold GenerateGroundTrack. destruct tle as [tle|]; [|reflexivity].
  destruct (step <=? 0); [reflexivity|].
  unfold Go.timeEqual, Go.timeBefore. rewrite (Z.eqb_sym end_ start).
  destruct (start =? end_) eqn:E; [reflexivity|]. apply Z.eqb_neq in E.
  destruct (end_ <? start) eqn:E1; destruct (start <? end_) eqn:E2;
    try reflexivity.
  - apply Z.ltb_lt in E1, E2. lia.
  - apply Z.ltb_ge in E1, E2. lia.
Qed.


End TrackFacts.


(** ** coordinates.go: frames *)

(** The float64 reading of the rotation is the ECIToECEF of the
    ground-track generator. *)
Lemma ECIToECEF_float `{trig : Go.TrigLib} `{kernel : satellite.Kernel}
      (eci : ECIPosition) :
  Frame.ECIToECEF GMST (Some (frameOfECI eci)) = ECIToECEF (Some eci).
Proof. reflexivity. Qed.

Section ExactFrames.
Local Open Scope R_scope.

Lemma Q2R_0 : Q2R 0 = 0.
Proof. unfold Q2R. simpl. lra. Qed.

Lemma Q2R_1 : Q2R 1 = 1.
Proof. unfold Q2R. simpl. lra. Qed.

Lemma ECIToECEF_ECEFToECI (GMST : Go.Time -> R) (ecef : ECEFPosition R) :
  Frame.ECIToECEF GMST (Frame.ECEFToECI GMST (Some ecef)) = Some ecef.
Proof.
  unfold Frame.ECEFToECI, Frame.ECIToECEF.
  cbn [Frame.X Frame.Y Frame.Zc Frame.Time fadd fsub fmul fneg fsin fcos
       fconst realArith].
  pose proof (sin2_cos2 (GMST (ecefTime ecef))) as H. unfold Rsqr in H.
  set (s := sin (GMST (ecefTime ecef))) in *.
  set (c := cos (GMST (ecefTime ecef))) in *.
  destruct ecef as [x y z t]. cbn [ecefX ecefY ecefZ ecefTime].
  f_equal. f_equal;
    match goal with
    | |- ?l = ?r => replace l with (r * (s * s + c * c)) by ring;
                    rewrite H; ring
    end.
Qed.


Lemma WGS84_squares :
  Q2R WGS84B * Q2R WGS84B = Q2R WGS84A * Q2R WGS84A * (1 - Q2R WGS84E2)
  /\ 0 < Q2R WGS84A /\ 0 < Q2R WGS84E2 < 1.
Proof.
  split; [|split; [|split]].
  - rewrite <- Q2R_1, <- Qreals.Q2R_minus, <- !Qreals.Q2R_mult. apply Qreals.Qeq_eqR.
    vm_compute. reflexivity.
  - rewrite <- Q2R_0. apply Qreals.Qlt_Rlt. reflexivity.
  - rewrite <- Q2R_0. apply Qreals.Qlt_Rlt. reflexivity.
  - rewrite <- Q2R_1. apply Qreals.Qlt_Rlt. reflexivity.
Qed.


Lemma overhead_aer (lat lon alt h : R) :
  0 < h ->
  exists aer,
    ECEFToAER
      (Frame.LLAToECEF (Some {| Lat := lat; Lon := lon; Alt := alt + h |}))
      (Frame.LLAToECEF (Some {| Lat := lat; Lon := lon; Alt := alt |}))
      (Some {| Lat := lat; Lon := lon; Alt := alt |})
    = Some aer
    /\ Range aer = h /\ El aer = PI / 2.
Proof.
  intros Hh. eexists. split; [reflexivity|].
  cbn [Range El ecefX ecefY ecefZ Lat Lon Alt fadd fsub fmul fdiv fneg fsqrt
       fsin fcos fasin fconst realArith].
  pose proof (sin2_cos2 lat) as Hlat. pose proof (sin2_cos2 lon) as Hlon.
  unfold Rsqr in Hlat, Hlon.
  set (sl := sin lat) in *. set (cl := cos lat) in *.
  set (so := sin lon) in *. set (co := cos lon) in *.
  set (N := Q2R WGS84A / sqrt (Q2R 1 - Q2R WGS84E2 * sl * sl)).
  set (k := Q2R (1 - WGS84E2)).
  set (dx := (N + (alt + h)) * cl * co - (N + alt) * cl * co).
  set (dy := (N + (alt + h)) * cl * so - (N + alt) * cl * so).
  set (dz := (N * k + (alt + h)) * sl - (N * k + alt) * sl).
  assert (Ex : dx = h * (cl * co)) by (unfold dx; ring).
  assert (Ey : dy = h * (cl * so)) by (unfold dy; ring).
  assert (Ez : dz = h * sl) by (unfold dz; ring).
  assert (Esq : dx * dx + dy * dy + dz * dz = h * h).
  { rewrite Ex, Ey, Ez.
    replace (h * (cl * co) * (h * (cl * co)) + h * (cl * so) * (h * (cl * so))
             + h * sl * (h * sl))
      with (h * h * (cl * cl * (so * so + co * co) + sl * sl)) by ring.
    rewrite Hlon, Rmult_1_r, (Rplus_comm (cl * cl)), Hlat. ring. }
  assert (Eu : cl * co * dx + cl * so * dy + sl * dz = h).
  { rewrite Ex, Ey, Ez.
    replace (cl * co * (h * (cl * co)) + cl * so * (h * (cl * so)) + sl * (h * sl))
      with (h * (cl * cl * (so * so + co * co) + sl * sl)) by ring.
    rewrite Hlon, Rmult_1_r, (Rplus_comm (cl * cl)), Hlat. ring. }
  rewrite Esq, Eu, sqrt_square by lra. split; [reflexivity|].
  replace (h / h) with 1 by (field; lra). apply asin_1.
Qed.



End ExactFrames.


(** ** tle_store_config.go *)

(** Whatever Validate returns, it leaves a configuration with an update
    interval of a minute or more, a cache directory, a maximal age that
    is not zero or negative and at least one group; it fails exactly
    when one of these groups is unknown, naming the unknown ones; a
    second call changes nothing more; and the default configuration is
    left as it is. *)
Theorem Validate_corrects (IsValidGroup : string -> bool) (c : TLEStoreConfig) :
  let c' := fst (Validate IsValidGroup c) in
  let r := snd (Validate IsValidGroup c) in
  Go.Minute <= UpdateInterval c'
  /\ CacheDir c' <> ""
  /\ (MaxTLEAgeDays c' <=? 0)%float = false
  /\ Groups c' <> []
  /\ EnableMetadata c' = EnableMetadata c
  /\ (r = Ok tt <-> forallb IsValidGroup (Groups c') = true)
  /\ (forall invalid, r = Err (ErrUnknownGroups invalid) ->
        invalid <> []
        /\ forall g, In g invalid <-> In g (Groups c') /\ IsValidGroup g = false)
  /\ Validate IsValidGroup c' = (c', r)
  /\ fst (Validate IsValidGroup DefaultTLEStoreConfig) = DefaultTLEStoreConfig.
Proof.
  cbv zeta.
  assert (H1 : Go.Minute <= UpdateInterval (fst (Validate IsValidGroup c))).
  { unfold Validate. destruct (0 <? _)%nat; cbn [fst UpdateInterval];
      destruct (UpdateInterval c <? Go.Minute) eqn:E;
      try (apply Z.ltb_ge in E; exact E); vm_compute; discriminate. }
  assert (H2 : String.eqb (CacheDir (fst (Validate IsValidGroup c))) "" = false).
  { unfold Validate. destruct (0 <? _)%nat; cbn [fst CacheDir];
      destruct (String.eqb (CacheDir c) "") eqn:E; try exact E; reflexivity. }
  assert (H3 : (MaxTLEAgeDays (fst (Validate IsValidGroup c)) <=? 0)%float = false).
  { unfold Validate. destruct (0 <? _)%nat; cbn [fst MaxTLEAgeDays];
      destruct (MaxTLEAgeDays c <=? 0)%float eqn:E; try exact E; reflexivity. }
  assert (H4 : (List.length (Groups (fst (Validate IsValidGroup c))) =? 0)%nat
               = false).
  { unfold Validate. destruct (0 <? _)%nat; cbn [fst Groups];
      destruct (List.length (Groups c) =? 0)%nat eqn:E; try exact E; reflexivity. }
  assert (H5 : snd (Validate IsValidGroup c)
               = let invalid := List.filter (fun g => negb (IsValidGroup g))
                                  (Groups (fst (Validate IsValidGroup c))) in
                 if (0 <? List.length invalid)%nat
                 then Err (ErrUnknownGroups invalid) else Ok tt).
  { unfold Validate. cbv zeta.
    destruct (0 <? List.length _)%nat eqn:E; cbn [fst snd Groups]; now rewrite E. }
  split; [exact H1|]. split; [now apply String.eqb_neq|]. split; [exact H3|].
  split; [intros E; rewrite E in H4; discriminate|].
  split; [unfold Validate; now destruct (0 <? _)%nat|].
  rewrite H5. cbv zeta.
  set (groups := Groups (fst (Validate IsValidGroup c))) in *.
  split; [|split; [|split]].
  - destruct (List.filter _ groups) as [|g l] eqn:E; cbn [List.length Nat.ltb Nat.leb].
    + split; [intros _|reflexivity].
      apply forallb_forall. intros g Hg.
      destruct (IsValidGroup g) eqn:Eg; [reflexivity|].
      assert (Hin : In g (List.filter (fun g => negb (IsValidGroup g)) groups))
        by (apply filter_In; split; [exact Hg | now rewrite Eg]).
      rewrite E in Hin. destruct Hin.
    + split; [discriminate|]. intros Hall. exfalso.
      assert (Hin : In g (List.filter (fun g => negb (IsValidGroup g)) groups))
        by (rewrite E; now left).
      apply filter_In in Hin as [Hg Hv].
      rewrite forallb_forall in Hall. rewrite (Hall g Hg) in Hv. discriminate.
  - intros invalid.
    destruct (List.filter _ groups) as [|g l] eqn:E;
      cbn [List.length Nat.ltb Nat.leb]; [discriminate|].
    intros [= <-]. split; [discriminate|]. intros g'. rewrite <- E, filter_In.
    now destruct (IsValidGroup g').
  - unfold Validate at 1. fold groups.
    apply Z.ltb_ge in H1. rewrite H1, H2, H3, H4. cbv zeta.
    assert (Ec : fst (Validate IsValidGroup c)
                 = {| Groups := groups;
                      UpdateInterval := UpdateInterval (fst (Validate IsValidGroup c));
                      CacheDir := CacheDir (fst (Validate IsValidGroup c));
                      MaxTLEAgeDays := MaxTLEAgeDays (fst (Validate IsValidGroup c));
                      EnableMetadata := EnableMetadata (fst (Validate IsValidGroup c)) |})
      by now destruct (fst (Validate IsValidGroup c)).
    rewrite <- Ec. now destruct (0 <? _)%nat.
  - unfold Validate. now destruct (0 <? _)%nat.
Qed.

(** ** celestrak.go: one satellite *)

Section FetchOneFacts.
Context `{lib : Go.NumLib}.

(** FetchByNoradID makes the requests of one fetch and parses the whole
    body as a batch: it returns the first record when every record of
    the body parses, fails when any record of the body does not parse,
    also a later one, and reports not-found for a body that holds no
    record. *)
Theorem FetchByNoradID_whole_body
        (c : CelestrakClient) (up : Upstream) (data : string) :
  fst (fetch c up) = Ok data ->
  snd (FetchByNoradID c up) = snd (fetch c up)
  /\ (forall tle rest,
        parseAll (batchRecords data) = Ok (tle :: rest) ->
        fst (FetchByNoradID c up) = Ok tle)
  /\ (forall record e,
        In record (batchRecords data) -> ParseTLE record = Err e ->
        exists e', fst (FetchByNoradID c up)
                   = Err (ErrFetchingNoradID (ErrParsingTLE e')))
  /\ (batchRecords data = [] ->
      fst (FetchByNoradID c up) = Err ErrNoradIDNotFound).
Proof.
  intros H. unfold FetchByNoradID.
  destruct (fetch c up) as [[d|e] evs]; [|discriminate].
  cbn [fst] in H. injection H as ->. rewrite ParseTLEBatch_parseAll.
  split; [|split; [|split]].
  - destruct (parseAll (batchRecords data)) as [[|t l]|]; reflexivity.
  - intros tle rest ->. reflexivity.
  - intros record e Hin He.
    pose proof (parseAll_fails _ _ _ Hin He) as Hf.
    destruct (parseAll (batchRecords data)) as [l|e']; [discriminate|].
    now exists e'.
  - intros ->. reflexivity.
Qed.

End FetchOneFacts.

(** ** tle_store.go: counting and searching *)

Lemma prefix_app p : forall s,
  String.prefix p s = true <-> exists rest, s = p ++ rest.
Proof.
  induction p as [|c p IH]; intros s.
  - split; [intros _; now exists s | destruct s; reflexivity].
  - destruct s as [|d s]; cbn [String.prefix].
    + split; [discriminate | intros [rest H]; discriminate].
    + destruct (ascii_dec c d) as [->|Hne].
      * rewrite IH. split; intros [rest H]; exists rest.
        -- cbn. now rewrite H.
        -- cbn in H. now injection H.
      * split; [discriminate|]. intros [rest H].
        change (String c p ++ rest) with (String c (p ++ rest)) in H.
        injection H as E _. congruence.
Qed.

(** [stringsContains] is the test for a substring. *)
Lemma stringsContains_substring s : forall substr,
  stringsContains s substr = true
  <-> exists before after, s = before ++ substr ++ after.
Proof.
  induction s as [|c s IH]; intros substr; cbn [stringsContains].
  - rewrite orb_false_r, prefix_app. split.
    + intros [rest H]. exists "", rest. exact H.
    + intros (before & after & H). destruct before; [now exists after|discriminate].
  - rewrite orb_true_iff, prefix_app, IH. split.
    + intros [[rest H] | (before & after & H)].
      * exists "", rest. exact H.
      * exists (String c before), after. cbn. now rewrite H.
    + intros (before & after & H). destruct before as [|d before].
      * left. now exists after.
      * right. cbn in H. injection H as _ H. now exists before, after.
Qed.

Section QueryFacts.
Context `{uc : Unicode.Case}.

(** Add is an upsert: the count grows by one for a new catalog number
    and stays for one that is there already; Count is the number of
    records GetAll returns. *)
Theorem Count_after_Add (s : TLEStore) (tle : TLE) (group : string) :
  Count (AddWithGroup s (Some tle) group)
  = match Get s (NoradID tle) with
    | Some _ => Count s
    | None => S (Count s)
    end
  /\ Count (Add s (Some tle)) = Count (AddWithGroup s (Some tle) group)
  /\ Count s = List.length (GetAll s)
  /\ Count NewTLEStore = 0%nat.
Proof.
  unfold Count, Get, Add, AddWithGroup, addInternal, GetAll. cbn [catalog].
  split; [|split; [reflexivity | split]].
  - destruct (catalog s !! NoradID tle) eqn:E.
    + now apply map_size_insert_Some.
    + now apply map_size_insert_None.
  - now rewrite length_map, length_map_to_list.
  - apply map_size_empty.
Qed.

(** GetByName looks the lower-cased query up in the name index first:
    when the index has it, exactly the records of the IDs listed there
    are returned, and names that merely contain the query are not; when
    it has not, the records whose lower-cased name contains the
    lower-cased query are returned. *)
Theorem GetByName_matches (s : TLEStore) (query : string) (tle : TLE) :
  (forall ids,
      byName s !! Unicode.ToLower query = Some ids ->
      (In tle (GetByName s query)
       <-> exists id, In id ids /\ Get s id = Some tle))
  /\ (byName s !! Unicode.ToLower query = None ->
      (In tle (GetByName s query)
       <-> (exists id, Get s id = Some tle)
           /\ exists before after,
                Unicode.ToLower (Name tle)
                = before ++ Unicode.ToLower query ++ after)).
Proof.
  unfold GetByName, Get. split.
  - intros ids ->. split.
    + intros H. induction ids as [|i ids IH]; [destruct H|].
      cbn in H. destruct (catalog s !! i) as [t|] eqn:E.
      * destruct H as [-> | H]; [exists i; split; [now left | exact E]|].
        destruct (IH H) as (id & Hin & Hid). exists id. split; [now right|exact Hid].
      * destruct (IH H) as (id & Hin & Hid). exists id. split; [now right|exact Hid].
    + intros (id & Hin & Hid). now apply (omap_In _ _ id).
  - intros ->. rewrite filter_In, stringsContains_substring, in_map_iff.
    split; intros [H1 H2]; (split; [|exact H2]).
    + destruct H1 as ([id t] & <- & Hin). exists id.
      now apply elem_of_map_to_list, list_elem_of_In.
    + destruct H1 as [id Hid]. exists (id, tle). split; [reflexivity|].
      now apply list_elem_of_In, elem_of_map_to_list.
Qed.

End QueryFacts.


(** ** The check digit *)

Lemma substring_app_left l : forall s,
  String.substring 0 (String.length l) (l ++ s) = l.
Proof.
  induction l as [|c l IH]; intros s.
  - cbn. now destruct s.
  - change (String c l ++ s) with (String c (l ++ s)).
    cbn [String.length String.substring]. now rewrite IH.
Qed.

Lemma get_app_right l : forall c s,
  String.get (String.length l) (l ++ String c s) = Some c.
Proof.
  induction l as [|d l IH]; intros c s; [reflexivity|].
  change (String d l ++ String c s) with (String d (l ++ String c s)).
  cbn [String.length String.get]. apply IH.
Qed.

Lemma length_app_string l : forall s,
  String.length (l ++ s) = (String.length l + String.length s)%nat.
Proof.
  induction l as [|c l IH]; intros s; [reflexivity|].
  change (String c l ++ s) with (String c (l ++ s)).
  cbn [String.length]. now rewrite IH.
Qed.

Lemma Itoa_digit n :
  0 <= n < 10 -> Itoa n = String (ascii_of_N (Z.to_N (48 + n))) "".
Proof.
  intros H. unfold Itoa.
  replace (n <? 0) with false by (symmetry; apply Z.ltb_ge; lia).
  cbn [itoaLoop].
  replace (n <? 10) with true by (symmetry; apply Z.ltb_lt; lia).
  now rewrite Z.mod_small by lia.
Qed.

(** makeTLELine completes every line of 68 characters to a line of 69
    that validateChecksum accepts, by one digit, and this digit is the
    only character that does: the line followed by any other character
    is rejected.  On a line of another length it panics. *)
Theorem makeTLELine_validates (line68 : string) :
  (String.length line68 = 68%nat ->
   exists line,
     makeTLELine line68 = Some line
     /\ String.length line = 69%nat
     /\ Go.slice line 0 68 = line68
     /\ validateChecksum line = true
     /\ forall c, validateChecksum (line68 ++ String c "") = true ->
                  line68 ++ String c "" = line)
  /\ (String.length line68 <> 68%nat -> makeTLELine line68 = None).
Proof.
  split.
  - intros Hlen. unfold makeTLELine. rewrite Hlen. cbn [Nat.eqb negb].
    pose proof (modulo10_range line68) as Hr.
    rewrite calculateChecksum_modulo10, Itoa_digit by exact Hr.
    set (k := modulo10 line68) in *.
    set (d := ascii_of_N (Z.to_N (48 + k))).
    assert (Hd : Go.code d = 48 + k).
    { unfold Go.code, d. rewrite N_ascii_embedding by lia. lia. }
    assert (Hv : forall c, validateChecksum (line68 ++ String c "") = true
                           <-> Go.code c = 48 + k).
    { intros c. unfold validateChecksum, TLELineLength.
      rewrite length_app_string, Hlen. cbn [String.length Nat.add Nat.ltb Nat.leb].
      change (69 - 1)%nat with 68%nat. unfold Go.slice, Go.at_.
      change (68 - 0)%nat with 68%nat.
      rewrite <- Hlen, substring_app_left, get_app_right.
      rewrite calculateChecksum_modulo10. fold k. rewrite Z.eqb_eq.
      unfold Go.byteSub. change (Go.code "0"%char) with 48.
      pose proof (code_range c) as Hc.
      destruct (Z_lt_le_dec (Go.code c) 48) as [Hlt|Hge].
      - assert (E : (Go.code c - 48) mod 256 = Go.code c - 48 + 256)
          by (symmetry; apply Z.mod_unique with (q := -1); lia).
        rewrite E. lia.
      - rewrite Z.mod_small by lia. lia. }
    eexists. split; [reflexivity|].
    split; [rewrite length_app_string, Hlen; reflexivity|].
    split; [unfold Go.slice; change (68 - 0)%nat with 68%nat;
            rewrite <- Hlen; apply substring_app_left|].
    split; [now apply Hv|].
    intros c Hc. apply Hv in Hc. f_equal. f_equal.
    apply (code_inj c d). congruence.
  - intros H. unfold makeTLELine. apply Nat.eqb_neq in H. now rewrite H.
Qed.


(** ** A body of one line *)

Section OneLineFacts.
Context `{lib : Go.NumLib} `{uc : Unicode.Case}.

Lemma splitBytes_one l : forall cur,
  Forall (fun c => c <> Go.newline) l ->
  Go.splitBytes cur l = [Go.ofBytes (rev cur ++ l)].
Proof.
  induction l as [|c l IH]; intros cur H; cbn [Go.splitBytes].
  - now rewrite app_nil_r.
  - inversion H as [|? ? Hc Hl]; subst. apply Ascii.eqb_neq in Hc. rewrite Hc.
    rewrite IH by exact Hl. cbn [rev]. now rewrite <- app_assoc.
Qed.

Lemma batchRecords_one_line data : singleLine data -> batchRecords data = [].
Proof.
  intros H. unfold batchRecords, Go.SplitLines.
  rewrite splitBytes_one by exact H. cbn [recordsLoop].
  destruct (String.eqb (Go.TrimSpace _) ""); [reflexivity|].
  cbn [app]. now destruct (Go.TrimSpace _) as [|? ?].
Qed.


End OneLineFacts.

(** ** Runs *)


Lemma ParseTLE_round_trip_witness :
  @ParseTLE decimalLib (recordLines issTLE) = Ok issTLE.
Proof.
  refine (proj1 (@ParseTLE_round_trip decimalLib validRecord issTLE _)).
  vm_compute. reflexivity.
Defined.



Lemma FetchByNoradID_whole_body_witness :
  fst (@FetchByNoradID decimalLib {| maxRetries := 3 |} (answering issBatch))
  = Ok issTLE.
Proof.
  refine (proj1 (proj2 (@FetchByNoradID_whole_body decimalLib
                          {| maxRetries := 3 |} (answering issBatch) issBatch _))
                issTLE [] _); vm_compute; reflexivity.
Defined.



(** ** All the groups *)

Lemma inserts_present (tles : list TLE) : forall (m : gmap Z TLE) id,
  (m !! id <> None \/ exists t, In t tles /\ NoradID t = id) ->
  fold_left (fun m tle => <[NoradID tle := tle]> m) tles m !! id <> None.
Proof.
  induction tles as [|x tles IH]; intros m id H; cbn [fold_left].
  - destruct H as [H | (t & [] & _)]; exact H.
  - apply IH. destruct (decide (NoradID x = id)) as [E|E].
    + left. rewrite E, lookup_insert_eq. discriminate.
    + destruct H as [H | (t & [-> | Ht] & Hid)].
      * left. now rewrite lookup_insert_ne.
      * congruence.
      * right. now exists t.
Qed.

Section AllGroupsFacts.
Context `{lib : Go.NumLib} `{uc : Unicode.Case}.

Lemma addAll_present tles group s id :
  (Get s id <> None \/ exists t, In t tles /\ NoradID t = id) ->
  Get (addAll tles group s) id <> None.
Proof. unfold Get. rewrite addAll_catalog. apply inserts_present. Qed.

(** The store a call of LoadGroup leaves. *)
Lemma LoadGroup_store cfg c up now s cache group :
  let s' := fst (fst (fst (LoadGroup cfg c up now s cache group))) in
  (forall id, Get s id <> None -> Get s' id <> None)
  /\ (forall tles, fst (FetchGroup c up) = Ok tles ->
        snd (LoadGroup cfg c up now s cache group) = Ok tt
        /\ Forall (fun tle => Get s' (NoradID tle) <> None) tles).
Proof.
  cbv zeta. unfold LoadGroup.
  destruct (fst (FetchGroup c up)) as [tles|e].
  - cbn [fst snd]. fold (addAll tles group s). split.
    + intros id H. apply addAll_present. now left.
    + intros l [= <-]. split; [reflexivity|].
      apply List.Forall_forall. intros t Ht. apply addAll_present. right.
      now exists t.
  - split; [|discriminate].
    destruct (loadGroupFromCache cfg cache group) as [tles|]; cbn [fst snd].
    + fold (addAll tles group s). intros id H. apply addAll_present. now left.
    + auto.
Qed.

Lemma loadGroups_spec cfg c env groups : forall k s cache log lastErr,
  let out := loadGroups cfg c env k groups s cache log lastErr in
  let s' := fst (fst (fst out)) in
  (forall id, Get s id <> None -> Get s' id <> None)
  /\ (forall j group tles,
        nth_error groups j = Some group ->
        fst (FetchGroup c (fst (env (k + j)%nat))) = Ok tles ->
        Forall (fun tle => Get s' (NoradID tle) <> None) tles)
  /\ ((forall j, (j < List.length groups)%nat ->
         isOk (fst (FetchGroup c (fst (env (k + j)%nat)))) = true) ->
      snd out = lastErr).
Proof.
  induction groups as [|group rest IH]; intros k s cache log lastErr; cbv zeta.
  - cbn [loadGroups fst snd]. split; [auto|]. split; [|auto].
    intros j g tles H. destruct j; discriminate.
  - cbn [loadGroups].
    pose proof (LoadGroup_store cfg c (fst (env k)) (snd (env k)) s cache group)
      as Hs. cbv zeta in Hs.
    destruct (LoadGroup cfg c (fst (env k)) (snd (env k)) s cache group)
      as [[[s1 cache1] l] r] eqn:E.
    cbn [fst snd] in Hs. destruct Hs as [Hmono Hfetch].
    assert (G : forall log' lastErr',
      let out := loadGroups cfg c env (S k) rest s1 cache1 log' lastErr' in
      (forall id, Get s id <> None -> Get (fst (fst (fst out))) id <> None)
      /\ (forall j g tles,
            nth_error (group :: rest) j = Some g ->
            fst (FetchGroup c (fst (env (k + j)%nat))) = Ok tles ->
            Forall (fun tle => Get (fst (fst (fst out))) (NoradID tle) <> None)
                   tles)).
    { intros log' lastErr'. cbv zeta.
      destruct (IH (S k) s1 cache1 log' lastErr') as (M & F & _). split.
      - intros id H. apply M, Hmono, H.
      - intros j g tles Hj Hf. destruct j as [|j].
        + rewrite Nat.add_0_r in Hf. destruct (Hfetch tles Hf) as [_ Hall].
          eapply List.Forall_impl; [|exact Hall]. intros t. apply M.
        + cbn [nth_error] in Hj. apply (F j g tles Hj).
          now replace (S k + j)%nat with (k + S j)%nat by lia. }
    destruct r as [u|err].
    + destruct (G (log ++ l)%list lastErr) as [G1 G2].
      split; [exact G1|]. split; [exact G2|].
      intros Hall. destruct (IH (S k) s1 cache1 (log ++ l)%list lastErr)
        as (_ & _ & Hlast).
      apply Hlast. intros j Hj.
      replace (S k + j)%nat with (k + S j)%nat by lia. apply Hall.
      cbn [List.length]. lia.
    + destruct (G (log ++ l ++ [(Warn, "failed to load group")])%list (Some err))
        as [G1 G2].
      split; [exact G1|]. split; [exact G2|].
      intros Hall. exfalso.
      specialize (Hall 0%nat ltac:(cbn [List.length]; lia)).
      rewrite Nat.add_0_r in Hall.
      destruct (fst (FetchGroup c (fst (env k)))) as [tles|] eqn:Ef;
        [|discriminate].
      destruct (Hfetch tles eq_refl) as [Hr _]. discriminate.
Qed.

(** LoadAllGroups goes through every group of the configuration, also
    after a group has failed: the records of every group whose fetch
    succeeds are in the store afterwards, whatever happens to the other
    groups.  It takes no record out of the store, and it returns no
    error when every fetch succeeds. *)
Theorem LoadAllGroups_attempts_every_group
        (cfg : TLEStoreConfig) (c : CelestrakClient)
        (env : nat -> Upstream * Go.Time) (s : TLEStore) (cache : Cache) :
  let s' := fst (fst (fst (LoadAllGroups cfg c env s cache))) in
  (forall id, Get s id <> None -> Get s' id <> None)
  /\ (forall k group tles,
        nth_error (Groups cfg) k = Some group ->
        fst (FetchGroup c (fst (env k))) = Ok tles ->
        Forall (fun tle => Get s' (NoradID tle) <> None) tles)
  /\ ((forall k, (k < List.length (Groups cfg))%nat ->
         isOk (fst (FetchGroup c (fst (env k)))) = true) ->
      snd (LoadAllGroups cfg c env s cache) = Ok tt).
Proof.
  cbv zeta. unfold LoadAllGroups.
  pose proof (loadGroups_spec cfg c env (Groups cfg) 0 s cache [] None) as H.
  cbv zeta in H.
  destruct (loadGroups cfg c env 0 (Groups cfg) s cache [] None)
    as [[[s1 cache1] log] lastErr].
  cbn [fst snd] in *. destruct H as (H1 & H2 & H3).
  split; [exact H1|]. split; [exact H2|].
  intros Hall. now rewrite (H3 Hall).
Qed.

End AllGroupsFacts.

(** ** Several groups at once *)

Section ManyGroupsFacts.
Context `{lib : Go.NumLib}.

Lemma FetchMultipleGroups_fold c ups order : forall acc,
  fold_left
    (fun acc i =>
       match nth_error ups i with
       | None => acc
       | Some up =>
           match fst (FetchGroup c up) with
           | Err err => (fst acc, (snd acc ++ [err])%list)
           | Ok tles => ((fst acc ++ tles)%list, snd acc)
           end
       end)
    order acc
  = ((fst acc
      ++ flat_map (fun i => match nth_error ups i with
                            | Some up =>
                                match fst (FetchGroup c up) with
                                | Ok tles => tles
                                | Err _ => []
                                end
                            | None => []
                            end) order)%list,
     (snd acc
      ++ flat_map (fun i => match nth_error ups i with
                            | Some up =>
                                match fst (FetchGroup c up) with
                                | Ok _ => []
                                | Err err => [err]
                                end
                            | None => []
                            end) order)%list).
Proof.
  induction order as [|i order IH]; intros [tles errs]; cbn [fold_left flat_map fst snd].
  - now rewrite !app_nil_r.
  - rewrite IH. destruct (nth_error ups i) as [up|]; [|reflexivity].
    destruct (fst (FetchGroup c up)); cbn [fst snd app];
      now rewrite <- ?app_assoc.
Qed.

Lemma flat_map_indices {A B} (f : option A -> list B) (l : list A) :
  flat_map (fun i => f (nth_error l i)) (seq 0 (List.length l))
  = flat_map (fun x => f (Some x)) l.
Proof.
  assert (G : forall pre,
    flat_map (fun i => f (nth_error (pre ++ l) i))
             (seq (List.length pre) (List.length l))
    = flat_map (fun x => f (Some x)) l).
  { induction l as [|x l IH]; intros pre; [reflexivity|].
    cbn [List.length seq flat_map].
    rewrite nth_error_app2, Nat.sub_diag by lia. cbn [nth_error]. f_equal.
    specialize (IH (pre ++ [x])%list).
    rewrite <- app_assoc, length_app in IH. cbn [List.length app] in IH.
    now rewrite Nat.add_1_r in IH. }
  apply (G []).
Qed.

(** Whatever the order in which the goroutines finish, FetchMultipleGroups
    returns the records of all the groups whose fetch succeeded, those of
    one group together and in their order, and one error for each group
    whose fetch failed: the records of the groups that succeeded are
    returned also when another group failed, and a satellite that is in
    two groups is returned twice. *)
Theorem FetchMultipleGroups_collects
        (c : CelestrakClient) (ups : list Upstream) (order : list nat) :
  Permutation order (seq 0 (List.length ups)) ->
  Permutation (fst (FetchMultipleGroups c ups order))
              (flat_map (fun up => match fst (FetchGroup c up) with
                                   | Ok tles => tles
                                   | Err _ => []
                                   end) ups)
  /\ Permutation (snd (FetchMultipleGroups c ups order))
                 (flat_map (fun up => match fst (FetchGroup c up) with
                                      | Ok _ => []
                                      | Err err => [err]
                                      end) ups)
  /\ (snd (FetchMultipleGroups c ups order) = []
      <-> Forall (fun up => isOk (fst (FetchGroup c up)) = true) ups).
Proof.
  intros Hperm. unfold FetchMultipleGroups.
  rewrite FetchMultipleGroups_fold. cbn [fst snd app].
  assert (H1 : Permutation
    (flat_map (fun i => match nth_error ups i with
                        | Some up => match fst (FetchGroup c up) with
                                     | Ok tles => tles | Err _ => [] end
                        | None => [] end) order)
    (flat_map (fun up => match fst (FetchGroup c up) with
                         | Ok tles => tles | Err _ => [] end) ups)).
  { rewrite <- (flat_map_indices
                 (fun o => match o with
                           | Some up => match fst (FetchGroup c up) with
                                        | Ok tles => tles | Err _ => [] end
                           | None => [] end) ups).
    now apply Permutation_flat_map. }
  assert (H2 : Permutation
    (flat_map (fun i => match nth_error ups i with
                        | Some up => match fst (FetchGroup c up) with
                                     | Ok _ => [] | Err err => [err] end
                        | None => [] end) order)
    (flat_map (fun up => match fst (FetchGroup c up) with
                         | Ok _ => [] | Err err => [err] end) ups)).
  { rewrite <- (flat_map_indices
                 (fun o => match o with
                           | Some up => match fst (FetchGroup c up) with
                                        | Ok _ => [] | Err err => [err] end
                           | None => [] end) ups).
    now apply Permutation_flat_map. }
  split; [exact H1|]. split; [exact H2|]. split.
  - intros E. rewrite E in H2. apply Permutation_nil in H2.
    clear -H2. induction ups as [|up ups IH]; [constructor|].
    cbn [flat_map] in H2.
    destruct (fst (FetchGroup c up)) eqn:E; [|discriminate].
    constructor; [now rewrite E | now apply IH].
  - intros Hall.
    assert (E : flat_map (fun up => match fst (FetchGroup c up) with
                                    | Ok _ => [] | Err err => [err] end) ups = []).
    { clear -Hall. induction Hall as [|up ups Hup _ IH]; [reflexivity|].
      cbn [flat_map]. destruct (fst (FetchGroup c up)); [exact IH | discriminate]. }
    rewrite E in H2. now apply Permutation_sym, Permutation_nil in H2.
Qed.

End ManyGroupsFacts.

(** ** The default interval *)

Section DefaultTrackFacts.
Context `{trig : Go.TrigLib} `{kernel : satellite.Kernel}.

(** GenerateDefaultGroundTrack refuses nil, and refuses a record whose
    mean motion is 0 with the invalid-range error: the period is then 0
    and there is no division.  When the period it computes is positive
    (and three periods fit an int64), it is GenerateGroundTrack from one
    period before [now] to three periods after it with a step of 30
    seconds, which is then no error about its arguments. *)
Theorem GenerateDefaultGroundTrack_interval (tle : TLE) (now : Go.Time) :
  GenerateDefaultGroundTrack None now = Some (Err ErrNilTLEForTrack)
  /\ ((MeanMotion tle =? 0)%float = true ->
      GenerateDefaultGroundTrack (Some tle) now = Some (Err ErrInvalidRange))
  /\ (forall period,
        period
        = Go.int64OfFloat (OrbitalPeriod tle * Go.floatOfInt Go.Minute)%float ->
        0 < period -> 3 * period <= Go.maxInt64 ->
        GenerateDefaultGroundTrack (Some tle) now
        = GenerateGroundTrack (Some tle) (now - period) (now + 3 * period) now
                              (30 * Go.Second)
        /\ GenerateDefaultGroundTrack (Some tle) now
           <> Some (Err ErrInvalidRange)
        /\ GenerateDefaultGroundTrack (Some tle) now
           <> Some (Err ErrInvalidStepTrack)
        /\ GenerateDefaultGroundTrack (Some tle) now
           <> Some (Err ErrNilTLEForTrack)).
Proof.
  split; [reflexivity|]. split.
  - intros H. unfold GenerateDefaultGroundTrack, OrbitalPeriod. rewrite H.
    reflexivity.
  - intros period Hp Hpos Hfit.
    assert (E : GenerateDefaultGroundTrack (Some tle) now
                = GenerateGroundTrack (Some tle) (now - period)
                    (now + 3 * period) now (30 * Go.Second)).
    { unfold GenerateDefaultGroundTrack. rewrite <- Hp.
      replace (period <=? 0) with false by (symmetry; apply Z.leb_gt; lia).
      assert (B : Go.minInt64 <= -1 * period <= Go.maxInt64
                  /\ Go.minInt64 <= 3 * period <= Go.maxInt64).
      { unfold Go.minInt64, Go.maxInt64 in *.
        change (2 ^ 63) with 9223372036854775808 in *. lia. }
      unfold Go.timeAdd. rewrite !wrap64_small by tauto. f_equal; lia. }
    split; [exact E|]. rewrite E. unfold GenerateGroundTrack.
    change (30 * Go.Second <=? 0) with false. cbv iota.
    unfold Go.timeEqual, Go.timeBefore.
    replace (now - period =? now + 3 * period) with false
      by (symmetry; apply Z.eqb_neq; lia).
    replace (now + 3 * period <? now - period) with false
      by (symmetry; apply Z.ltb_ge; lia).
    destruct (NewPropagator (Some tle)) as [prop|e];
      [|repeat split; discriminate].
    destruct (generateTrackPoints prop (now - period) (now + 3 * period)
                (30 * Go.Second)) as [[points|e]|] eqn:G;
      [| |repeat split; discriminate].
    + destruct (List.length points =? 0)%nat; [repeat split; discriminate|].
      destruct (splitPastFuture _ _). repeat split; discriminate.
    + assert (He : exists t err, e = ErrPropagationAt t err).
      { destruct (generateTrackPoints_error prop (now - period)
                    (now + 3 * period) (30 * Go.Second) e
                    ltac:(reflexivity) ltac:(lia) G) as (err & _ & ->).
        eauto. }
      destruct He as (t & err & ->). repeat split; discriminate.
Qed.

End DefaultTrackFacts.

Lemma FetchMultipleGroups_collects_witness :
  Permutation
    (fst (@FetchMultipleGroups decimalLib {| maxRetries := 0 |}
            [answering issBatch; alwaysFailing] [1%nat; 0%nat]))
    (flat_map (fun up => match fst (@FetchGroup decimalLib
                                      {| maxRetries := 0 |} up) with
                         | Ok tles => tles
                         | Err _ => []
                         end)
              [answering issBatch; alwaysFailing]).
Proof.
  refine (proj1 (@FetchMultipleGroups_collects decimalLib {| maxRetries := 0 |}
                   [answering issBatch; alwaysFailing] [1%nat; 0%nat] _)).
  apply perm_swap.
Defined.
